(** * Witness call stacks of govulncheck (internal/vulncheck/witness.go)

    A shallow embedding of the witness search: the breadth-first walk from a
    vulnerable symbol up to the entry functions of the analysed program, the
    choice of one call site per caller, the ranking of the shortest candidate
    stacks, and the comparators that fix the iteration order.

    Go pointers are addresses into an explicit store.  [*FuncNode] and
    [*Vuln] are natural numbers, read through [funcAt] and [vulnAt]; a nil
    pointer is [None] where the code tests for nil.  Go has no dangling
    pointers: an address outside the store stands for no node and reads as
    a function that nobody calls.  The caller of a call site is never nil.
    Go's [int] only counts and compares here, so lengths and weights are
    [nat] and line and column numbers are [Z].

    Two things are left open by the Go language and are parameters of the
    model: the order in which [range] goes over a map (in [callsites]), and
    the order in which the goroutines of [CallStacks] store their results.

    [sort.SliceStable] is modelled by the algorithm of the Go library, since
    the [less] that [callStack] hands to it answers true on ties, which the
    contract of the library does not cover. *)

From stdpp Require Import gmap strings list fin_maps sorting relations.

Local Open Scope nat_scope.

(** ** Data model *)

Abbreviation FuncPtr := nat (only parsing).
Abbreviation VulnPtr := nat (only parsing).
Abbreviation OSVPtr := nat (only parsing).
Abbreviation PkgPtr := nat (only parsing).

(** [token.Position] of the Go standard library (the byte offset plays no
    part in the comparisons and is left out). *)
Module Position.
Record t : Type := mk { Filename : string; Line : Z; Column : Z }.
End Position.

(** A call site, as [witness.go] reads it: the caller ([Parent]), the name
    and receiver type of the callee, the position, and whether the call is
    static. *)
Module CallSite.
Record t : Type := mk {
  Parent : FuncPtr;
  Name : string;
  RecvType : string;
  Pos : option Position.t;
  Resolved : bool
}.
End CallSite.

(** A function node.  [CallSites] are the call sites at which the function
    is called (its incoming edges). *)
Module FuncNode.
Record t : Type := mk {
  Name : string;
  RecvType : string;
  PkgPath : string;
  Pos : option Position.t;
  CallSites : list CallSite.t
}.

(** Modelled from the spec: the method [FuncNode.String] is declared
    outside the files at hand; the data model gives a function a display
    name that is package-qualified, and receiver-qualified for methods. *)
Definition String (fn : t) : string :=
  if String.eqb (RecvType fn) ""%string
  then (PkgPath fn +:+ "." +:+ Name fn)%string
  else (RecvType fn +:+ "." +:+ Name fn)%string.

(** The node read at an address that holds none. *)
Definition none : t := mk ""%string ""%string ""%string None [].
End FuncNode.

Module Vuln.
Record t : Type := mk {
  OSV : OSVPtr;
  CallSink : option FuncPtr;
  ImportSink : option PkgPtr
}.
Definition none : t := mk 0 None None.
End Vuln.

(** The store the pointers of a [Result] point into. *)
Record Store : Type := mkStore {
  funcNodes : list FuncNode.t;
  vulnObjs : list Vuln.t
}.

Definition funcAt (σ : Store) (p : FuncPtr) : FuncNode.t :=
  default FuncNode.none (funcNodes σ !! p).

Definition vulnAt (σ : Store) (p : VulnPtr) : Vuln.t :=
  default Vuln.none (vulnObjs σ !! p).

(** The two fields of [Result] that the search reads. *)
Record Result : Type := mkResult {
  EntryFunctions : list FuncPtr;
  Vulns : list VulnPtr
}.

Record StackEntry : Type := mkEntry {
  Function : FuncPtr;
  Call : option CallSite.t
}.

(** A nil [CallStack] is the empty list. *)
Definition CallStack := list StackEntry.

#[global] Instance Position_eq_dec : EqDecision Position.t.
Proof. solve_decision. Defined.
#[global] Instance CallSite_eq_dec : EqDecision CallSite.t.
Proof. solve_decision. Defined.
#[global] Instance StackEntry_eq_dec : EqDecision StackEntry.
Proof. solve_decision. Defined.

(** ** Comparators *)

(** [fmt.Sprintf("%v.%v", a, b)] on two strings. *)
Definition sprintf_dot (a b : string) : string := (a +:+ "." +:+ b)%string.

Definition posLess (p1 p2 : Position.t) : bool :=
  if (Position.Line p1 <? Position.Line p2)%Z then true
  else if (Position.Line p2 <? Position.Line p1)%Z then false
  else if (Position.Column p1 <? Position.Column p2)%Z then true
  else if (Position.Column p2 <? Position.Column p1)%Z then false
  else String.ltb (Position.Filename p1) (Position.Filename p2).

(** [csLess cs1 cs2]; the second argument may be nil. *)
Definition csLess (cs1 : CallSite.t) (cs2 : option CallSite.t) : bool :=
  match cs2 with
  | None => true
  | Some cs2 =>
    match CallSite.Pos cs1, CallSite.Pos cs2 with
    | Some p1, Some p2 =>
      if posLess p1 p2 then true
      else if posLess p2 p1 then false
      else String.ltb (sprintf_dot (CallSite.RecvType cs1) (CallSite.Name cs2))
                      (sprintf_dot (CallSite.RecvType cs2) (CallSite.Name cs2))
    | _, _ =>
      match CallSite.Pos cs2 with
      | None => true
      | Some _ =>
        match CallSite.Pos cs1 with
        | None => false
        | Some _ =>
          String.ltb (sprintf_dot (CallSite.RecvType cs1) (CallSite.Name cs2))
                     (sprintf_dot (CallSite.RecvType cs2) (CallSite.Name cs2))
        end
      end
    end
  end.

Definition funcLess (f1 f2 : FuncNode.t) : bool :=
  match FuncNode.Pos f1, FuncNode.Pos f2 with
  | Some p1, Some p2 =>
    if posLess p1 p2 then true
    else if posLess p2 p1 then false
    else String.ltb (FuncNode.String f1) (FuncNode.String f2)
  | _, _ =>
    match FuncNode.Pos f2 with
    | None => true
    | Some _ =>
      match FuncNode.Pos f1 with
      | None => false
      | Some _ => String.ltb (FuncNode.String f1) (FuncNode.String f2)
      end
    end
  end.

(** ** [sort.SliceStable]

    The Go library sorts blocks of 20 elements by insertion and then merges
    neighbouring blocks in place with SymMerge.  The slice is a list here;
    a call on [data[a:b]] becomes a call on that segment, with indices
    counted from [a]. *)
Section Sort.
Context {A : Type} (less : A → A → bool).

(** [less(i, j)] on the current contents of the slice. *)
Definition lessAt (data : list A) (i j : nat) : bool :=
  match data !! i, data !! j with
  | Some x, Some y => less x y
  | _, _ => false
  end.

(** The inner loop of [insertionSort]: the element [x] at index [j] moves
    down while it is less than its left neighbour.  [left] is the sorted
    part to its left in reverse, nearest neighbour first. *)
Fixpoint sinkLeft (x : A) (left : list A) : list A :=
  match left with
  | y :: left' => if less x y then y :: sinkLeft x left' else x :: left
  | [] => [x]
  end.

Definition insertionSort (data : list A) : list A :=
  rev (fold_left (λ left x, sinkLeft x left) data []).

(** [for i < j { h := (i+j)/2; if p(h) { i = h+1 } else { j = h } }],
    the binary search that SymMerge runs three times. *)
Fixpoint bsearch (fuel : nat) (p : nat → bool) (i j : nat) : nat :=
  match fuel with
  | 0 => i
  | S fuel' =>
    if i <? j then
      let h := (i + j) `div` 2 in
      if p h then bsearch fuel' p (h + 1) j else bsearch fuel' p i h
    else i
  end.

(** [data.Swap(i, j)]. *)
Definition swap (data : list A) (i j : nat) : list A :=
  match data !! i, data !! j with
  | Some x, Some y => <[j := x]> (<[i := y]> data)
  | _, _ => data
  end.

(** [swapRange(data, a, b, n)]: [for i := 0; i < n; i++] it swaps the
    elements at [a+i] and [b+i]. *)
Fixpoint swapRange (data : list A) (a b n : nat) : list A :=
  match n with
  | 0 => data
  | S n' => swapRange (swap data a b) (S a) (S b) n'
  end.

(** The loop of [rotate] and the swap that follows it, [i] and [j] being
    the lengths of the two blocks still to exchange around [m]. *)
Fixpoint rotateLoop (fuel : nat) (data : list A) (m i j : nat) : list A :=
  match fuel with
  | 0 => data
  | S fuel' =>
    if i =? j then swapRange data (m - i) m i
    else if j <? i then
      rotateLoop fuel' (swapRange data (m - i) m j) m (i - j) j
    else
      rotateLoop fuel' (swapRange data (m - i) (m + j - i) i) m i (j - i)
  end.

(** [rotate(data, a, m, b)], which exchanges the neighbouring blocks
    [data[a:m]] and [data[m:b]]. *)
Definition rotate (data : list A) (a m b : nat) : list A :=
  rotateLoop (b - a) data m (m - a) (b - m).

(** [symMerge(data, a, m, b)] with [u = data[a:m]] and [v = data[m:b]];
    the result is the new [data[a:b]].  [fuel] bounds the depth of the
    recursion; the length of the segment is enough. *)
Fixpoint symMerge (fuel : nat) (u v : list A) : list A :=
  let data := u ++ v in
  let m := length u in
  let b := length data in
  match fuel with
  | 0 => data
  | S fuel' =>
    if m =? 1 then
      let i := bsearch b (λ h, lessAt data h 0) m b in
      take (i - 1) (drop 1 data) ++ take 1 data ++ drop i data
    else if b - m =? 1 then
      let i := bsearch b (λ h, negb (lessAt data m h)) 0 m in
      take i data ++ drop m data ++ take (m - i) (drop i data)
    else
      let mid := b `div` 2 in
      let n := mid + m in
      let '(start0, r) := if mid <? m then (n - b, mid) else (0, m) in
      let p := n - 1 in
      let start :=
        bsearch b (λ c, negb (lessAt data (p - c) c)) start0 r in
      let end_ := n - start in
      let data1 :=
        if (start <? m) && (m <? end_) then rotate data start m end_
        else data in
      let data2 :=
        if (0 <? start) && (start <? mid) then
          symMerge fuel' (take start data1)
                   (take (mid - start) (drop start data1))
            ++ drop mid data1
        else data1 in
      if (mid <? end_) && (end_ <? b) then
        take mid data2
          ++ symMerge fuel' (take (end_ - mid) (drop mid data2))
                      (drop end_ data2)
      else data2
  end.

(** The index at which the general case of [symMerge] cuts [u], found by
    its third binary search. *)
Definition symStart (u v : list A) : nat :=
  let data := u ++ v in
  let m := length u in
  let b := length data in
  let mid := b `div` 2 in
  let n := mid + m in
  let '(start0, r) := if mid <? m then (n - b, mid) else (0, m) in
  bsearch b (λ c, negb (lessAt data (n - 1 - c) c)) start0 r.

(** The first loop of [stable]: insertion sort on each block. *)
Fixpoint sortBlocks (fuel blockSize : nat) (data : list A) : list (list A) :=
  match fuel with
  | 0 => [insertionSort data]
  | S fuel' =>
    if blockSize <=? length data then
      insertionSort (take blockSize data)
        :: sortBlocks fuel' blockSize (drop blockSize data)
    else [insertionSort data]
  end.

(** One pass of the second loop: neighbouring blocks are merged two by
    two; a block left alone at the end stays as it is. *)
Fixpoint mergePass (blocks : list (list A)) : list (list A) :=
  match blocks with
  | u :: v :: rest =>
    (if length v =? 0 then u ++ v
     else symMerge (length u + length v) u v) :: mergePass rest
  | _ => blocks
  end.

(** [for blockSize < n { ...; blockSize *= 2 }]. *)
Fixpoint mergeBlocks (fuel : nat) (blocks : list (list A)) : list A :=
  match fuel with
  | 0 => concat blocks
  | S fuel' =>
    match blocks with
    | [] => []
    | [u] => u
    | _ => mergeBlocks fuel' (mergePass blocks)
    end
  end.

Definition stable (data : list A) : list A :=
  let blocks := sortBlocks (length data) 20 data in
  mergeBlocks (length blocks) blocks.

Definition SliceStable (data : list A) : list A := stable data.
End Sort.

(** The order a [less] of the form [key x <= key y] sorts by. *)
Definition byKey {A : Type} (key : A → nat) : relation A :=
  λ x y, key x ≤ key y.

(** ** The search *)

(** The order in which one [range] over a Go map happens to hand out its
    entries: a rearrangement of the values the map holds.  The search takes
    one such order for every function it expands. *)
Definition RangeOrder : Type := list CallSite.t → list CallSite.t.

(** The first loop of [callsites]: for every caller not yet visited, the
    call site kept so far. *)
Definition minCallSites (sites : list CallSite.t) (visited : gset nat)
    : gmap nat CallSite.t :=
  fold_left
    (λ (minCs : gmap nat CallSite.t) cs,
       if bool_decide (CallSite.Parent cs ∈ visited) then minCs
       else if csLess cs (minCs !! CallSite.Parent cs)
            then <[CallSite.Parent cs := cs]> minCs
            else minCs)
    sites ∅.

Definition callsites (σ : Store) (range : RangeOrder)
    (sites : list CallSite.t) (visited : gset nat) : list CallSite.t :=
  let minCs := minCallSites sites visited in
  let fs := CallSite.Parent <$> range (snd <$> map_to_list minCs) in
  let fs := SliceStable (λ f1 f2, funcLess (funcAt σ f1) (funcAt σ f2)) fs in
  omap (λ f, minCs !! f) fs.

(** [callChain]; [call] and [child] are nil for the chain that holds the
    sink alone. *)
#[warnings="-register-all"]
Inductive callChain : Type :=
  mkChain (call : option CallSite.t) (f : FuncPtr) (child : option callChain).

Definition chain_f (c : callChain) : FuncPtr :=
  match c with mkChain _ f _ => f end.

Fixpoint chainStack (c : callChain) : CallStack :=
  match c with
  | mkChain call f child =>
    mkEntry f call
      :: match child with Some c' => chainStack c' | None => [] end
  end.

(** The method [CallStack] of [callChain]; the receiver may be nil. *)
Definition callChain_CallStack (c : option callChain) : CallStack :=
  match c with
  | None => []
  | Some c => chainStack c
  end.

Definition weight (stack : CallStack) : nat :=
  fold_left
    (λ w e,
       match Call e with
       | Some cs => if negb (CallSite.Resolved cs) then w + 1 else w
       | None => w
       end)
    stack 0.

(** The variables of the loop of [callStack]. *)
Record state : Type := mkState {
  queue : list callChain;
  seen : gset nat;
  candidates : list CallStack;
  candDepth : nat
}.

Section Search.
Context (σ : Store) (ord : FuncPtr → RangeOrder).
Context (entries skipSymbols : gset nat).

(** The body of the loop over the call sites of the function expanded,
    [c] being the chain taken off the queue. *)
Definition visit (c : callChain) (st : state) (cs : CallSite.t) : state :=
  let nStack := mkChain (Some cs) (CallSite.Parent cs) (Some c) in
  let queue1 :=
    if bool_decide (CallSite.Parent cs ∈ skipSymbols) then queue st
    else queue st ++ [nStack] in
  if bool_decide (CallSite.Parent cs ∈ entries) then
    let ns := callChain_CallStack (Some nStack) in
    if (length (candidates st) =? 0) || (length ns =? candDepth st) then
      mkState queue1 (seen st) (candidates st ++ [ns]) (length ns)
    else
      mkState [] (seen st) (candidates st) (candDepth st)
  else mkState queue1 (seen st) (candidates st) (candDepth st).

(** One turn of [for queue.Len() > 0]. *)
Definition step (st : state) : state :=
  match queue st with
  | [] => st
  | c :: rest =>
    let f := chain_f c in
    if bool_decide (f ∈ seen st) then
      mkState rest (seen st) (candidates st) (candDepth st)
    else
      let seen1 := {[f]} ∪ seen st in
      fold_left (visit c)
        (callsites σ (ord f) (FuncNode.CallSites (funcAt σ f)) seen1)
        (mkState rest seen1 (candidates st) (candDepth st))
  end.

Fixpoint loop (fuel : nat) (st : state) : state :=
  match fuel with
  | 0 => st
  | S fuel' =>
    match queue st with
    | [] => st
    | _ => loop fuel' (step st)
    end
  end.
End Search.

(** A number of turns after which the queue is empty: every turn takes one
    chain off the queue, and a function puts at most one chain on it for
    each of its call sites, once. *)
Definition searchFuel (σ : Store) : nat :=
  2 + sum_list (length ∘ FuncNode.CallSites <$> funcNodes σ).

Definition entriesOf (res : Result) : gset nat :=
  list_to_set (EntryFunctions res).

Definition skipSymbolsOf (σ : Store) (vuln : VulnPtr) (res : Result)
    : gset nat :=
  fold_left
    (λ (skip : gset nat) v,
       match Vuln.CallSink (vulnAt σ v) with
       | Some sink =>
         if bool_decide (v ≠ vuln)
            && bool_decide (Vuln.OSV (vulnAt σ v) = Vuln.OSV (vulnAt σ vuln))
            && bool_decide (Vuln.ImportSink (vulnAt σ v)
                            = Vuln.ImportSink (vulnAt σ vuln))
         then {[sink]} ∪ skip
         else skip
       | None => skip
       end)
    (Vulns res) ∅.

Definition initState (vulnSink : FuncPtr) : state :=
  mkState [mkChain None vulnSink None] ∅ [] 0.

(** The state in which the loop of [callStack] ends. *)
Definition search (σ : Store) (ord : FuncPtr → RangeOrder) (vuln : VulnPtr)
    (res : Result) (vulnSink : FuncPtr) : state :=
  loop σ ord (entriesOf res) (skipSymbolsOf σ vuln res) (searchFuel σ)
    (initState vulnSink).

(** The [less] handed to the sort of the candidates. *)
Definition weightLess (s1 s2 : CallStack) : bool :=
  if negb (weight s1 =? weight s2) then weight s1 <? weight s2 else true.

Definition callStack (σ : Store) (ord : FuncPtr → RangeOrder)
    (vuln : VulnPtr) (res : Result) : CallStack :=
  match Vuln.CallSink (vulnAt σ vuln) with
  | None => []
  | Some vulnSink =>
    let cands := candidates (search σ ord vuln res vulnSink) in
    match SliceStable weightLess cands with
    | [] => []
    | s :: _ => s
    end
  end.

(** [CallStacks]: one task for each element of [res.Vulns]; task [i] runs
    [callStack] with the map orders [ords i], and the tasks store their
    result under the lock in the order [sched] puts them in. *)
Definition CallStacks (σ : Store) (ords : nat → FuncPtr → RangeOrder)
    (sched : list (VulnPtr * CallStack) → list (VulnPtr * CallStack))
    (res : Result) : gmap nat CallStack :=
  let tasks := imap (λ i vuln, (vuln, callStack σ (ords i) vuln res)) (Vulns res) in
  fold_left (λ (stackPerVuln : gmap nat CallStack) t, <[t.1 := t.2]> stackPerVuln)
    (sched tasks) ∅.

(** ** The call graph and the properties of a witness *)

(** [calls σ p f]: some call site of [f] lies in [p]. *)
Definition calls (σ : Store) (p f : FuncPtr) : Prop :=
  ∃ cs, cs ∈ FuncNode.CallSites (funcAt σ f) ∧ CallSite.Parent cs = p.

(** A stack that ends in [sink] with no call, every other frame holding a
    call site of its own function at which the function of the next frame
    is called. *)
Inductive linked (σ : Store) (sink : FuncPtr) : CallStack → Prop :=
  | linked_sink : linked σ sink [mkEntry sink None]
  | linked_call cs e s :
      linked σ sink (e :: s) →
      cs ∈ FuncNode.CallSites (funcAt σ (Function e)) →
      linked σ sink (mkEntry (CallSite.Parent cs) (Some cs) :: e :: s).

(** The frames strictly between the first and the last. *)
Definition inner (s : CallStack) : CallStack := drop 1 (take (length s - 1) s).

(** [climb σ skip sink n f]: [n] frames lead from [f] down to [sink], none
    of them but [sink] in [skip]. *)
Inductive climb (σ : Store) (skip : gset nat) (sink : FuncPtr)
    : nat → FuncPtr → Prop :=
  | climb_sink : climb σ skip sink 1 sink
  | climb_call n p f :
      climb σ skip sink n f → calls σ p f → p ∉ skip →
      climb σ skip sink (S n) p.

(** [n] frames lead from some entry function to the sink of [vuln], the
    frames in between outside the sinks of its sibling Vulns.  An entry
    function that is the sink itself is one frame away. *)
Definition entryFrames (σ : Store) (vuln : VulnPtr) (res : Result)
    (sink : FuncPtr) (n : nat) : Prop :=
  (n = 1 ∧ sink ∈ entriesOf res)
  ∨ ∃ e f m, n = S m ∧ e ∈ entriesOf res ∧ calls σ e f
             ∧ climb σ (skipSymbolsOf σ vuln res) sink m f.

(** The same through at least one call, from an entry function other than
    the sink. *)
Definition callerFrames (σ : Store) (vuln : VulnPtr) (res : Result)
    (sink : FuncPtr) (n : nat) : Prop :=
  ∃ e f m, n = S m ∧ e ∈ entriesOf res ∧ e ≠ sink ∧ calls σ e f
           ∧ climb σ (skipSymbolsOf σ vuln res) sink m f.

Definition least (P : nat → Prop) (n : nat) : Prop :=
  P n ∧ ∀ m, P m → n ≤ m.

(** The state after [n] turns of the loop. *)
Definition searchTurns (σ : Store) (ord : FuncPtr → RangeOrder)
    (vuln : VulnPtr) (res : Result) (vulnSink : FuncPtr) (n : nat) : state :=
  Nat.iter n (step σ ord (entriesOf res) (skipSymbolsOf σ vuln res))
    (initState vulnSink).

(** A turn that takes the front chain off the queue and does nothing
    else. *)
Definition dropFront (st : state) : state :=
  mkState (tail (queue st)) (seen st) (candidates st) (candDepth st).

(** Vulns [v1] and [v2] of the result are two Vulns of one database entry
    and one import sink. *)
Definition siblings (σ : Store) (res : Result) (v1 v2 : VulnPtr) : Prop :=
  v2 ∈ Vulns res ∧ v2 ≠ v1
  ∧ Vuln.OSV (vulnAt σ v2) = Vuln.OSV (vulnAt σ v1)
  ∧ Vuln.ImportSink (vulnAt σ v2) = Vuln.ImportSink (vulnAt σ v1).

(** The count the specification words the weight with: the frames whose
    call site is present and unresolved. *)
Definition unresolved (e : StackEntry) : bool :=
  match Call e with
  | Some cs => negb (CallSite.Resolved cs)
  | None => false
  end.

Definition unresolvedCalls (stack : list StackEntry) : nat :=
  length (filter (λ e, unresolved e = true) stack).

(** The order [callsites] leaves the callers in: two functions that have a
    position come by position and then by display name, and a function
    without a position comes after every function. *)
Definition funcLe (f1 f2 : FuncNode.t) : Prop :=
  match FuncNode.Pos f1, FuncNode.Pos f2 with
  | _, None => True
  | None, Some _ => False
  | Some p1, Some p2 =>
    posLess p1 p2 = true
    ∨ (p1 = p2 ∧ String.ltb (FuncNode.String f2) (FuncNode.String f1) = false)
  end.

(** [funcLess] puts any two different callers among [sites] one way only. *)
Definition orderedCallers (σ : Store) (sites : list CallSite.t) : Prop :=
  ∀ cs1 cs2, cs1 ∈ sites → cs2 ∈ sites →
    CallSite.Parent cs1 ≠ CallSite.Parent cs2 →
    funcLess (funcAt σ (CallSite.Parent cs1)) (funcAt σ (CallSite.Parent cs2))
    ≠ funcLess (funcAt σ (CallSite.Parent cs2)) (funcAt σ (CallSite.Parent cs1)).

(** ** Invariants of the search *)

Definition chain_call (c : callChain) : option CallSite.t :=
  match c with mkChain call _ _ => call end.

(** The number of frames of a chain. *)
Definition depth (c : callChain) : nat := length (chainStack c).

(** All frames but the last. *)
Definition upper (s : CallStack) : CallStack := take (length s - 1) s.

(** [queue.PushBack(nStack)] under its guard. *)
Definition enqueue (skipSymbols : gset nat) (c : callChain)
    (q : list callChain) (cs : CallSite.t) : list callChain :=
  if bool_decide (CallSite.Parent cs ∈ skipSymbols) then q
  else q ++ [mkChain (Some cs) (CallSite.Parent cs) (Some c)].

(** One turn of the first loop of [callsites]. *)
Definition minStep (visited : gset nat) (minCs : gmap nat CallSite.t)
    (cs : CallSite.t) : gmap nat CallSite.t :=
  if bool_decide (CallSite.Parent cs ∈ visited) then minCs
  else if csLess cs (minCs !! CallSite.Parent cs)
       then <[CallSite.Parent cs := cs]> minCs
       else minCs.

(** What holds of every chain on the queue, and of every candidate. *)
Definition good_chain (σ : Store) (K : gset nat) (sink : FuncPtr)
    (c : callChain) : Prop :=
  linked σ sink (chainStack c)
  ∧ Forall (λ e, Function e ∉ K) (upper (chainStack c)).

Definition good_cand (σ : Store) (E K : gset nat) (sink : FuncPtr)
    (d : nat) (s : CallStack) : Prop :=
  linked σ sink s
  ∧ (∃ e s', s = e :: s' ∧ s' ≠ [] ∧ Function e ∈ E ∧ Function e ≠ sink)
  ∧ Forall (λ e, Function e ∉ K) (inner s)
  ∧ length s = d.

Record sound (σ : Store) (E K : gset nat) (sink : FuncPtr) (st : state)
    : Prop := {
  sound_queue : Forall (good_chain σ K sink) (queue st);
  sound_cands : Forall (good_cand σ E K sink (candDepth st)) (candidates st);
  sound_sink : sink ∈ seen st ∨ queue st = [mkChain None sink None]
}.

Arguments sound_queue {σ E K sink st} _.
Arguments sound_cands {σ E K sink st} _.
Arguments sound_sink {σ E K sink st} _.

(** The measure that bounds the turns of the loop: the chains on the queue
    and the call sites of the functions not yet expanded. *)
Definition sitesAt (σ : Store) (p : FuncPtr) : nat :=
  length (FuncNode.CallSites (funcAt σ p)).

Definition pendingIn (σ : Store) (ps : list nat) (seen : gset nat) : nat :=
  sum_list (sitesAt σ <$> filter (λ p, p ∉ seen) ps).

Definition potential (σ : Store) (st : state) : nat :=
  length (queue st) + pendingIn σ (seq 0 (length (funcNodes σ))) (seen st).

(** Candidates have been recorded while the chain [c] was expanded. *)
Definition found (c : callChain) (st : state) : Prop :=
  candidates st ≠ [] ∧ candDepth st = S (depth c).

(** [n] frames lead from an entry function other than the sink, through a
    call, down to the sink ([callerFrames] with the two sets given). *)
Definition reachable (σ : Store) (E K : gset nat) (sink : FuncPtr)
    (n : nat) : Prop :=
  ∃ e f m, n = S m ∧ e ∈ E ∧ e ≠ sink ∧ calls σ e f ∧ climb σ K sink m f.

(** The search before its first candidate, at depth [d]: the queue holds
    chains of [d] frames followed by chains of [d + 1] frames; every
    function fewer than [d] frames away from the sink has been expanded;
    and no entry function other than the sink has been met. *)
Record bfs (σ : Store) (E K : gset nat) (sink : FuncPtr) (d : nat)
    (st : state) : Prop := {
  bfs_cands : candidates st = [];
  bfs_pos : 1 ≤ d;
  bfs_levels : ∃ qa qb, queue st = qa ++ qb
                 ∧ Forall (λ c, depth c = d) qa
                 ∧ Forall (λ c, depth c = S d) qb;
  bfs_chains : ∀ c, c ∈ queue st → climb σ K sink (depth c) (chain_f c);
  bfs_below : ∀ n g, climb σ K sink n g → n < d → g ∈ seen st;
  bfs_level : ∀ g, climb σ K sink d g →
                g ∈ seen st
                ∨ ∃ c, c ∈ queue st ∧ chain_f c = g ∧ depth c = d;
  bfs_closed : ∀ h g, h ∈ seen st → calls σ g h → g ∉ K →
                 g ∈ seen st ∨ ∃ c, c ∈ queue st ∧ chain_f c = g;
  bfs_parents : ∀ h p, h ∈ seen st → calls σ p h → p ∈ E → p = sink;
  bfs_seen : ∀ p, p ∈ seen st → p ∈ E → p = sink;
  bfs_queue : ∀ c, c ∈ queue st → chain_f c ∈ E → chain_f c = sink;
  bfs_sink : sink ∈ seen st ∨ queue st = [mkChain None sink None]
}.

Arguments bfs_levels {σ E K sink d st} _.
Arguments bfs_closed {σ E K sink d st} _.
Arguments bfs_parents {σ E K sink d st} _.
Arguments bfs_sink {σ E K sink d st} _.

(** What holds of the functions of a chain on the queue: no function comes
    twice, and every function below the first has been expanded. *)
Definition fresh_chain (seen : gset nat) (c : callChain) : Prop :=
  NoDup (Function <$> chainStack c)
  ∧ ∀ e, e ∈ drop 1 (chainStack c) → Function e ∈ seen.

Record distinct (st : state) : Prop := {
  distinct_queue : Forall (fresh_chain (seen st)) (queue st);
  distinct_cands : Forall (λ s : CallStack, NoDup (Function <$> s)) (candidates st)
}.

Arguments distinct_queue {st} _.
Arguments distinct_cands {st} _.

(** [cs] is a call site of least position among the call sites of its
    caller in [sites]: it has a position as soon as one of them has, and
    none of them has a position that is less. *)
Definition leastSite (sites : list CallSite.t) (cs : CallSite.t) : Prop :=
  ∀ cs' q, cs' ∈ sites → CallSite.Parent cs' = CallSite.Parent cs →
    CallSite.Pos cs' = Some q →
    ∃ p, CallSite.Pos cs = Some p ∧ posLess q p = false.

(** Every frame but the last holds a call site of least position among the
    calls of the next function in its own function. *)
Fixpoint leastCalls (σ : Store) (s : CallStack) : Prop :=
  match s with
  | e :: s' =>
    match s' with
    | e' :: _ =>
      (∀ cs, Call e = Some cs →
         leastSite (FuncNode.CallSites (funcAt σ (Function e'))) cs)
      ∧ leastCalls σ s'
    | [] => True
    end
  | [] => True
  end.

Record chosen (σ : Store) (st : state) : Prop := {
  chosen_queue : Forall (λ c, leastCalls σ (chainStack c)) (queue st);
  chosen_cands : Forall (leastCalls σ) (candidates st)
}.

Arguments chosen_queue {σ st} _.
Arguments chosen_cands {σ st} _.

(** ** Example programs *)

Definition posAt (line : Z) : option Position.t :=
  Some (Position.mk "main.go"%string line 1%Z).

Definition site (parent : FuncPtr) (name : string) (pos : option Position.t)
    (resolved : bool) : CallSite.t :=
  CallSite.mk parent name ""%string pos resolved.

Definition func (name : string) (pos : option Position.t)
    (sites : list CallSite.t) : FuncNode.t :=
  FuncNode.mk name ""%string "p"%string pos sites.

Definition idOrder : FuncPtr → RangeOrder := λ _ l, l.
Definition revOrder : FuncPtr → RangeOrder := λ _ l, rev l.

(** entry (0) calls a (1), a calls b (2), b calls sink (3). *)
Module Chain4.
Definition cs_a := site 0 "a" (posAt 2) true.
Definition cs_b := site 1 "b" (posAt 12) true.
Definition cs_sink := site 2 "sink" (posAt 22) true.
Definition σ : Store :=
  mkStore [func "entry" (posAt 1) []; func "a" (posAt 11) [cs_a];
           func "b" (posAt 21) [cs_b]; func "sink" (posAt 31) [cs_sink]]
          [Vuln.mk 0 (Some 3) (Some 0)].
Definition res : Result := mkResult [0] [0].
End Chain4.

(** The chain above with any functions and call sites: [e] is called by
    nobody, [a] by [e] at [ca], [b] by [a] at [cb], [s] by [b] at [cs]. *)
Definition chainStore (e a b s : FuncNode.t) (v : Vuln.t) : Store :=
  mkStore [e; a; b; s] [v].

(** main (0) calls sink (1); both are entry functions. *)
Module EntrySink.
Definition cs_sink := site 0 "sink" (posAt 2) true.
Definition σ : Store :=
  mkStore [func "main" (posAt 1) []; func "sink" (posAt 11) [cs_sink]]
          [Vuln.mk 0 (Some 1) (Some 0)].
Definition res : Result := mkResult [0; 1] [0].
End EntrySink.

(** The sink (0) is an entry function and nobody calls it. *)
Module LoneSink.
Definition σ : Store :=
  mkStore [func "sink" (posAt 1) []] [Vuln.mk 0 (Some 0) (Some 0)].
Definition res : Result := mkResult [0] [0].
End LoneSink.

(** Two entry functions without a position, b (0) and a (1), call
    sink (2). *)
Module TwoCallers.
Definition cs_b := site 0 "sink" None true.
Definition cs_a := site 1 "sink" None true.
Definition f_b := func "b" None [].
Definition f_a := func "a" None [].
Definition σ : Store :=
  mkStore [f_b; f_a; func "sink" (posAt 5) [cs_b; cs_a]]
          [Vuln.mk 0 (Some 2) (Some 0)].
Definition res : Result := mkResult [0; 1] [0].
End TwoCallers.

(** entry (0) is alone; helper (1) calls sink (2). *)
Module Isolated.
Definition cs_sink := site 1 "sink" (posAt 12) true.
Definition σ : Store :=
  mkStore [func "entry" (posAt 1) []; func "helper" (posAt 11) [];
           func "sink" (posAt 21) [cs_sink]]
          [Vuln.mk 0 (Some 2) (Some 0)].
Definition res : Result := mkResult [0] [0].
End Isolated.

(** entry (0) calls sinkA (1), sinkA calls sinkB (2); Vulns 0 and 1 are of
    one database entry and one import sink. *)
Module Siblings.
Definition cs_a := site 0 "sinkA" (posAt 2) true.
Definition cs_b := site 1 "sinkB" (posAt 12) true.
Definition σ : Store :=
  mkStore [func "entry" (posAt 1) []; func "sinkA" (posAt 11) [cs_a];
           func "sinkB" (posAt 21) [cs_b]]
          [Vuln.mk 7 (Some 1) (Some 0); Vuln.mk 7 (Some 2) (Some 0)].
Definition res : Result := mkResult [0] [0; 1].
End Siblings.

(** Two paths of two frames: entry (0) calls sink (2) through an interface,
    main (1) calls it directly. *)
Module Dynamic.
Definition cs_dyn := site 0 "sink" (posAt 2) false.
Definition cs_static := site 1 "sink" (posAt 12) true.
Definition σ : Store :=
  mkStore [func "entry" (posAt 1) []; func "main" (posAt 11) [];
           func "sink" (posAt 21) [cs_dyn; cs_static]]
          [Vuln.mk 0 (Some 2) (Some 0)].
Definition res : Result := mkResult [0; 1] [0].
End Dynamic.

(** main (0) calls sink (1) at two places; the later place comes first in
    the list of call sites. *)
Module Repeated.
Definition cs_late := site 0 "sink" (posAt 7) true.
Definition cs_early := site 0 "sink" (posAt 3) true.
Definition σ : Store :=
  mkStore [func "main" (posAt 1) []; func "sink" (posAt 11) [cs_late; cs_early]]
          [Vuln.mk 0 (Some 1) (Some 0)].
Definition res : Result := mkResult [0] [0].
End Repeated.

(** main (0) calls a (1), a calls x (2) and y (3), and both call sink (4):
    two chains at a are put on the queue before a is expanded. *)
Module Diamond.
Definition cs_a := site 0 "a" (posAt 2) true.
Definition cs_x := site 1 "x" (posAt 12) true.
Definition cs_y := site 1 "y" (posAt 13) true.
Definition cs_sink_x := site 2 "sink" (posAt 22) true.
Definition cs_sink_y := site 3 "sink" (posAt 32) true.
Definition σ : Store :=
  mkStore [func "main" (posAt 1) []; func "a" (posAt 11) [cs_a];
           func "x" (posAt 21) [cs_x]; func "y" (posAt 31) [cs_y];
           func "sink" (posAt 41) [cs_sink_x; cs_sink_y]]
          [Vuln.mk 0 (Some 4) (Some 0)].
Definition res : Result := mkResult [0] [0].
End Diamond.

(** * Proofs *)

(** ** [sort.SliceStable] permutes its slice *)

Section SortPerm.
Context {A : Type} (less : A → A → bool).

Lemma sinkLeft_perm x l : sinkLeft less x l ≡ₚ x :: l.
Proof.
  induction l as [|y l IH]; simpl; [done|].
  destruct (less x y); [|done].
  rewrite IH. apply Permutation_swap.
Qed.

Lemma insertionSort_perm data : insertionSort less data ≡ₚ data.
Proof.
  unfold insertionSort.
  assert (H : ∀ acc, fold_left (λ left x, sinkLeft less x left) data acc
                    ≡ₚ data ++ acc).
  { induction data as [|x data IH]; intros acc; simpl; [done|].
    rewrite IH, sinkLeft_perm. by rewrite Permutation_middle. }
  rewrite <- Permutation_rev. by rewrite H, app_nil_r.
Qed.

Lemma bsearch_bounds fuel p i j :
  i ≤ j → i ≤ bsearch fuel p i j ≤ j.
Proof.
  revert i j. induction fuel as [|fuel IH]; intros i j Hij; cbn [bsearch]; [lia|].
  destruct (Nat.ltb_spec i j) as [Hlt|]; [|lia].
  assert (Hh : i ≤ (i + j) `div` 2 < j).
  { split; [apply Nat.div_le_lower_bound; lia
           |apply Nat.Div0.div_lt_upper_bound; lia]. }
  set (h := (i + j) `div` 2) in *.
  destruct (p h).
  - pose proof (IH (h + 1) j ltac:(lia)). lia.
  - pose proof (IH i h ltac:(lia)). lia.
Qed.

Lemma swap_blocks (p q s : list A) x y :
  swap (p ++ x :: q ++ y :: s) (length p) (length p + S (length q))
  = p ++ y :: q ++ x :: s.
Proof.
  unfold swap.
  rewrite (lookup_app_r p) by lia. rewrite Nat.sub_diag. cbn [lookup list_lookup].
  rewrite (lookup_app_r p) by lia.
  replace (length p + S (length q) - length p) with (S (length q)) by lia.
  cbn [lookup list_lookup]. rewrite (lookup_app_r q) by lia.
  rewrite Nat.sub_diag. cbn [lookup list_lookup].
  rewrite (insert_app_r_alt p) by lia. rewrite Nat.sub_diag. cbn [insert list_insert].
  rewrite (insert_app_r_alt p) by lia.
  replace (length p + S (length q) - length p) with (S (length q)) by lia.
  cbn [insert list_insert]. rewrite (insert_app_r_alt q) by lia.
  rewrite Nat.sub_diag. done.
Qed.

Lemma swap_perm (data : list A) i j : swap data i j ≡ₚ data.
Proof.
  unfold swap. destruct (data !! i) as [x|] eqn:Hi; [|done].
  destruct (data !! j) as [y|] eqn:Hj; [|done].
  destruct (decide (i = j)) as [->|Hne].
  { simplify_eq. rewrite list_insert_insert_eq. by rewrite list_insert_id. }
  assert (Hlt : ∀ i j x y (data : list A), i < j → data !! i = Some x →
            data !! j = Some y → <[j := x]> (<[i := y]> data) ≡ₚ data).
  { clear. intros i j x y data Hij Hi Hj.
    pose proof (take_drop_middle data i x Hi) as Hd.
    assert (Hj' : drop (S i) data !! (j - S i) = Some y).
    { rewrite lookup_drop. by replace (S i + (j - S i)) with j by lia. }
    pose proof (take_drop_middle _ _ _ Hj') as Hd'.
    set (p := take i data) in *. set (r := drop (S i) data) in *.
    set (q := take (j - S i) r) in *. set (s := drop (S (j - S i)) r) in *.
    assert (Hp : length p = i) by (apply length_take_le; apply lookup_lt_Some in Hi; lia).
    assert (Hq : length q = j - S i).
    { apply length_take_le. apply lookup_lt_Some in Hj'. lia. }
    rewrite <- Hd, <- Hd'.
    pose proof (swap_blocks p q s x y) as Hs. unfold swap in Hs.
    rewrite (lookup_app_r p) in Hs by lia. rewrite Nat.sub_diag in Hs.
    cbn [lookup list_lookup] in Hs.
    rewrite (lookup_app_r p) in Hs by lia.
    replace (length p + S (length q) - length p) with (S (length q)) in Hs by lia.
    cbn [lookup list_lookup] in Hs. rewrite (lookup_app_r q) in Hs by lia.
    rewrite Nat.sub_diag in Hs. cbn [lookup list_lookup] in Hs.
    rewrite Hp, Hq in Hs. replace (i + S (j - S i)) with j in Hs by lia.
    rewrite Hs. apply Permutation_app_head.
    rewrite <- !Permutation_middle. apply Permutation_swap. }
  destruct (decide (i < j)) as [?|?].
  - by apply Hlt.
  - rewrite list_insert_insert_ne by done. apply Hlt; [lia|done..].
Qed.

Lemma swapRange_perm (data : list A) a b n : swapRange data a b n ≡ₚ data.
Proof.
  revert data a b. induction n as [|n IH]; intros data a b; cbn; [done|].
  by rewrite IH, swap_perm.
Qed.

Lemma rotateLoop_perm fuel (data : list A) m i j :
  rotateLoop fuel data m i j ≡ₚ data.
Proof.
  revert data i j. induction fuel as [|fuel IH]; intros data i j; cbn; [done|].
  repeat case_match; by rewrite ?IH, swapRange_perm.
Qed.

Lemma rotate_perm (data : list A) a m b : rotate data a m b ≡ₚ data.
Proof. apply rotateLoop_perm. Qed.

Lemma swapRange_blocks n (p x q y s : list A) :
  length x = n → length y = n →
  swapRange (p ++ x ++ q ++ y ++ s) (length p) (length p + n + length q) n
  = p ++ y ++ q ++ x ++ s.
Proof.
  revert p x q y. induction n as [|n IH]; intros p x q y Hx Hy.
  { apply nil_length_inv in Hx, Hy. by subst. }
  destruct x as [|x0 x]; [done|]. destruct y as [|y0 y]; [done|].
  cbn in Hx, Hy. cbn [swapRange].
  replace (p ++ (x0 :: x) ++ q ++ (y0 :: y) ++ s)
    with (p ++ x0 :: (x ++ q) ++ y0 :: (y ++ s))
    by (by rewrite <- !(assoc_L (++))).
  replace (length p + S n + length q)
    with (length p + S (length (x ++ q))) by (rewrite length_app; lia).
  rewrite swap_blocks.
  replace (p ++ y0 :: (x ++ q) ++ x0 :: y ++ s)
    with ((p ++ [y0]) ++ x ++ (q ++ [x0]) ++ y ++ s)
    by (by rewrite <- !(assoc_L (++))).
  replace (S (length p)) with (length (p ++ [y0]))
    by (rewrite length_app; cbn; lia).
  replace (S (length (p ++ [y0]) - 1 + S (length (x ++ q))))
    with (length (p ++ [y0]) + n + length (q ++ [x0])).
  2: { rewrite !length_app. cbn. lia. }
  replace (S (length p + S (length (x ++ q))))
    with (length (p ++ [y0]) + n + length (q ++ [x0]))
    by (rewrite !length_app; cbn; lia).
  rewrite IH by lia. by rewrite <- !(assoc_L (++)).
Qed.

Lemma rotateLoop_blocks fuel (p u v s : list A) :
  0 < length u → 0 < length v → length u + length v ≤ S fuel →
  rotateLoop fuel (p ++ u ++ v ++ s) (length p + length u) (length u) (length v)
  = p ++ v ++ u ++ s.
Proof.
  revert p u v s. induction fuel as [|fuel IH]; intros p u v s Hu Hv Hf; [lia|].
  cbn [rotateLoop].
  replace (length p + length u - length u) with (length p) by lia.
  destruct (Nat.eqb_spec (length u) (length v)) as [Heq|Hne].
  { pose proof (swapRange_blocks (length u) p u [] v s eq_refl (eq_sym Heq)) as H.
    cbn in H. by rewrite Nat.add_0_r in H. }
  destruct (Nat.ltb_spec (length v) (length u)) as [Hlt|Hge].
  - (* the left block is longer: its head changes places with [v] *)
    set (j := length v).
    pose proof (take_drop j u) as Hsplit.
    set (u1 := take j u) in *. set (u2 := drop j u) in *.
    assert (Hu1 : length u1 = j) by (apply length_take_le; lia).
    assert (Hu2 : length u2 = length u - j) by apply length_drop.
    pose proof (swapRange_blocks j p u1 u2 v s Hu1 eq_refl) as H.
    replace (p ++ u ++ v ++ s) with (p ++ u1 ++ u2 ++ v ++ s)
      by (by rewrite <- Hsplit, <- !(assoc_L (++))).
    replace (length p + length u) with (length p + j + length u2) by lia.
    rewrite H.
    pose proof (IH (p ++ v) u2 u1 s ltac:(lia) ltac:(lia) ltac:(lia)) as H'.
    rewrite length_app in H'. fold j in H'. rewrite Hu1 in H'.
    replace (length u - j) with (length u2) by lia.
    rewrite <- !(assoc_L (++)) in H'.
    replace (length p + j + length u2) with (length p + j + length u2) by done.
    rewrite H'. by rewrite <- Hsplit, <- !(assoc_L (++)).
  - (* the right block is longer: [u] changes places with its tail *)
    set (i := length u).
    pose proof (take_drop (length v - i) v) as Hsplit.
    set (v1 := take (length v - i) v) in *. set (v2 := drop (length v - i) v) in *.
    assert (Hv1 : length v1 = length v - i) by (apply length_take_le; lia).
    assert (Hv2 : length v2 = i) by (unfold v2; rewrite length_drop; lia).
    pose proof (swapRange_blocks i p u v1 v2 s eq_refl Hv2) as H.
    replace (p ++ u ++ v ++ s) with (p ++ u ++ v1 ++ v2 ++ s)
      by (by rewrite <- Hsplit, <- !(assoc_L (++))).
    replace (length p + i + length v - i) with (length p + i + length v1) by lia.
    rewrite H.
    pose proof (IH p v2 v1 (u ++ s) ltac:(lia) ltac:(lia) ltac:(lia)) as H'.
    rewrite Hv2 in H'. replace (length v - i) with (length v1) by lia.
    rewrite H'. by rewrite <- Hsplit, <- !(assoc_L (++)).
Qed.

Lemma rotate_blocks (data : list A) a m b :
  a < m → m < b → b ≤ length data →
  rotate data a m b
  = take a data ++ take (b - m) (drop m data) ++ take (m - a) (drop a data)
      ++ drop b data.
Proof.
  intros Ha Hb Hl. unfold rotate.
  set (p := take a data). set (u := take (m - a) (drop a data)).
  set (v := take (b - m) (drop m data)). set (s := drop b data).
  assert (Hp : length p = a) by (apply length_take_le; lia).
  assert (Hu : length u = m - a).
  { apply length_take_le. rewrite length_drop. lia. }
  assert (Hv : length v = b - m).
  { apply length_take_le. rewrite length_drop. lia. }
  assert (Hd : data = p ++ u ++ v ++ s).
  { unfold p, u, v, s.
    assert (E1 : take (m - a) (drop a data) ++ drop m data = drop a data).
    { etrans; [|apply (take_drop (m - a))]. f_equal.
      rewrite drop_drop. f_equal. lia. }
    assert (E2 : take (b - m) (drop m data) ++ drop b data = drop m data).
    { etrans; [|apply (take_drop (b - m))]. f_equal.
      rewrite drop_drop. f_equal. lia. }
    by rewrite E2, E1, take_drop. }
  rewrite Hd at 1.
  replace m with (length p + length u) at 1 by lia.
  rewrite <- Hu, <- Hv. apply rotateLoop_blocks; lia.
Qed.


Lemma take_mid_drop (l : list A) i j :
  i ≤ j → take i l ++ take (j - i) (drop i l) ++ drop j l = l.
Proof.
  intros Hij.
  assert (E : take (j - i) (drop i l) ++ drop j l = drop i l).
  { etrans; [|apply (take_drop (j - i))]. f_equal.
    rewrite drop_drop. f_equal. lia. }
  by rewrite E, take_drop.
Qed.

Lemma symMerge_perm fuel u v : symMerge less fuel u v ≡ₚ u ++ v.
Proof.
  revert u v. induction fuel as [|fuel IH]; intros u v; [done|].
  cbn [symMerge].
  set (data := u ++ v). set (m := length u). set (b := length data).
  assert (Hmb : m ≤ b) by (unfold m, b, data; rewrite length_app; lia).
  destruct (m =? 1) eqn:Hm1.
  { apply Nat.eqb_eq in Hm1.
    pose proof (bsearch_bounds b (λ h, lessAt less data h 0) m b Hmb) as Hi.
    set (i := bsearch _ _ _ _) in *.
    rewrite (Permutation_app_swap_app (take (i - 1) _)).
    by rewrite (take_mid_drop data 1 i) by lia. }
  destruct (b - m =? 1) eqn:Hv1.
  { pose proof (bsearch_bounds b (λ h, negb (lessAt less data m h)) 0 m
                  ltac:(lia)) as Hi.
    set (i := bsearch _ _ _ _) in *.
    rewrite (Permutation_app_comm (drop m data)).
    by rewrite (take_mid_drop data i m) by lia. }
  set (mid := b `div` 2). set (n := mid + m).
  assert (Hmid : mid ≤ b) by (apply Nat.Div0.div_le_upper_bound; lia).
  destruct (mid <? m) eqn:Hmm;
    [apply Nat.ltb_lt in Hmm|apply Nat.ltb_ge in Hmm].
  all: match goal with |- context [bsearch ?k ?p ?i ?j] =>
         pose proof (bsearch_bounds k p i j ltac:(lia)) as Hs;
         set (start := bsearch k p i j) in * end.
  all: set (end_ := n - start).
  all: match goal with |- context [if ?c then rotate _ _ _ _ else _] =>
         set (data1 := if c then rotate data start m end_ else data) end.
  all: assert (H1 : data1 ≡ₚ data)
         by (unfold data1; case_match; [apply rotate_perm|done]).
  all: match goal with |- context [if ?c then ?x ++ drop ?k ?d else _] =>
         set (data2 := if c then x ++ drop k d else d) end.
  all: assert (H2 : data2 ≡ₚ data)
         by (unfold data2; case_match; [|done];
             rewrite IH, <- (assoc_L (++)), (take_mid_drop data1 start mid)
               by lia; done).
  all: case_match; [|done].
  all: rewrite IH.
  all: by rewrite (take_mid_drop data2 mid end_) by lia.
Qed.

Lemma sortBlocks_perm fuel blockSize data :
  concat (sortBlocks less fuel blockSize data) ≡ₚ data.
Proof.
  revert data. induction fuel as [|fuel IH]; intros data; cbn [sortBlocks].
  - cbn. by rewrite app_nil_r, insertionSort_perm.
  - case_match.
    + cbn [concat]. by rewrite IH, insertionSort_perm, take_drop.
    + cbn. by rewrite app_nil_r, insertionSort_perm.
Qed.

Lemma mergePass_perm blocks :
  concat (mergePass less blocks) ≡ₚ concat blocks.
Proof.
  induction blocks as [blocks IH] using (induction_ltof1 _ length).
  unfold ltof in IH.
  destruct blocks as [|u [|v rest]]; [done..|].
  cbn [mergePass concat]. rewrite IH by (cbn; lia).
  rewrite (assoc_L (++)). apply Permutation_app_tail.
  case_match; [done|apply symMerge_perm].
Qed.

Lemma mergeBlocks_perm fuel blocks :
  mergeBlocks less fuel blocks ≡ₚ concat blocks.
Proof.
  revert blocks. induction fuel as [|fuel IH]; intros blocks; [done|].
  cbn [mergeBlocks]. destruct blocks as [|u [|v rest]]; [done| |].
  - cbn. by rewrite app_nil_r.
  - by rewrite IH, mergePass_perm.
Qed.

Lemma SliceStable_perm data : SliceStable less data ≡ₚ data.
Proof.
  unfold SliceStable, stable. by rewrite mergeBlocks_perm, sortBlocks_perm.
Qed.

Lemma SliceStable_elem_of x data : x ∈ SliceStable less data ↔ x ∈ data.
Proof. by rewrite SliceStable_perm. Qed.

Lemma SliceStable_length data : length (SliceStable less data) = length data.
Proof. by rewrite SliceStable_perm. Qed.
End SortPerm.

(** ** [sort.SliceStable] with a [less] that decides a preorder

    The slice comes out sorted by a preorder [le] whenever [less x y] implies
    [le x y] and its failure implies [le y x]; [less] may answer true both
    ways. *)

Lemma bsearch_spec fuel (p : nat → bool) i0 j0 :
  j0 - i0 ≤ fuel → i0 ≤ j0 →
  let s := bsearch fuel p i0 j0 in
  (s = i0 ∨ p (s - 1) = true) ∧ (s = j0 ∨ p s = false).
Proof.
  intros Hfuel Hij.
  assert (H : ∀ fuel i j, j - i ≤ fuel → i ≤ j →
    (i = i0 ∨ p (i - 1) = true) → (j = j0 ∨ p j = false) →
    (bsearch fuel p i j = i0 ∨ p (bsearch fuel p i j - 1) = true)
    ∧ (bsearch fuel p i j = j0 ∨ p (bsearch fuel p i j) = false)).
  { clear. induction fuel as [|fuel IH]; intros i j Hf Hij Hi Hj;
      cbn [bsearch].
    - assert (i = j) as -> by lia. done.
    - destruct (Nat.ltb_spec i j) as [Hlt|Hge].
      + assert (Hh : i ≤ (i + j) `div` 2 < j).
        { split; [apply Nat.div_le_lower_bound; lia
                 |apply Nat.Div0.div_lt_upper_bound; lia]. }
        set (h := (i + j) `div` 2) in *.
        destruct (p h) eqn:Hp.
        * apply IH; [lia|lia| |done]. right.
          by replace (h + 1 - 1) with h by lia.
        * apply IH; [lia|lia|done|]. by right.
      + assert (i = j) as -> by lia. done. }
  apply H; auto.
Qed.

Section Sorted.
Context {A : Type} (le : relation A) (less : A → A → bool).
Context `{!PreOrder le}.
Context (Hless_true : ∀ x y, less x y = true → le x y).
Context (Hless_false : ∀ x y, less x y = false → le y x).

Lemma sorted_lookup l i j x y :
  StronglySorted le l → i ≤ j → l !! i = Some x → l !! j = Some y →
  le x y.
Proof.
  intros Hl. revert i j. induction Hl as [|z l Hl IH Hz]; intros i j Hij Hi Hj.
  { by rewrite lookup_nil in Hi. }
  destruct i as [|i], j as [|j]; cbn in Hi, Hj; simplify_eq; try lia.
  - done.
  - rewrite Forall_forall in Hz. apply Hz. by eapply list_elem_of_lookup_2.
  - apply (IH i j); [lia|done..].
Qed.

Lemma sorted_take l n : StronglySorted le l → StronglySorted le (take n l).
Proof.
  intros Hl. rewrite <- (take_drop n l) in Hl.
  by apply StronglySorted_app_1_l in Hl.
Qed.

Lemma sorted_drop l n : StronglySorted le l → StronglySorted le (drop n l).
Proof.
  intros Hl. rewrite <- (take_drop n l) in Hl.
  by apply StronglySorted_app_1_r in Hl.
Qed.

Lemma sorted_rev l :
  StronglySorted (flip le) l → StronglySorted le (rev l).
Proof.
  induction 1 as [|x l Hl IH Hx]; cbn; [constructor|].
  apply StronglySorted_app_2; [|done|repeat constructor].
  intros y z Hy ->%list_elem_of_singleton.
  rewrite Forall_forall in Hx. apply Hx.
  by rewrite <- Permutation_rev in Hy.
Qed.

Lemma sinkLeft_sorted x left :
  StronglySorted (flip le) left →
  StronglySorted (flip le) (sinkLeft less x left).
Proof.
  induction 1 as [|y left Hl IH Hy]; cbn; [repeat constructor|].
  destruct (less x y) eqn:Hxy.
  - constructor; [done|]. rewrite (sinkLeft_perm less x left).
    constructor; [by apply Hless_true|done].
  - apply Hless_false in Hxy.
    constructor; [by constructor|]. constructor; [done|].
    eapply Forall_impl; [exact Hy|]. unfold flip. cbn. intros z Hz.
    by trans y.
Qed.

Lemma insertionSort_sorted data :
  StronglySorted le (insertionSort less data).
Proof.
  unfold insertionSort. apply sorted_rev.
  assert (H : ∀ acc, StronglySorted (flip le) acc →
            StronglySorted (flip le)
              (fold_left (λ left x, sinkLeft less x left) data acc)).
  { induction data as [|x data IH]; intros acc Hacc; cbn; [done|].
    by apply IH, sinkLeft_sorted. }
  apply H. constructor.
Qed.
End Sorted.

Section SymMerge.
Context {A : Type} (less : A → A → bool).

Local Abbreviation symStart := (symStart less).

Lemma symStart_bounds u v :
  let m := length u in
  let b := m + length v in
  let mid := b `div` 2 in
  let start := symStart u v in
  start ≤ m ∧ start ≤ mid ∧ mid - start ≤ length v ∧ mid ≤ b
  ∧ (if mid <? m then mid + m - b else 0) ≤ start.
Proof.
  intros m b mid start. unfold start, symStart.
  rewrite length_app. fold m. fold b. fold mid.
  assert (Hmid : mid ≤ b) by (apply Nat.Div0.div_le_upper_bound; lia).
  assert (Hmid2 : 2 * mid ≤ b) by (apply Nat.Div0.mul_div_le).
  destruct (Nat.ltb_spec mid m) as [Hmm|Hmm].
  - match goal with |- context [bsearch ?k ?p ?i ?j] =>
      pose proof (bsearch_bounds k p i j ltac:(lia)) end. lia.
  - match goal with |- context [bsearch ?k ?p ?i ?j] =>
      pose proof (bsearch_bounds k p i j ltac:(lia)) end. lia.
Qed.

Lemma symMerge_length fuel u v :
  length (symMerge less fuel u v) = length u + length v.
Proof. by rewrite symMerge_perm, length_app. Qed.

Lemma symMerge_general fuel u v :
  length u ≠ 1 → length v ≠ 1 →
  let m := length u in
  let b := m + length v in
  let mid := b `div` 2 in
  let start := symStart u v in
  let k := mid - start in
  symMerge less (S fuel) u v
  = (if (0 <? start) && (start <? mid)
     then symMerge less fuel (take start u) (take k v)
     else take start u ++ take k v)
    ++ (if (mid <? m + k) && (m + k <? b)
        then symMerge less fuel (drop start u) (drop k v)
        else drop start u ++ drop k v).
Proof.
  intros Hu Hv m b mid start k.
  destruct (symStart_bounds u v) as (Hsm & Hsmid & Hk & Hmid & _).
  fold m b mid start k in Hsm, Hsmid, Hk, Hmid.
  cbn [symMerge]. rewrite length_app. fold m. fold b.
  rewrite (proj2 (Nat.eqb_neq m 1)) by done.
  rewrite (proj2 (Nat.eqb_neq (b - m) 1)) by (unfold b; lia).
  fold mid.
  assert (Hstart : (let '(start0, r) :=
               if mid <? m then (mid + m - b, mid) else (0, m) in
             bsearch b (λ c, negb (lessAt less (u ++ v) (mid + m - 1 - c) c))
               start0 r) = start).
  { unfold start, symStart. rewrite length_app. done. }
  destruct (mid <? m); rewrite Hstart; clear Hstart.
  all: replace (mid + m - start) with (m + k) by lia.
  all: set (A1 := take start u); set (A2 := drop start u).
  all: set (B1 := take k v); set (B2 := drop k v).
  all: assert (HA1 : length A1 = start) by (apply length_take_le; lia).
  all: assert (HB1 : length B1 = k) by (apply length_take_le; lia).
  all: assert (HA2 : length A2 = m - start) by apply length_drop.
  all: assert (Hdata1 :
         (if (start <? m) && (m <? m + k)
          then rotate (u ++ v) start m (m + k) else u ++ v)
         = A1 ++ B1 ++ A2 ++ B2).
  1,3: destruct ((start <? m) && (m <? m + k)) eqn:Hg.
  1,3: apply andb_true_iff in Hg as [Hg1%Nat.ltb_lt Hg2%Nat.ltb_lt];
       rewrite rotate_blocks by (rewrite ?length_app; lia);
       rewrite (take_app_le u v start) by lia;
       rewrite (drop_app_length' u v m) by done;
       rewrite (drop_app_le u v start) by lia; 
       rewrite (take_app_length' (drop start u) v (m - start)) by done;
       rewrite (drop_app_add' u v m k) by done;
       replace (m + k - m) with k by lia; done.
  1,2: apply andb_false_iff in Hg as [Hg|Hg]; apply Nat.ltb_ge in Hg.
  1,3: assert (start = m) as Hsm' by lia;
       unfold A1, A2; rewrite Hsm';
       rewrite take_ge, drop_ge by done; cbn;
       unfold B1, B2; by rewrite take_drop.
  1,2: assert (k = 0) as Hk0 by lia;
       unfold B1, B2; rewrite Hk0, take_0, drop_0; cbn;
       unfold A1, A2; by rewrite (assoc_L (++)), take_drop.
  all: rewrite Hdata1; clear Hdata1.
  all: rewrite (take_app_length' A1 _ start) by done.
  all: rewrite (drop_app_length' A1 _ start) by done.
  all: rewrite (take_app_length' B1 _ (mid - start)) by done.
  all: replace (A1 ++ B1 ++ A2 ++ B2) with ((A1 ++ B1) ++ A2 ++ B2)
         by (by rewrite <- (assoc_L (++))).
  all: rewrite (drop_app_length' (A1 ++ B1) _ mid)
         by (rewrite length_app; lia).
  all: set (L := if (0 <? start) && (start <? mid)
                 then symMerge less fuel A1 B1 else A1 ++ B1).
  all: assert (HL : length L = mid)
         by (unfold L; case_match;
             rewrite ?symMerge_length, ?length_app; lia).
  all: assert (Hdata2 :
         (if (0 <? start) && (start <? mid)
          then symMerge less fuel A1 B1 ++ A2 ++ B2
          else (A1 ++ B1) ++ A2 ++ B2) = L ++ A2 ++ B2)
         by (unfold L; by case_match).
  all: rewrite Hdata2; clear Hdata2.
  all: rewrite (take_app_length' L _ mid) by done.
  all: rewrite (drop_app_length' L _ mid) by done.
  all: rewrite (take_app_length' A2 _ (m + k - mid)) by lia.
  all: replace (m + k) with (mid + (m - start)) at 3 by lia.
  all: rewrite (drop_app_add' L _ mid) by done.
  all: rewrite (drop_app_length' A2 _ (m - start)) by done.
  all: by case_match.
Qed.
End SymMerge.

Section MergeOne.
Context {A : Type} (le : relation A) (less : A → A → bool).
Context `{!PreOrder le}.
Context (Hless_true : ∀ x y, less x y = true → le x y).
Context (Hless_false : ∀ x y, less x y = false → le y x).

Local Abbreviation sorted := (StronglySorted le).

Lemma lessAt_true data i j :
  lessAt less data i j = true →
  ∃ x y, data !! i = Some x ∧ data !! j = Some y ∧ le x y.
Proof.
  unfold lessAt. destruct (data !! i) as [x|], (data !! j) as [y|]; try done.
  intros ?%Hless_true. eauto.
Qed.

Lemma lessAt_false data i j x y :
  lessAt less data i j = false → data !! i = Some x → data !! j = Some y →
  le y x.
Proof.
  unfold lessAt. intros H Hi Hj. rewrite Hi, Hj in H.
  by apply Hless_false.
Qed.

Lemma elem_of_take_lookup (l : list A) n x :
  x ∈ take n l → ∃ i, i < n ∧ l !! i = Some x.
Proof.
  intros [i Hi]%list_elem_of_lookup.
  apply lookup_take_Some in Hi as [? ?]. eauto.
Qed.

Lemma elem_of_drop_lookup (l : list A) n x :
  x ∈ drop n l → ∃ i, n ≤ i ∧ l !! i = Some x.
Proof.
  intros [i Hi]%list_elem_of_lookup. rewrite lookup_drop in Hi.
  exists (n + i). split; [lia|done].
Qed.

Lemma sorted_insert l x j :
  sorted l →
  (∀ i y, i < j → l !! i = Some y → le y x) →
  (∀ i y, j ≤ i → l !! i = Some y → le x y) →
  sorted (take j l ++ [x] ++ drop j l).
Proof.
  intros Hl Hlo Hhi. apply StronglySorted_app_2.
  - intros y z (i & Hi & Hy)%elem_of_take_lookup
      [->%list_elem_of_singleton|(i' & Hi' & Hz)%elem_of_drop_lookup]%elem_of_app.
    + by eapply Hlo.
    + apply (sorted_lookup le l i i'); [done|lia|done..].
  - by apply sorted_take.
  - apply (StronglySorted_app_2 _ [x]); [|repeat constructor|by apply sorted_drop].
    intros y z ->%list_elem_of_singleton (i' & Hi' & Hz)%elem_of_drop_lookup.
    by eapply Hhi.
Qed.

Lemma symMerge_one_l fuel x v :
  sorted v → sorted (symMerge less (S fuel) [x] v).
Proof.
  intros Hv. cbn [symMerge]. cbn [length app Nat.eqb].
  set (b := S (length v)).
  set (p := λ h, lessAt less (x :: v) h 0).
  pose proof (bsearch_bounds b p 1 b ltac:(lia)) as Hi.
  pose proof (bsearch_spec b p 1 b ltac:(lia) ltac:(lia)) as [Hlo Hhi].
  set (i := bsearch b p 1 b) in *.
  replace (drop i (x :: v)) with (drop (i - 1) v)
    by (destruct i; [lia|cbn; by rewrite Nat.sub_0_r]).
  cbn [drop take]. rewrite take_0.
  apply sorted_insert; [done| |].
  - intros t y Ht Hy. destruct Hlo as [Hlo|Hlo]; [lia|].
    apply lessAt_true in Hlo as (z & x' & Hz & Hx & Hzx).
    cbn in Hx. simplify_eq.
    replace (i - 1) with (S (i - 2)) in Hz by lia. cbn in Hz.
    trans z; [|done].
    apply (sorted_lookup le v t (i - 2) y z Hv ltac:(lia) Hy Hz).
  - intros t y Ht Hy. pose proof (lookup_lt_Some _ _ _ Hy) as Htv.
    destruct Hhi as [Hhi|Hhi]; [lia|].
    destruct (lookup_lt_is_Some_2 v (i - 1)) as [z Hz]; [lia|].
    pose proof (lessAt_false (x :: v) i 0 z x Hhi) as Hzx.
    replace i with (S (i - 1)) in Hzx at 1 by lia.
    specialize (Hzx Hz eq_refl).
    trans z; [done|].
    apply (sorted_lookup le v (i - 1) t z y Hv Ht Hz Hy).
Qed.

Lemma symMerge_one_r fuel u y :
  length u ≠ 1 → sorted u → sorted (symMerge less (S fuel) u [y]).
Proof.
  intros Hu1 Hu. cbn [symMerge]. rewrite length_app. cbn [length].
  rewrite (proj2 (Nat.eqb_neq (length u) 1)) by done.
  replace (length u + 1 - length u =? 1) with true
    by (symmetry; apply Nat.eqb_eq; lia).
  set (m := length u). set (b := m + 1).
  set (p := λ h, negb (lessAt less (u ++ [y]) m h)).
  pose proof (bsearch_bounds b p 0 m ltac:(lia)) as Hi.
  pose proof (bsearch_spec b p 0 m ltac:(lia) ltac:(lia)) as [Hlo Hhi].
  set (i := bsearch b p 0 m) in *.
  rewrite (take_app_le u [y] i) by lia.
  rewrite (drop_app_length' u [y] m) by done.
  rewrite (drop_app_le u [y] i) by lia.
  rewrite (take_app_length' (drop i u) [y] (m - i))
    by (by rewrite length_drop).
  assert (Hy : (u ++ [y]) !! m = Some y).
  { rewrite lookup_app_r by done. by replace (m - length u) with 0 by (unfold m; lia). }
  apply sorted_insert; [done| |].
  - intros t z Ht Hz. destruct Hlo as [Hlo|Hlo]; [lia|].
    apply negb_true_iff in Hlo.
    destruct (lookup_lt_is_Some_2 u (i - 1)) as [w Hw]; [unfold m in *; lia|].
    pose proof (lessAt_false (u ++ [y]) m (i - 1) y w Hlo Hy
                  (lookup_app_l_Some _ _ _ _ Hw)) as Hwy.
    trans w; [|done].
    apply (sorted_lookup le u t (i - 1) z w Hu ltac:(lia) Hz Hw).
  - intros t z Ht Hz. pose proof (lookup_lt_Some _ _ _ Hz) as Htu.
    destruct Hhi as [Hhi|Hhi]; [unfold m in *; lia|].
    apply negb_false_iff, lessAt_true in Hhi as (y' & w & Hy' & Hw & Hyw).
    simplify_eq.
    rewrite lookup_app_l in Hw by (unfold m in *; lia).
    trans w; [done|].
    apply (sorted_lookup le u i t w z Hu Ht Hw Hz).
Qed.
End MergeOne.

Section MergeSorted.
Context {A : Type} (le : relation A) (less : A → A → bool).
Context `{!PreOrder le}.
Context (Hless_true : ∀ x y, less x y = true → le x y).
Context (Hless_false : ∀ x y, less x y = false → le y x).

Local Abbreviation sorted := (StronglySorted le).

Lemma symStart_cross u v x y :
  sorted u → sorted v →
  let start := symStart less u v in
  let k := (length u + length v) `div` 2 - start in
  x ∈ take start u ++ take k v → y ∈ drop start u ++ drop k v →
  le x y.
Proof.
  intros Hu Hv start k.
  destruct (symStart_bounds less u v) as (Hsm & Hsmid & Hk & Hmid & Hs0).
  fold start in Hsm, Hsmid, Hk, Hs0. fold k in Hk.
  set (m := length u) in *. set (b := m + length v) in *.
  set (mid := b `div` 2) in *.
  assert (Hmid2 : 2 * mid ≤ b) by (apply Nat.Div0.mul_div_le).
  set (p := λ c, negb (lessAt less (u ++ v) (mid + m - 1 - c) c)).
  assert (Hspec :
    (start = (if mid <? m then mid + m - b else 0) ∨ p (start - 1) = true)
    ∧ (start = (if mid <? m then mid else m) ∨ p start = false)).
  { unfold start, symStart. rewrite length_app. fold m b mid. fold p.
    destruct (mid <? m) eqn:Hmm;
      [apply Nat.ltb_lt in Hmm|apply Nat.ltb_ge in Hmm];
      apply bsearch_spec; lia. }
  destruct Hspec as [Hlo Hhi].
  intros [(i & Hi & Hx)%elem_of_take_lookup
         |(i & Hi & Hx)%elem_of_take_lookup]%elem_of_app
         [(j & Hj & Hy)%elem_of_drop_lookup
         |(j & Hj & Hy)%elem_of_drop_lookup]%elem_of_app.
  - apply (sorted_lookup le u i j); [done|lia|done..].
  - pose proof (lookup_lt_Some _ _ _ Hy) as Hjv.
    destruct Hlo as [Hlo|Hlo].
    { destruct (Nat.ltb_spec mid m); lia. }
    apply negb_true_iff in Hlo.
    destruct (lookup_lt_is_Some_2 v k) as [z Hz]; [lia|].
    destruct (lookup_lt_is_Some_2 u (start - 1)) as [w Hw];
      [fold m; lia|].
    pose proof (lessAt_false le less Hless_false (u ++ v)
                  (mid + m - 1 - (start - 1)) (start - 1) z w Hlo) as Hwz.
    rewrite lookup_app_r in Hwz by (fold m; lia).
    replace (mid + m - 1 - (start - 1) - length u) with k in Hwz
      by (unfold k; fold m; lia).
    specialize (Hwz Hz (lookup_app_l_Some _ _ _ _ Hw)).
    trans w; [apply (sorted_lookup le u i (start - 1) x w Hu ltac:(lia) Hx Hw)|].
    trans z; [done|]. apply (sorted_lookup le v k j z y Hv Hj Hz Hy).
  - pose proof (lookup_lt_Some _ _ _ Hy) as Hju. fold m in Hju.
    destruct Hhi as [Hhi|Hhi].
    { destruct (Nat.ltb_spec mid m); lia. }
    apply negb_false_iff, (lessAt_true le less Hless_true) in Hhi
      as (z & w & Hz & Hw & Hzw).
    rewrite lookup_app_r in Hz by (fold m; lia).
    replace (mid + m - 1 - start - length u) with (k - 1) in Hz
      by (unfold k; fold m; lia).
    rewrite lookup_app_l in Hw by (fold m; lia).
    trans z; [apply (sorted_lookup le v i (k - 1) x z Hv ltac:(lia) Hx Hz)|].
    trans w; [done|]. apply (sorted_lookup le u start j w y Hu Hj Hw Hy).
  - apply (sorted_lookup le v i j); [done|lia|done..].
Qed.

Lemma sorted_app_nil_cases (l1 l2 : list A) :
  sorted l1 → sorted l2 → l1 = [] ∨ l2 = [] → sorted (l1 ++ l2).
Proof. intros ? ? [->| ->]; by rewrite ?app_nil_r. Qed.

Lemma symMerge_sorted fuel u v :
  sorted u → sorted v → length u + length v ≤ fuel →
  sorted (symMerge less fuel u v).
Proof.
  revert u v. induction fuel as [|fuel IH]; intros u v Hu Hv Hf.
  { destruct u, v; cbn in Hf; try lia. constructor. }
  destruct (decide (length u = 1)) as [Hu1|Hu1].
  { destruct u as [|x [|? ?]]; try done. by apply symMerge_one_l. }
  destruct (decide (length v = 1)) as [Hv1|Hv1].
  { destruct v as [|y [|? ?]]; try done. by apply symMerge_one_r. }
  rewrite symMerge_general by done.
  destruct (symStart_bounds less u v) as (Hsm & Hsmid & Hk & Hmid & Hs0).
  pose proof (symStart_cross u v) as Hcross.
  set (start := symStart less u v) in *.
  set (m := length u) in *. set (b := m + length v) in *.
  set (mid := b `div` 2) in *. set (k := mid - start) in *.
  assert (Hmid2 : 2 * mid ≤ b) by (apply Nat.Div0.mul_div_le).
  assert (Hmid3 : b < 2 * mid + 2).
  { pose proof (Nat.div_mod_eq b 2).
    pose proof (Nat.mod_upper_bound b 2 ltac:(done)). fold mid in H. lia. }
  assert (HA1 : length (take start u) = start) by (apply length_take_le; lia).
  assert (HB1 : length (take k v) = k) by (apply length_take_le; lia).
  apply StronglySorted_app_2.
  - intros x y Hx Hy. apply Hcross; [done|done| |].
    + destruct (_ && _) in Hx; [|done]. by rewrite symMerge_perm in Hx.
    + destruct (_ && _) in Hy; [|done]. by rewrite symMerge_perm in Hy.
  - destruct (_ && _) eqn:Hg.
    + apply IH; [by apply sorted_take..|]. lia.
    + apply sorted_app_nil_cases; [by apply sorted_take..|].
      apply andb_false_iff in Hg as [Hg|Hg]; apply Nat.ltb_ge in Hg.
      * left. replace start with 0 by lia. apply take_0.
      * right. replace k with 0 by lia. apply take_0.
  - destruct (_ && _) eqn:Hg.
    + apply andb_true_iff in Hg as [Hg1%Nat.ltb_lt Hg2%Nat.ltb_lt].
      apply IH; [by apply sorted_drop..|]. rewrite !length_drop.
      fold m. unfold b in *. lia.
    + apply sorted_app_nil_cases; [by apply sorted_drop..|].
      apply andb_false_iff in Hg as [Hg|Hg]; apply Nat.ltb_ge in Hg.
      * left. apply drop_ge. fold m. lia.
      * right. apply drop_ge. unfold b in *. lia.
Qed.

Lemma mergePass_sorted blocks :
  Forall sorted blocks → Forall sorted (mergePass less blocks).
Proof.
  induction blocks as [blocks IH] using (induction_ltof1 _ length).
  unfold ltof in IH. intros Hb.
  destruct blocks as [|u [|v rest]]; [exact Hb..|].
  apply Forall_cons in Hb as [Hu [Hv Hrest]%Forall_cons].
  cbn [mergePass]. constructor; [|apply IH; [cbn; lia|done]].
  destruct (length v =? 0) eqn:Hv0.
  - apply Nat.eqb_eq, nil_length_inv in Hv0. by rewrite Hv0, app_nil_r.
  - by apply symMerge_sorted.
Qed.

Lemma mergePass_length blocks :
  2 ≤ length blocks → length (mergePass less blocks) < length blocks.
Proof.
  induction blocks as [blocks IH] using (induction_ltof1 _ length).
  unfold ltof in IH. intros Hl.
  destruct blocks as [|u [|v rest]]; cbn in Hl; try lia.
  cbn [mergePass length].
  destruct (decide (2 ≤ length rest)) as [Hr|Hr].
  - specialize (IH rest ltac:(cbn; lia) Hr). lia.
  - destruct rest as [|w [|? ?]]; cbn in *; lia.
Qed.

Lemma mergeBlocks_sorted fuel blocks :
  Forall sorted blocks → length blocks ≤ fuel →
  sorted (mergeBlocks less fuel blocks).
Proof.
  revert blocks. induction fuel as [|fuel IH]; intros blocks Hb Hf.
  { destruct blocks; cbn in Hf; [constructor|lia]. }
  cbn [mergeBlocks]. destruct blocks as [|u [|v rest]].
  - constructor.
  - by apply Forall_cons in Hb as [Hu _].
  - apply IH; [by apply mergePass_sorted|].
    pose proof (mergePass_length (u :: v :: rest) ltac:(cbn; lia)). lia.
Qed.

Lemma sortBlocks_sorted fuel blockSize data :
  Forall sorted (sortBlocks less fuel blockSize data).
Proof.
  revert data. induction fuel as [|fuel IH]; intros data; cbn [sortBlocks].
  - repeat constructor. by apply insertionSort_sorted.
  - case_match.
    + constructor; [by apply insertionSort_sorted|apply IH].
    + repeat constructor. by apply insertionSort_sorted.
Qed.

Lemma SliceStable_sorted data : sorted (SliceStable less data).
Proof.
  unfold SliceStable, stable.
  apply mergeBlocks_sorted; [apply sortBlocks_sorted|done].
Qed.

Lemma SliceStable_head data x rest y :
  SliceStable less data = x :: rest → y ∈ data → le x y.
Proof.
  intros Heq Hy. pose proof (SliceStable_sorted data) as Hs.
  rewrite <- (SliceStable_elem_of less) in Hy. rewrite Heq in Hs, Hy.
  apply StronglySorted_cons in Hs as [Hx _].
  apply elem_of_cons in Hy as [->|Hy]; [done|].
  rewrite Forall_forall in Hx. by apply Hx.
Qed.
End MergeSorted.

(** A [less] of the form [key x <= key y]. *)
Section ByKey.
Context {A : Type} (key : A → nat) (less : A → A → bool).
Context (Hless : ∀ x y, less x y = (key x <=? key y)).

#[local] Instance byKey_preorder : PreOrder (byKey key).
Proof. split; unfold byKey; [by intros x|intros x y z; lia]. Qed.

Lemma byKey_less_true x y : less x y = true → byKey key x y.
Proof. rewrite Hless. by intros ?%Nat.leb_le. Qed.

Lemma byKey_less_false x y : less x y = false → byKey key y x.
Proof. rewrite Hless. intros ?%Nat.leb_gt. unfold byKey. lia. Qed.

Lemma SliceStable_sorted_byKey data :
  StronglySorted (byKey key) (SliceStable less data).
Proof.
  apply (SliceStable_sorted (byKey key) less byKey_less_true byKey_less_false).
Qed.

(** The first element of the sorted slice has the least key. *)
Lemma SliceStable_head_least data x rest y :
  SliceStable less data = x :: rest → y ∈ data → key x ≤ key y.
Proof.
  apply (SliceStable_head (byKey key) less byKey_less_true byKey_less_false).
Qed.
End ByKey.

(** ** The fuel of the sort plays no part *)

Lemma bsearch_fuel fuel fuel' (p : nat → bool) i j :
  j - i ≤ fuel → j - i ≤ fuel' → bsearch fuel p i j = bsearch fuel' p i j.
Proof.
  revert fuel' i j. induction fuel as [|fuel IH]; intros fuel' i j Hf Hf'.
  - destruct fuel'; cbn [bsearch]; [done|].
    destruct (Nat.ltb_spec i j); [lia|done].
  - cbn [bsearch]. destruct (Nat.ltb_spec i j) as [Hlt|Hge].
    + destruct fuel' as [|fuel']; [lia|]. cbn [bsearch].
      rewrite (proj2 (Nat.ltb_lt i j)) by done.
      assert (Hh : i ≤ (i + j) `div` 2 < j).
      { split; [apply Nat.div_le_lower_bound; lia
               |apply Nat.Div0.div_lt_upper_bound; lia]. }
      set (h := (i + j) `div` 2) in *.
      destruct (p h); apply IH; lia.
    + destruct fuel'; cbn [bsearch]; [done|].
      destruct (Nat.ltb_spec i j); [lia|done].
Qed.

Section SortFuel.
Context {A : Type} (less : A → A → bool).

Lemma symMerge_nil fuel : symMerge less fuel [] [] = [].
Proof. destruct fuel; [done|]. by vm_compute. Qed.

Lemma symMerge_fuel fuel fuel' (u v : list A) :
  length u + length v ≤ fuel → length u + length v ≤ fuel' →
  symMerge less fuel u v = symMerge less fuel' u v.
Proof.
  revert fuel' u v. induction fuel as [|fuel IH]; intros fuel' u v Hf Hf'.
  { destruct u, v; cbn in Hf; try lia. by rewrite !symMerge_nil. }
  destruct fuel' as [|fuel'].
  { destruct u, v; cbn in Hf'; try lia. by rewrite !symMerge_nil. }
  destruct (decide (length u = 1)) as [Hu|Hu].
  { cbn [symMerge]. by rewrite !(proj2 (Nat.eqb_eq (length u) 1)). }
  destruct (decide (length v = 1)) as [Hv|Hv].
  { cbn [symMerge]. rewrite !(proj2 (Nat.eqb_neq (length u) 1)) by done.
    rewrite length_app.
    by rewrite !(proj2 (Nat.eqb_eq (length u + length v - length u) 1)) by lia. }
  rewrite !symMerge_general by done.
  destruct (symStart_bounds less u v) as (Hsm & Hsmid & Hk & Hmid & _).
  set (start := symStart less u v) in *.
  set (m := length u) in *. set (b := m + length v) in *.
  set (mid := b `div` 2) in *. set (k := mid - start) in *.
  assert (Hmid2 : 2 * mid ≤ b) by (apply Nat.Div0.mul_div_le).
  assert (Hmid3 : b < 2 * mid + 2).
  { pose proof (Nat.div_mod_eq b 2).
    pose proof (Nat.mod_upper_bound b 2 ltac:(done)). fold mid in H. lia. }
  assert (HA1 : length (take start u) = start) by (apply length_take_le; lia).
  assert (HB1 : length (take k v) = k) by (apply length_take_le; lia).
  f_equal.
  - destruct (_ && _) eqn:Hg; [|done].
    apply andb_true_iff in Hg as [Hg1%Nat.ltb_lt Hg2%Nat.ltb_lt].
    apply IH; lia.
  - destruct (_ && _) eqn:Hg; [|done].
    apply andb_true_iff in Hg as [Hg1%Nat.ltb_lt Hg2%Nat.ltb_lt].
    apply IH; rewrite !length_drop; fold m; unfold b in *; lia.
Qed.

Lemma mergeBlocks_fuel fuel fuel' (blocks : list (list A)) :
  length blocks ≤ fuel → length blocks ≤ fuel' →
  mergeBlocks less fuel blocks = mergeBlocks less fuel' blocks.
Proof.
  revert fuel' blocks. induction fuel as [|fuel IH]; intros fuel' blocks Hf Hf'.
  { destruct blocks; cbn in Hf; [|lia]. by destruct fuel'. }
  destruct fuel' as [|fuel'].
  { destruct blocks; cbn in Hf'; [done|lia]. }
  cbn [mergeBlocks]. destruct blocks as [|u [|v rest]]; [done..|].
  pose proof (mergePass_length less (u :: v :: rest) ltac:(cbn; lia)).
  apply IH; lia.
Qed.

Lemma sortBlocks_fuel fuel fuel' blockSize (data : list A) :
  0 < blockSize → length data ≤ fuel → length data ≤ fuel' →
  sortBlocks less fuel blockSize data = sortBlocks less fuel' blockSize data.
Proof.
  intros Hb. revert fuel' data.
  induction fuel as [|fuel IH]; intros fuel' data Hf Hf'.
  { destruct data; cbn in Hf; [|lia]. destruct fuel'; cbn [sortBlocks]; [done|].
    destruct (Nat.leb_spec blockSize (length (@nil A))); [cbn in *; lia|done]. }
  destruct fuel' as [|fuel'].
  { destruct data; cbn in Hf'; [|lia]. cbn [sortBlocks].
    destruct (Nat.leb_spec blockSize (length (@nil A))); [cbn in *; lia|done]. }
  cbn [sortBlocks]. destruct (Nat.leb_spec blockSize (length data)); [|done].
  f_equal. apply IH; rewrite length_drop; lia.
Qed.
End SortFuel.

(** ** [callsites] *)

Lemma omap_length_le {A B} (f : A → option B) (l : list A) :
  length (omap f l) ≤ length l.
Proof. induction l as [|x l IH]; cbn; [done|]. destruct (f x); cbn; lia. Qed.

Section Callsites.
Context (σ : Store).
Implicit Types (sites : list CallSite.t) (visited : gset nat).

Lemma minCallSites_fold sites visited :
  minCallSites sites visited = fold_left (minStep visited) sites ∅.
Proof. done. Qed.

Lemma minFold_sound sites visited m0 p cs :
  fold_left (minStep visited) sites m0 !! p = Some cs →
  m0 !! p = Some cs ∨
  (cs ∈ sites ∧ CallSite.Parent cs = p ∧ p ∉ visited).
Proof.
  revert m0. induction sites as [|cs0 sites IH]; intros m0; cbn; [auto|].
  intros [H|(?&?&?)]%IH; [|set_solver].
  unfold minStep in H. case_bool_decide as Hv; [auto|].
  destruct (csLess _ _); [|auto].
  destruct (decide (CallSite.Parent cs0 = p)) as [<-|Hne].
  - rewrite lookup_insert_eq in H. simplify_eq. set_solver.
  - rewrite lookup_insert_ne in H by done. auto.
Qed.

Lemma minCallSites_sound sites visited p cs :
  minCallSites sites visited !! p = Some cs →
  cs ∈ sites ∧ CallSite.Parent cs = p ∧ p ∉ visited.
Proof.
  rewrite minCallSites_fold. intros [H|H]%minFold_sound; [|done].
  by rewrite lookup_empty in H.
Qed.

Lemma minFold_keep sites visited m0 p :
  is_Some (m0 !! p) → is_Some (fold_left (minStep visited) sites m0 !! p).
Proof.
  revert m0. induction sites as [|cs0 sites IH]; intros m0 H; cbn; [done|].
  apply IH. unfold minStep. repeat case_match; try done.
  rewrite lookup_insert. destruct (decide _); [by eexists|done].
Qed.

Lemma minFold_complete sites visited m0 cs :
  cs ∈ sites → CallSite.Parent cs ∉ visited →
  is_Some (fold_left (minStep visited) sites m0 !! CallSite.Parent cs).
Proof.
  revert m0. induction sites as [|cs0 sites IH]; intros m0 Hin Hv.
  { by apply elem_of_nil in Hin. }
  apply elem_of_cons in Hin as [->|Hin]; cbn; [|by apply IH].
  apply minFold_keep. unfold minStep.
  rewrite bool_decide_eq_false_2 by done.
  destruct (m0 !! CallSite.Parent cs0) as [cs1|] eqn:E.
  - destruct (csLess _ _); [|by rewrite E].
    rewrite lookup_insert_eq. by eexists.
  - cbn. rewrite lookup_insert_eq. by eexists.
Qed.

Lemma minFold_size sites visited m0 :
  size (fold_left (minStep visited) sites m0) ≤ size m0 + length sites.
Proof.
  revert m0. induction sites as [|cs0 sites IH]; intros m0; cbn; [lia|].
  etrans; [apply IH|].
  assert (size (minStep visited m0 cs0) ≤ S (size m0)); [|lia].
  unfold minStep. repeat case_match; try lia.
  destruct (m0 !! CallSite.Parent cs0) eqn:E.
  - rewrite map_size_insert_Some by done. lia.
  - rewrite map_size_insert_None by done. lia.
Qed.

Lemma callsites_sound range sites visited cs :
  cs ∈ callsites σ range sites visited →
  cs ∈ sites ∧ CallSite.Parent cs ∉ visited.
Proof.
  unfold callsites. intros (p & _ & H)%list_elem_of_omap.
  apply minCallSites_sound in H as (? & <- & ?). done.
Qed.

Lemma callsites_parent range sites visited cs :
  cs ∈ callsites σ range sites visited →
  minCallSites sites visited !! CallSite.Parent cs = Some cs.
Proof.
  unfold callsites. intros (p & _ & H)%list_elem_of_omap.
  pose proof (minCallSites_sound _ _ _ _ H) as (_ & <- & _). done.
Qed.

Section Perm.
Context (range : RangeOrder) (Hrange : ∀ l, range l ≡ₚ l).

Lemma callsites_complete sites visited cs :
  cs ∈ sites → CallSite.Parent cs ∉ visited →
  ∃ cs', cs' ∈ callsites σ range sites visited
         ∧ CallSite.Parent cs' = CallSite.Parent cs.
Proof.
  intros Hin Hv.
  destruct (minFold_complete sites visited ∅ cs Hin Hv) as [cs' Hcs'].
  rewrite <- minCallSites_fold in Hcs'.
  exists cs'. split.
  - unfold callsites. apply list_elem_of_omap.
    exists (CallSite.Parent cs). split; [|done].
    rewrite SliceStable_elem_of, Hrange.
    apply list_elem_of_fmap. exists cs'. split.
    + by apply minCallSites_sound in Hcs' as (_ & -> & _).
    + apply list_elem_of_fmap. exists (CallSite.Parent cs, cs').
      split; [done|]. by apply elem_of_map_to_list.
  - by apply minCallSites_sound in Hcs' as (_ & -> & _).
Qed.

Lemma callsites_length sites visited :
  length (callsites σ range sites visited) ≤ length sites.
Proof.
  unfold callsites. etrans; [apply omap_length_le|].
  rewrite SliceStable_length, length_fmap, Hrange, length_fmap.
  rewrite length_map_to_list, minCallSites_fold.
  etrans; [apply minFold_size|]. rewrite map_size_empty. lia.
Qed.
End Perm.
End Callsites.

(** ** What the search keeps true of its queue and its candidates *)

Lemma chainStack_head c :
  ∃ s, chainStack c = mkEntry (chain_f c) (chain_call c) :: s.
Proof. destruct c as [call f child]. cbn. eauto. Qed.

Lemma chainStack_length c : 1 ≤ length (chainStack c).
Proof. destruct (chainStack_head c) as [s ->]. cbn. lia. Qed.

Lemma upper_cons e s : s ≠ [] → upper (e :: s) = e :: upper s.
Proof.
  unfold upper. destruct s as [|e' s]; [done|]. intros _. cbn.
  by rewrite Nat.sub_0_r.
Qed.

Lemma inner_cons e s : s ≠ [] → inner (e :: s) = upper s.
Proof.
  intros Hs. unfold inner. fold (upper (e :: s)). by rewrite upper_cons.
Qed.

Lemma loop_iter σ ord E K fuel st :
  loop σ ord E K fuel st = Nat.iter fuel (step σ ord E K) st.
Proof.
  revert st. induction fuel as [|fuel IH]; intros st; [done|].
  rewrite Nat.iter_succ_r. cbn [loop]. rewrite <- IH.
  destruct (queue st) eqn:Hq; [|done].
  assert (Hst : step σ ord E K st = st) by (unfold step; by rewrite Hq).
  rewrite Hst. destruct fuel; cbn; by rewrite ?Hq.
Qed.

Section Sound.
Context (σ : Store) (ord : FuncPtr → RangeOrder).
Context (E K : gset nat) (sink : FuncPtr).

Local Abbreviation good_chain := (good_chain σ K sink).
Local Abbreviation good_cand := (good_cand σ E K sink).
Local Abbreviation sound := (sound σ E K sink).
Local Abbreviation enqueue := (enqueue K).

Lemma sound_init : sound (initState sink).
Proof.
  split; cbn; [|done|by right].
  repeat constructor.
Qed.

Lemma good_chain_push c cs :
  good_chain c → cs ∈ FuncNode.CallSites (funcAt σ (chain_f c)) →
  CallSite.Parent cs ∉ K →
  good_chain (mkChain (Some cs) (CallSite.Parent cs) (Some c)).
Proof.
  intros [Hl Hu] Hcs HK. unfold good_chain. cbn [chainStack].
  destruct (chainStack_head c) as [s Hs]. rewrite Hs in *. split.
  - by apply linked_call.
  - rewrite upper_cons by done. by constructor.
Qed.

Lemma good_cand_push c cs :
  good_chain c → cs ∈ FuncNode.CallSites (funcAt σ (chain_f c)) →
  CallSite.Parent cs ∈ E → CallSite.Parent cs ≠ sink →
  good_cand (S (length (chainStack c)))
    (mkEntry (CallSite.Parent cs) (Some cs) :: chainStack c).
Proof.
  intros [Hl Hu] Hcs HE Hne.
  destruct (chainStack_head c) as [s Hs]. rewrite Hs in *.
  split; [by apply linked_call|]. split; [by eexists _, _|].
  split; [by rewrite inner_cons|done].
Qed.

Lemma visit_other c st cs :
  CallSite.Parent cs ∉ E →
  visit E K c st cs
  = mkState (enqueue c (queue st) cs) (seen st) (candidates st) (candDepth st).
Proof. intros HE. unfold visit. by rewrite (bool_decide_eq_false_2 _ HE). Qed.

Lemma visit_entry c st cs :
  CallSite.Parent cs ∈ E →
  visit E K c st cs
  = if (length (candidates st) =? 0)
       || (S (length (chainStack c)) =? candDepth st)
    then mkState (enqueue c (queue st) cs) (seen st)
           (candidates st
              ++ [mkEntry (CallSite.Parent cs) (Some cs) :: chainStack c])
           (S (length (chainStack c)))
    else mkState [] (seen st) (candidates st) (candDepth st).
Proof. intros HE. unfold visit. by rewrite (bool_decide_eq_true_2 _ HE). Qed.

Lemma visit_seen c st cs : seen (visit E K c st cs) = seen st.
Proof.
  destruct (decide (CallSite.Parent cs ∈ E)).
  - rewrite visit_entry by done. by case_match.
  - by rewrite visit_other.
Qed.

Lemma enqueue_good c q cs :
  Forall good_chain q → good_chain c →
  cs ∈ FuncNode.CallSites (funcAt σ (chain_f c)) →
  Forall good_chain (enqueue c q cs).
Proof.
  intros Hq Hc Hcs. unfold enqueue. case_bool_decide; [done|].
  apply Forall_app. split; [done|].
  constructor; [|done]. by apply good_chain_push.
Qed.

Lemma visit_sound c st cs :
  sound st → sink ∈ seen st → good_chain c →
  cs ∈ FuncNode.CallSites (funcAt σ (chain_f c)) →
  CallSite.Parent cs ≠ sink →
  sound (visit E K c st cs).
Proof.
  intros [Hq Hc _] Hs Hgc Hcs Hne.
  pose proof (enqueue_good c _ cs Hq Hgc Hcs) as Hq1.
  destruct (decide (CallSite.Parent cs ∈ E)) as [HE|HE].
  - rewrite visit_entry by done. destruct (_ || _) eqn:Hcond.
    + split; cbn [queue candidates candDepth seen]; [done| |by left].
      apply Forall_app. split.
      * apply orb_true_iff in Hcond as [Hnil|Hd].
        -- apply Nat.eqb_eq, nil_length_inv in Hnil. rewrite Hnil.
           constructor.
        -- apply Nat.eqb_eq in Hd. by rewrite Hd.
      * constructor; [|done]. by apply good_cand_push.
    + split; cbn [queue candidates candDepth seen];
        [constructor|done|by left].
  - rewrite visit_other by done.
    split; cbn [queue candidates candDepth seen]; [done|done|by left].
Qed.

Lemma fold_visit_seen c css st :
  seen (fold_left (visit E K c) css st) = seen st.
Proof.
  revert st. induction css as [|cs css IH]; intros st; cbn; [done|].
  by rewrite IH, visit_seen.
Qed.

Lemma fold_visit_sound c css st :
  sound st → sink ∈ seen st → good_chain c →
  (∀ cs, cs ∈ css →
     cs ∈ FuncNode.CallSites (funcAt σ (chain_f c))
     ∧ CallSite.Parent cs ≠ sink) →
  sound (fold_left (visit E K c) css st).
Proof.
  revert st. induction css as [|cs css IH]; intros st Hst Hs Hc Hcss; [done|].
  cbn. apply IH; [|by rewrite visit_seen|done|].
  - apply visit_sound; [done..| |]; apply Hcss; by left.
  - intros cs' Hcs'. apply Hcss. by right.
Qed.

Lemma step_sound st : sound st → sound (step σ ord E K st).
Proof.
  intros Hst. unfold step. destruct (queue st) as [|c rest] eqn:Hq; [done|].
  pose proof (sound_queue Hst) as Hqs. rewrite Hq in Hqs.
  apply Forall_cons in Hqs as [Hc Hrest].
  case_bool_decide as Hseen.
  - split; cbn; [done|by apply Hst|left].
    destruct (sound_sink Hst) as [?|Heq]; [done|].
    rewrite Hq in Heq. by simplify_eq.
  - assert (Hsink : sink ∈ ({[chain_f c]} ∪ seen st : gset nat)).
    { destruct (sound_sink Hst) as [?|Heq]; [set_solver|].
      rewrite Hq in Heq. simplify_eq. set_solver. }
    apply fold_visit_sound; [|done|done|].
    + split; cbn; [done|by apply Hst|by left].
    + intros cs [? Hcs]%callsites_sound. split; [done|].
      intros Heq. by rewrite Heq in Hcs.
Qed.

Lemma iter_sound n st : sound st → sound (Nat.iter n (step σ ord E K) st).
Proof. intros Hst. induction n as [|n IH]; [done|]. by apply step_sound. Qed.

Lemma loop_sound fuel : sound (loop σ ord E K fuel (initState sink)).
Proof. rewrite loop_iter. apply iter_sound, sound_init. Qed.
End Sound.

(** ** From a candidate to the call graph *)

Section Linked.
Context (σ : Store) (sink : FuncPtr).

Lemma linked_last s : linked σ sink s → last s = Some (mkEntry sink None).
Proof. induction 1 as [|cs e s _ IH _]; [done|]. by rewrite last_cons, IH. Qed.

Lemma linked_step s i e e' :
  linked σ sink s → s !! i = Some e → s !! S i = Some e' →
  ∃ cs, Call e = Some cs ∧ CallSite.Parent cs = Function e
        ∧ cs ∈ FuncNode.CallSites (funcAt σ (Function e')).
Proof.
  intros Hl. revert i. induction Hl as [|cs e0 s Hl IH Hcs]; intros i Hi Hi'.
  - by destruct i.
  - destruct i as [|i]; cbn in Hi, Hi'.
    + simplify_eq. cbn. eauto.
    + by apply (IH i).
Qed.

Lemma linked_rtc e s : linked σ sink (e :: s) → rtc (calls σ) (Function e) sink.
Proof.
  remember (e :: s) as s0 eqn:Hs0. intros Hl. revert e s Hs0.
  induction Hl as [|cs e0 s0 Hl IH Hcs]; intros e s ?; simplify_eq; cbn.
  - done.
  - eapply rtc_l; [|by eapply IH]. by exists cs.
Qed.

Lemma linked_tc e s :
  linked σ sink (e :: s) → s ≠ [] → tc (calls σ) (Function e) sink.
Proof.
  inversion 1 as [|cs e0 s0 Hl Hcs]; simplify_eq; [done|]. intros _. cbn.
  eapply tc_rtc_r; [|by eapply linked_rtc]. apply tc_once. by exists cs.
Qed.

Lemma linked_single e : linked σ sink [e] → e = mkEntry sink None.
Proof. by inversion 1. Qed.
End Linked.

Lemma elem_of_entriesOf res e : e ∈ entriesOf res ↔ e ∈ EntryFunctions res.
Proof. unfold entriesOf. by rewrite elem_of_list_to_set. Qed.

Lemma elem_of_skipSymbolsOf σ v1 res f :
  f ∈ skipSymbolsOf σ v1 res ↔
  ∃ v2, siblings σ res v1 v2 ∧ Vuln.CallSink (vulnAt σ v2) = Some f.
Proof.
  unfold skipSymbolsOf, siblings.
  set (g := λ (skip : gset nat) v, _).
  assert (H : ∀ vs (s0 : gset nat),
    f ∈ fold_left g vs s0 ↔
    f ∈ s0 ∨ ∃ v2, (v2 ∈ vs ∧ v2 ≠ v1
       ∧ Vuln.OSV (vulnAt σ v2) = Vuln.OSV (vulnAt σ v1)
       ∧ Vuln.ImportSink (vulnAt σ v2) = Vuln.ImportSink (vulnAt σ v1))
       ∧ Vuln.CallSink (vulnAt σ v2) = Some f).
  { induction vs as [|v vs IH]; intros s0; cbn [fold_left].
    { split; [auto|]. intros [?|(v2 & (Hin & _) & _)]; [done|].
      by apply elem_of_nil in Hin. }
    rewrite IH. unfold g at 1.
    split.
    - intros [Hf|(v2 & (Hin & ?) & ?)].
      + destruct (Vuln.CallSink (vulnAt σ v)) as [s|] eqn:Hs; [|auto].
        destruct (_ && _) eqn:Hc; [|auto].
        apply elem_of_union in Hf as [->%elem_of_singleton|]; [|auto].
        apply andb_true_iff in Hc as [[H1 H2]%andb_true_iff H3].
        apply bool_decide_eq_true in H1, H2, H3.
        right. exists v. split; [|done]. split; [by left|done].
      + right. exists v2. split; [|done]. split; [by right|done].
    - intros [Hf|(v2 & (Hin & Hne & Ho & Hi) & Hs)].
      + left. repeat case_match; try done. by apply elem_of_union_r.
      + apply elem_of_cons in Hin as [->|Hin].
        * left. rewrite Hs.
          rewrite !bool_decide_eq_true_2 by done. cbn.
          apply elem_of_union_l. by apply elem_of_singleton.
        * right. exists v2. done. }
  rewrite H. split; [intros [?|?]; [set_solver|done]|auto].
Qed.

Section Result.
Context (σ : Store) (ord : FuncPtr → RangeOrder).
Context (vuln : VulnPtr) (res : Result).

Lemma callStack_nil_sink :
  Vuln.CallSink (vulnAt σ vuln) = None → callStack σ ord vuln res = [].
Proof. unfold callStack. by intros ->. Qed.

Lemma callStack_cases sink :
  Vuln.CallSink (vulnAt σ vuln) = Some sink →
  (callStack σ ord vuln res = []
   ∧ candidates (search σ ord vuln res sink) = [])
  ∨ callStack σ ord vuln res ∈ candidates (search σ ord vuln res sink).
Proof.
  unfold callStack. intros ->.
  pose proof (SliceStable_perm weightLess
                (candidates (search σ ord vuln res sink))) as Hp.
  destruct (SliceStable _ _) as [|s l].
  - left. split; [done|]. by apply Permutation_nil_l in Hp.
  - right. rewrite <- Hp. by left.
Qed.

Lemma callStack_good sink :
  Vuln.CallSink (vulnAt σ vuln) = Some sink →
  callStack σ ord vuln res ≠ [] →
  good_cand σ (entriesOf res) (skipSymbolsOf σ vuln res) sink
    (candDepth (search σ ord vuln res sink)) (callStack σ ord vuln res).
Proof.
  intros Hs Hne. destruct (callStack_cases sink Hs) as [[? _]|Hin]; [done|].
  pose proof (loop_sound σ ord (entriesOf res) (skipSymbolsOf σ vuln res)
                sink (searchFuel σ)) as [_ Hc _].
  rewrite Forall_forall in Hc. by apply Hc.
Qed.

Lemma callStack_sink :
  callStack σ ord vuln res ≠ [] →
  ∃ sink, Vuln.CallSink (vulnAt σ vuln) = Some sink.
Proof.
  intros Hne. destruct (Vuln.CallSink (vulnAt σ vuln)) eqn:Hs; [eauto|].
  by rewrite callStack_nil_sink in Hne.
Qed.

Lemma callStack_reached sink :
  Vuln.CallSink (vulnAt σ vuln) = Some sink →
  callStack σ ord vuln res ≠ [] →
  ∃ e, e ∈ EntryFunctions res ∧ e ≠ sink ∧ tc (calls σ) e sink.
Proof.
  intros Hs Hne.
  destruct (callStack_good sink Hs Hne)
    as (Hl & (e & s' & Heq & Hs' & HE & Hns) & _).
  exists (Function e). rewrite <- elem_of_entriesOf.
  split; [done|]. split; [done|].
  rewrite Heq in Hl. by eapply linked_tc.
Qed.
End Result.

(** ** The turns of the loop *)

Section Turns.
Context (σ : Store) (ord : FuncPtr → RangeOrder) (E K : gset nat).

Lemma step_seen st : seen st ⊆ seen (step σ ord E K st).
Proof.
  unfold step. destruct (queue st) as [|c rest]; [done|].
  case_bool_decide; [done|]. rewrite fold_visit_seen. cbn. set_solver.
Qed.

Lemma iter_seen i j st :
  i ≤ j →
  seen (Nat.iter i (step σ ord E K) st) ⊆ seen (Nat.iter j (step σ ord E K) st).
Proof.
  induction 1 as [|j _ IH]; [done|]. etrans; [apply IH|]. apply step_seen.
Qed.

End Turns.

(** ** What one turn does to the state *)

Section Once.
Context (σ : Store) (ord : FuncPtr → RangeOrder) (E K : gset nat).

Lemma step_drop st c rest :
  queue st = c :: rest → chain_f c ∈ seen st →
  step σ ord E K st = dropFront st.
Proof.
  intros Hq Hseen. unfold step, dropFront. rewrite Hq.
  by rewrite bool_decide_eq_true_2.
Qed.

Lemma step_front_seen st c rest :
  queue st = c :: rest → chain_f c ∈ seen (step σ ord E K st).
Proof.
  intros Hq. unfold step. rewrite Hq. case_bool_decide; [done|].
  rewrite fold_visit_seen. cbn. apply elem_of_union_l. by apply elem_of_singleton.
Qed.

Lemma visit_queue_elem c st cs c' :
  c' ∈ queue (visit E K c st cs) →
  c' ∈ queue st ∨ c' = mkChain (Some cs) (CallSite.Parent cs) (Some c).
Proof.
  assert (Henq : c' ∈ enqueue K c (queue st) cs →
            c' ∈ queue st ∨ c' = mkChain (Some cs) (CallSite.Parent cs) (Some c)).
  { unfold enqueue. case_bool_decide; [by left|].
    intros [?|?%list_elem_of_singleton]%elem_of_app; [by left|by right]. }
  destruct (decide (CallSite.Parent cs ∈ E)).
  - rewrite visit_entry by done. destruct (_ || _); cbn [queue]; [done|].
    by intros ?%elem_of_nil.
  - by rewrite visit_other.
Qed.

Lemma visit_cands_elem c st cs s :
  s ∈ candidates (visit E K c st cs) →
  s ∈ candidates st
  ∨ s = mkEntry (CallSite.Parent cs) (Some cs) :: chainStack c.
Proof.
  destruct (decide (CallSite.Parent cs ∈ E)).
  - rewrite visit_entry by done. destruct (_ || _); cbn [candidates]; [|by left].
    intros [?|?%list_elem_of_singleton]%elem_of_app; [by left|by right].
  - rewrite visit_other by done. by left.
Qed.

Lemma fold_visit_queue_elem c css st c' :
  c' ∈ queue (fold_left (visit E K c) css st) →
  c' ∈ queue st
  ∨ ∃ cs, cs ∈ css ∧ c' = mkChain (Some cs) (CallSite.Parent cs) (Some c).
Proof.
  revert st. induction css as [|cs css IH]; intros st; cbn; [by left|].
  intros [[?| ->]%visit_queue_elem|(cs' & ? & ->)]%IH.
  - by left.
  - right. exists cs. split; [by left|done].
  - right. exists cs'. split; [by right|done].
Qed.

Lemma fold_visit_cands_elem c css st s :
  s ∈ candidates (fold_left (visit E K c) css st) →
  s ∈ candidates st
  ∨ ∃ cs, cs ∈ css ∧ s = mkEntry (CallSite.Parent cs) (Some cs) :: chainStack c.
Proof.
  revert st. induction css as [|cs css IH]; intros st; cbn; [by left|].
  intros [[?| ->]%visit_cands_elem|(cs' & ? & ->)]%IH.
  - by left.
  - right. exists cs. split; [by left|done].
  - right. exists cs'. split; [by right|done].
Qed.

Lemma step_expand st c rest :
  queue st = c :: rest → chain_f c ∉ seen st →
  seen (step σ ord E K st) = {[chain_f c]} ∪ seen st
  ∧ (∀ c', c' ∈ queue (step σ ord E K st) →
       c' ∈ rest
       ∨ ∃ cs, c' = mkChain (Some cs) (CallSite.Parent cs) (Some c)
               ∧ cs ∈ FuncNode.CallSites (funcAt σ (chain_f c))
               ∧ CallSite.Parent cs ∉ {[chain_f c]} ∪ seen st)
  ∧ (∀ s, s ∈ candidates (step σ ord E K st) →
       s ∈ candidates st
       ∨ ∃ cs, s = mkEntry (CallSite.Parent cs) (Some cs) :: chainStack c
               ∧ cs ∈ FuncNode.CallSites (funcAt σ (chain_f c))
               ∧ CallSite.Parent cs ∉ {[chain_f c]} ∪ seen st).
Proof.
  intros Hq Hseen. unfold step. rewrite Hq.
  rewrite bool_decide_eq_false_2 by done.
  split; [by rewrite fold_visit_seen|]. split.
  - intros c' [?|(cs & [? ?]%callsites_sound & ->)]%fold_visit_queue_elem;
      [by left|]. right. by exists cs.
  - intros s [?|(cs & [? ?]%callsites_sound & ->)]%fold_visit_cands_elem;
      [by left|]. right. by exists cs.
Qed.

Lemma iter_front_seen st i j c rest :
  i < j → queue (Nat.iter i (step σ ord E K) st) = c :: rest →
  chain_f c ∈ seen (Nat.iter j (step σ ord E K) st).
Proof.
  intros Hij Hq. apply (iter_seen σ ord E K (S i) j); [lia|].
  cbn. by eapply step_front_seen.
Qed.
End Once.

Lemma filter_all {A} (P : A → Prop) `{∀ x, Decision (P x)} (l : list A) :
  (∀ x, P x) → filter P l = l.
Proof.
  intros HP. induction l as [|x l IH]; [done|].
  rewrite filter_cons_True by done. by rewrite IH.
Qed.

(** ** The loop ends within [searchFuel] turns *)
Section Fuel.
Context (σ : Store) (ord : FuncPtr → RangeOrder) (E K : gset nat).
Context (Hord : ∀ f l, ord f l ≡ₚ l).

Local Abbreviation sitesAt := (sitesAt σ).
Local Abbreviation pendingIn := (pendingIn σ).
Local Abbreviation potential := (potential σ).

Lemma pendingIn_mono ps f (seen : gset nat) :
  pendingIn ps ({[f]} ∪ seen) ≤ pendingIn ps seen.
Proof.
  unfold pendingIn. induction ps as [|x ps IH]; [done|].
  rewrite !filter_cons.
  destruct (decide (x ∉ seen)) as [Hx|Hx].
  - destruct (decide (x ∉ {[f]} ∪ seen)); cbn; lia.
  - rewrite decide_False; [done|].
    intros Hn. apply Hx. intros ?. apply Hn. by apply elem_of_union_r.
Qed.

Lemma pendingIn_insert ps f (seen : gset nat) :
  f ∉ seen → (f ∉ ps → sitesAt f = 0) →
  pendingIn ps ({[f]} ∪ seen) + sitesAt f ≤ pendingIn ps seen.
Proof.
  intros Hf. induction ps as [|x ps IH]; intros Hps.
  { rewrite Hps by apply not_elem_of_nil. done. }
  destruct (decide (x = f)) as [->|Hne].
  - pose proof (pendingIn_mono ps f seen). unfold pendingIn in *.
    rewrite !filter_cons.
    rewrite decide_False
      by (intros Hn; apply Hn, elem_of_union_l; by apply elem_of_singleton).
    rewrite decide_True by done. cbn. lia.
  - assert (IH' : pendingIn ps ({[f]} ∪ seen) + sitesAt f ≤ pendingIn ps seen).
    { apply IH. intros ?. apply Hps. by intros [->|?]%elem_of_cons. }
    unfold pendingIn in *. rewrite !filter_cons.
    destruct (decide (x ∉ seen)).
    + rewrite decide_True; [cbn; lia|].
      intros [?%elem_of_singleton|?]%elem_of_union; done.
    + rewrite decide_False; [done|].
      intros Hn. apply n. intros ?. apply Hn. by apply elem_of_union_r.
Qed.

Lemma sitesAt_outside f :
  f ∉ seq 0 (length (funcNodes σ)) → sitesAt f = 0.
Proof.
  rewrite elem_of_seq. intros Hf. unfold sitesAt, funcAt.
  rewrite lookup_ge_None_2 by lia. done.
Qed.

Lemma pendingIn_empty :
  pendingIn (seq 0 (length (funcNodes σ))) ∅
  = sum_list (length ∘ FuncNode.CallSites <$> funcNodes σ).
Proof using Type.
  clear Hord. unfold pendingIn. f_equal.
  rewrite filter_all by set_solver.
  apply list_eq. intros i. rewrite !list_lookup_fmap.
  destruct (funcNodes σ !! i) as [fn|] eqn:Hi.
  - rewrite lookup_seq_lt by (by eapply lookup_lt_Some). cbn.
    unfold sitesAt, funcAt. by rewrite Hi.
  - rewrite lookup_seq_ge; [done|]. by apply lookup_ge_None.
Qed.

Lemma enqueue_length c q cs : length (enqueue K c q cs) ≤ S (length q).
Proof.
  unfold enqueue. case_bool_decide; [lia|]. rewrite length_app. cbn. lia.
Qed.

Lemma visit_queue_length c st cs :
  length (queue (visit E K c st cs)) ≤ S (length (queue st)).
Proof.
  pose proof (enqueue_length c (queue st) cs).
  destruct (decide (CallSite.Parent cs ∈ E)).
  - rewrite visit_entry by done. case_match; cbn; lia.
  - by rewrite visit_other.
Qed.

Lemma fold_visit_queue_length c css st :
  length (queue (fold_left (visit E K c) css st))
  ≤ length (queue st) + length css.
Proof.
  revert st. induction css as [|cs css IH]; intros st; cbn; [lia|].
  etrans; [apply IH|]. pose proof (visit_queue_length c st cs). lia.
Qed.

Lemma step_potential st :
  queue st ≠ [] → potential (step σ ord E K st) < potential st.
Proof.
  unfold step, potential. destruct (queue st) as [|c rest]; [done|].
  intros _. case_bool_decide as Hseen; cbn [queue seen length]; [lia|].
  rewrite fold_visit_seen. cbn [seen].
  pose proof (fold_visit_queue_length c
    (callsites σ (ord (chain_f c))
       (FuncNode.CallSites (funcAt σ (chain_f c))) ({[chain_f c]} ∪ seen st))
    (mkState rest ({[chain_f c]} ∪ seen st) (candidates st) (candDepth st)))
    as Hq.
  pose proof (callsites_length σ (ord (chain_f c)) (Hord _)
    (FuncNode.CallSites (funcAt σ (chain_f c))) ({[chain_f c]} ∪ seen st))
    as Hl.
  pose proof (pendingIn_insert (seq 0 (length (funcNodes σ))) (chain_f c)
                (seen st) Hseen (sitesAt_outside _)) as Hp.
  unfold sitesAt in Hp. cbn [queue] in Hq. lia.
Qed.

Lemma step_empty st : queue st = [] → step σ ord E K st = st.
Proof. intros Hq. unfold step. by rewrite Hq. Qed.

Lemma loop_done fuel st :
  potential st ≤ fuel → queue (loop σ ord E K fuel st) = [].
Proof.
  revert st. induction fuel as [|fuel IH]; intros st Hp; cbn [loop].
  - unfold potential in Hp. destruct (queue st); [done|cbn in Hp; lia].
  - destruct (queue st) as [|c rest] eqn:Hq; [done|].
    apply IH. pose proof (step_potential st). rewrite Hq in *.
    specialize (H ltac:(done)). lia.
Qed.

Lemma loop_more fuel fuel' st :
  potential st ≤ fuel → fuel ≤ fuel' →
  loop σ ord E K fuel' st = loop σ ord E K fuel st.
Proof.
  intros Hp [k ->]%Nat.le_sum. pose proof (loop_done fuel st Hp) as Hd.
  rewrite !loop_iter in *. rewrite Nat.add_comm, Nat.iter_add.
  induction k as [|k IH]; [done|]. rewrite Nat.iter_succ, IH.
  by apply step_empty.
Qed.

Lemma potential_init sink : potential (initState sink) < searchFuel σ.
Proof using Type.
  clear Hord. unfold potential, searchFuel. cbn [initState queue seen length].
  rewrite pendingIn_empty. lia.
Qed.
End Fuel.

Lemma search_done σ ord vuln res sink :
  (∀ f l, ord f l ≡ₚ l) → queue (search σ ord vuln res sink) = [].
Proof.
  intros Hord. apply loop_done; [done|].
  pose proof (potential_init σ sink). lia.
Qed.

(** ** Breadth first: the first candidates are the shortest *)

Lemma least_unique (P : nat → Prop) n n' :
  least P n → least P n' → n = n'.
Proof. intros [H1 H2] [H1' H2']. apply Nat.le_antisymm; auto. Qed.

Section Found.
Context (E K : gset nat) (c : callChain).

Local Abbreviation found := (found c).

Lemma visit_found_keep st cs : found st → found (visit E K c st cs).
Proof.
  intros [Hne Hd]. destruct (decide (CallSite.Parent cs ∈ E)).
  - rewrite visit_entry by done. fold (depth c). rewrite Hd, Nat.eqb_refl, orb_true_r.
    split; cbn; [|done]. by intros [? _]%app_eq_nil.
  - rewrite visit_other by done. done.
Qed.

Lemma visit_found_new st cs :
  candidates st = [] → CallSite.Parent cs ∈ E → found (visit E K c st cs).
Proof.
  intros Hnil HE. rewrite visit_entry by done. rewrite Hnil. cbn.
  split; cbn; [|done]. done.
Qed.

Lemma visit_cands_other st cs :
  CallSite.Parent cs ∉ E →
  candidates (visit E K c st cs) = candidates st.
Proof. intros HE. by rewrite visit_other. Qed.

Lemma fold_visit_found css st :
  candidates st = [] ∨ found st →
  found st ∨ Exists (λ cs, CallSite.Parent cs ∈ E) css →
  found (fold_left (visit E K c) css st).
Proof.
  revert st. induction css as [|cs css IH]; intros st Hst Hex; cbn.
  { destruct Hex as [?|Hex]; [done|]. by apply Exists_nil in Hex. }
  destruct (decide (found st)) as [Hf|Hnf].
  { apply IH; [right|left]; by apply visit_found_keep. }
  destruct Hst as [Hnil|?]; [|done]. destruct Hex as [?|Hex]; [done|].
  destruct (decide (CallSite.Parent cs ∈ E)) as [HE|HE].
  - apply IH; [right|left]; by apply visit_found_new.
  - apply Exists_cons in Hex as [?|Hex]; [done|].
    apply IH; [left|by right]. by rewrite visit_cands_other.
Qed.

Lemma fold_enqueue css q :
  fold_left (enqueue K c) css q
  = q ++ ((λ cs, mkChain (Some cs) (CallSite.Parent cs) (Some c))
            <$> filter (λ cs, CallSite.Parent cs ∉ K) css).
Proof.
  revert q. induction css as [|cs css IH]; intros q; cbn [fold_left].
  { cbn. by rewrite app_nil_r. }
  rewrite IH. unfold enqueue. case_bool_decide.
  - by rewrite filter_cons_False by naive_solver.
  - rewrite filter_cons_True by done.
    by rewrite fmap_cons, <- (assoc_L (++)).
Qed.

Lemma fold_visit_no_entry css st :
  Forall (λ cs, CallSite.Parent cs ∉ E) css →
  fold_left (visit E K c) css st
  = mkState (fold_left (enqueue K c) css (queue st)) (seen st)
      (candidates st) (candDepth st).
Proof.
  revert st. induction css as [|cs css IH]; intros st Hcss; cbn.
  { by destruct st. }
  apply Forall_cons in Hcss as [Hcs Hcss].
  rewrite IH by done. by rewrite visit_other.
Qed.
End Found.

Section Stable.
Context (σ : Store) (ord : FuncPtr → RangeOrder) (E K : gset nat).

Lemma visit_cands_stable c st cs :
  candidates st ≠ [] →
  candidates (visit E K c st cs) ≠ []
  ∧ candDepth (visit E K c st cs) = candDepth st.
Proof.
  intros Hne. destruct (decide (CallSite.Parent cs ∈ E)).
  - rewrite visit_entry by done.
    destruct (length (candidates st) =? 0) eqn:Hl.
    { apply Nat.eqb_eq, nil_length_inv in Hl. done. }
    cbn [orb].
    destruct (S (length (chainStack c)) =? candDepth st) eqn:Hd;
      cbn [candidates candDepth]; [|by split].
    apply Nat.eqb_eq in Hd. split; [|done]. by intros [? _]%app_eq_nil.
  - rewrite visit_other by done. by split.
Qed.

Lemma fold_visit_cands_stable c css st :
  candidates st ≠ [] →
  candidates (fold_left (visit E K c) css st) ≠ []
  ∧ candDepth (fold_left (visit E K c) css st) = candDepth st.
Proof.
  revert st. induction css as [|cs css IH]; intros st Hne; cbn; [by split|].
  destruct (visit_cands_stable c st cs Hne) as [Hne' Hd].
  destruct (IH _ Hne') as [? ?]. split; [done|congruence].
Qed.

Lemma step_cands_stable st :
  candidates st ≠ [] →
  candidates (step σ ord E K st) ≠ []
  ∧ candDepth (step σ ord E K st) = candDepth st.
Proof.
  intros Hne. unfold step. destruct (queue st) as [|c rest]; [by split|].
  case_bool_decide; [by split|].
  by apply (fold_visit_cands_stable c _ (mkState _ _ _ _)).
Qed.

Lemma loop_cands_stable fuel st :
  candidates st ≠ [] →
  candidates (loop σ ord E K fuel st) ≠ []
  ∧ candDepth (loop σ ord E K fuel st) = candDepth st.
Proof.
  revert st. induction fuel as [|fuel IH]; intros st Hne; cbn; [by split|].
  destruct (queue st); [by split|].
  destruct (step_cands_stable st Hne) as [Hne' Hd].
  destruct (IH _ Hne') as [? ?]. split; [done|congruence].
Qed.
End Stable.

Section Bfs.
Context (σ : Store) (ord : FuncPtr → RangeOrder).
Context (E K : gset nat) (sink : FuncPtr).
Context (Hord : ∀ f l, ord f l ≡ₚ l).

Local Abbreviation reachable := (reachable σ E K sink).
Local Abbreviation bfs := (bfs σ E K sink).

Lemma climb_pos n g : climb σ K sink n g → 1 ≤ n.
Proof. destruct 1; lia. Qed.

Lemma bfs_init : bfs 1 (initState sink).
Proof.
  split; cbn; try done.
  - exists [mkChain None sink None], []. repeat constructor.
  - intros c ->%list_elem_of_singleton. constructor.
  - intros n g Hc%climb_pos ?. lia.
  - intros g Hg. right. exists (mkChain None sink None).
    split; [by left|]. split; [|done].
    inversion Hg as [|n p f Hf]; simplify_eq; [done|].
    apply climb_pos in Hf. lia.
  - intros c ->%list_elem_of_singleton. done.
  - by right.
Qed.

(** With no chain of depth [d] left, the search is at depth [d + 1]. *)
Lemma bfs_next d st :
  bfs d st → (∀ c, c ∈ queue st → depth c ≠ d) → bfs (S d) st.
Proof.
  intros [Hc Hp (qa & qb & Hq & Hqa & Hqb) Hch Hbe Hle Hcl Hpa Hse Hqu Hsi] Hno.
  assert (qa = []) as ->.
  { destruct qa as [|c qa]; [done|]. exfalso.
    apply Forall_cons in Hqa as [Hd _]. apply (Hno c); [|done].
    rewrite Hq. by left. }
  cbn in Hq.
  assert (Hbe' : ∀ n g, climb σ K sink n g → n < S d → g ∈ seen st).
  { intros n g Hg Hn. destruct (decide (n = d)) as [->|]; [|apply (Hbe n); [done|lia]].
    destruct (Hle g Hg) as [?|(c & Hin & _ & Hd)]; [done|].
    by destruct (Hno c Hin). }
  split; try done.
  - lia.
  - exists qb, []. rewrite app_nil_r. split; [done|]. split; [done|constructor].
  - intros g Hg. inversion Hg as [|n p f Hf Hcalls HK]; simplify_eq; [lia|].
    destruct (Hcl f g) as [?|(c & Hin & Hfc)]; [apply (Hbe' d); [done|lia]|done..|by left|].
    right. exists c. split; [done|]. split; [done|].
    rewrite Forall_forall in Hqb. by apply Hqb.
Qed.

Lemma depth_push c cs :
  depth (mkChain (Some cs) (CallSite.Parent cs) (Some c)) = S (depth c).
Proof. done. Qed.

(** A turn that takes a chain of depth [d] off the queue keeps the search
    at depth [d], or finds the first candidates, which are then of the
    least number of frames. *)
Lemma bfs_step d st c rest :
  bfs d st → queue st = c :: rest → depth c = d →
  bfs d (step σ ord E K st)
  ∨ (candidates (step σ ord E K st) ≠ []
     ∧ least reachable (candDepth (step σ ord E K st))).
Proof.
  intros [Hc Hp (qa & qb & Hq & Hqa & Hqb) Hch Hbe Hle Hcl Hpa Hse Hqu Hsi]
    Hqueue Hd.
  rewrite Hqueue in *.
  assert (∃ qa', qa = c :: qa' ∧ rest = qa' ++ qb) as (qa' & -> & Hrest).
  { destruct qa as [|c' qa'].
    - cbn in Hq. subst qb. apply Forall_cons in Hqb as [? _]. lia.
    - cbn in Hq. simplify_eq. eauto. }
  apply Forall_cons in Hqa as [_ Hqa'].
  unfold step. rewrite Hqueue.
  set (f := chain_f c).
  assert (Hcf : climb σ K sink d f).
  { rewrite <- Hd. apply Hch. by left. }
  case_bool_decide as Hseen.
  { (* the function was expanded before *)
    left. split; cbn [queue seen candidates candDepth]; try done.
    - by exists qa', qb.
    - intros c' Hc'. apply Hch. by right.
    - intros g Hg. destruct (Hle g Hg) as [?|(c' & Hin & Hfc & Hdc)]; [by left|].
      apply elem_of_cons in Hin as [->|Hin]; [left; by rewrite <- Hfc|].
      right. by exists c'.
    - intros h g Hh Hg HK.
      destruct (Hcl h g Hh Hg HK) as [?|(c' & Hin & Hfc)]; [by left|].
      apply elem_of_cons in Hin as [->|Hin]; [left; by rewrite <- Hfc|].
      right. by exists c'.
    - intros c' Hc'. apply Hqu. by right.
    - left. destruct Hsi as [?|Heq]; [done|]. by simplify_eq. }
  set (seen1 := {[f]} ∪ seen st).
  set (css := callsites σ (ord f) (FuncNode.CallSites (funcAt σ f)) seen1).
  assert (Hsound : ∀ cs, cs ∈ css →
            cs ∈ FuncNode.CallSites (funcAt σ f)
            ∧ CallSite.Parent cs ∉ seen1).
  { intros cs. apply callsites_sound. }
  assert (Hcompl : ∀ g, calls σ g f → g ∉ seen1 →
            ∃ cs, cs ∈ css ∧ CallSite.Parent cs = g).
  { intros g (cs & Hcs & <-) Hg.
    by apply (callsites_complete σ (ord f) (Hord f)). }
  assert (Hsink1 : sink ∈ seen1).
  { unfold seen1. destruct Hsi as [?|Heq]; [by apply elem_of_union_r|].
    simplify_eq. apply elem_of_union_l. by apply elem_of_singleton. }
  destruct (decide (Exists (λ cs, CallSite.Parent cs ∈ E) css)) as [Hex|Hnex].
  { (* an entry function calls [f]: the first candidates *)
    right.
    destruct (fold_visit_found E K c css
                (mkState rest seen1 (candidates st) (candDepth st)))
      as [Hne Hcd]; [by left|by right|].
    split; [done|]. rewrite Hcd, Hd. split.
    - apply Exists_exists in Hex as (cs & Hcs & HE).
      destruct (Hsound cs Hcs) as [Hsite Hns].
      exists (CallSite.Parent cs), f, d. split; [done|]. split; [done|].
      split; [by intros Heq; rewrite Heq in Hns|].
      split; [by exists cs|done].
    - intros m (e & g & m' & -> & He & Hes & Hcalls & Hg).
      destruct (decide (m' < d)) as [Hlt|]; [|lia].
      destruct Hes. eapply Hpa; [|done..]. by eapply Hbe. }
  (* no entry function among the callers: the queue grows *)
  left. apply Forall_Exists_neg in Hnex.
  rewrite fold_visit_no_entry by done.
  cbn [queue seen candidates candDepth]. rewrite fold_enqueue.
  set (pushes := (λ cs, mkChain (Some cs) (CallSite.Parent cs) (Some c))
                   <$> filter (λ cs, CallSite.Parent cs ∉ K) css).
  assert (Hpush : ∀ c', c' ∈ pushes →
            ∃ cs, c' = mkChain (Some cs) (CallSite.Parent cs) (Some c)
                  ∧ cs ∈ css ∧ CallSite.Parent cs ∉ K).
  { intros c' (cs & -> & [? ?]%list_elem_of_filter)%list_elem_of_fmap. eauto. }
  assert (Hpushed : ∀ cs, cs ∈ css → CallSite.Parent cs ∉ K →
            ∃ c', c' ∈ pushes ∧ chain_f c' = CallSite.Parent cs).
  { intros cs Hcs HK. exists (mkChain (Some cs) (CallSite.Parent cs) (Some c)).
    split; [|done]. apply list_elem_of_fmap. exists cs. split; [done|].
    by apply list_elem_of_filter. }
  split; cbn [queue seen candidates candDepth]; try done.
  - exists qa', (qb ++ pushes). rewrite Hrest, (assoc_L (++)).
    split; [done|]. split; [done|]. apply Forall_app. split; [done|].
    apply Forall_forall. intros c' (cs & -> & _)%Hpush.
    by rewrite depth_push, Hd.
  - intros c' [Hc'|(cs & -> & Hcs & HK)%Hpush]%elem_of_app.
    + apply Hch. by right.
    + rewrite depth_push. cbn [chain_f]. rewrite Hd.
      econstructor; [exact Hcf| |done].
      exists cs. split; [|done]. by apply Hsound.
  - intros n g Hg Hn. unfold seen1. apply elem_of_union_r. by eapply Hbe.
  - intros g Hg. destruct (Hle g Hg) as [?|(c' & Hin & Hfc & Hdc)].
    { left. by apply elem_of_union_r. }
    apply elem_of_cons in Hin as [->|Hin].
    { left. apply elem_of_union_l. by apply elem_of_singleton. }
    right. exists c'. split; [|done]. apply elem_of_app. by left.
  - intros h g Hh Hg HK.
    destruct (decide (g ∈ seen1)) as [?|Hgs]; [by left|]. right.
    apply elem_of_union in Hh as [->%elem_of_singleton|Hh].
    + destruct (Hcompl g Hg Hgs) as (cs & Hcs & <-).
      destruct (Hpushed cs Hcs HK) as (c' & Hc' & Hfc').
      exists c'. split; [|done]. apply elem_of_app. by right.
    + destruct (Hcl h g Hh Hg HK) as [?|(c' & Hin & Hfc)].
      { destruct Hgs. by apply elem_of_union_r. }
      apply elem_of_cons in Hin as [->|Hin].
      { destruct Hgs. apply elem_of_union_l. by apply elem_of_singleton. }
      exists c'. split; [|done]. apply elem_of_app. by left.
  - intros h p Hh Hcalls HE.
    assert (Hf : f ∈ E → f = sink) by (apply Hqu; by left).
    apply elem_of_union in Hh as [->%elem_of_singleton|Hh]; [|by eapply Hpa].
    destruct (decide (p ∈ seen1)) as [Hps|Hps].
    + apply elem_of_union in Hps as [->%elem_of_singleton|Hps]; [by apply Hf|].
      by apply Hse.
    + destruct (Hcompl p Hcalls Hps) as (cs & Hcs & <-).
      rewrite Forall_forall in Hnex. by destruct (Hnex cs Hcs).
  - intros p [->%elem_of_singleton|Hpin]%elem_of_union HE; [|by apply Hse].
    apply Hqu; [by left|done].
  - intros c' [Hc'|(cs & -> & Hcs & HK)%Hpush]%elem_of_app HE.
    + apply Hqu; [by right|done].
    + cbn in HE. rewrite Forall_forall in Hnex. by destruct (Hnex cs Hcs).
  - by left.
Qed.

(** Every function within reach of the sink has been expanded when the
    queue is empty. *)
Lemma bfs_end d st n g :
  bfs d st → queue st = [] → climb σ K sink n g → g ∈ seen st.
Proof.
  intros Hb Hq. induction 1 as [|n p f Hf IH Hcalls HK].
  - destruct (bfs_sink Hb) as [?|Heq]; [done|]. by rewrite Hq in Heq.
  - destruct (bfs_closed Hb f p IH Hcalls HK) as [?|(c & Hin & _)]; [done|].
    rewrite Hq in Hin. by apply elem_of_nil in Hin.
Qed.

Lemma bfs_end_unreachable d st n :
  bfs d st → queue st = [] → ¬ reachable n.
Proof.
  intros Hb Hq (e & f & m & -> & He & Hes & Hcalls & Hf).
  destruct Hes. eapply (bfs_parents Hb); [|done..].
  by eapply bfs_end.
Qed.

Lemma bfs_loop fuel d st n :
  bfs d st → potential σ st ≤ fuel → reachable n →
  candidates (loop σ ord E K fuel st) ≠ []
  ∧ least reachable (candDepth (loop σ ord E K fuel st)).
Proof.
  revert d st. induction fuel as [|fuel IH]; intros d st Hb Hpot Hr.
  { exfalso. apply (bfs_end_unreachable d st n); [done| |done].
    unfold potential in Hpot. destruct (queue st); [done|cbn in Hpot; lia]. }
  cbn [loop]. destruct (queue st) as [|c rest] eqn:Hq.
  { exfalso. by apply (bfs_end_unreachable d st n). }
  assert (Hpot' : potential σ (step σ ord E K st) ≤ fuel).
  { pose proof (step_potential σ ord E K Hord st) as Hlt.
    rewrite Hq in Hlt. specialize (Hlt ltac:(done)). lia. }
  assert (∃ d', bfs d' st ∧ depth c = d') as (d' & Hb' & Hd').
  { destruct (decide (depth c = d)) as [?|Hne]; [by exists d|].
    exists (S d). destruct (bfs_levels Hb) as (qa & qb & Hqq & Hqa & Hqb).
    rewrite Hq in Hqq. destruct qa as [|c' qa].
    - cbn in Hqq. subst qb. split.
      + apply bfs_next; [done|]. intros c' Hc'. rewrite Hq in Hc'.
        rewrite Forall_forall in Hqb. rewrite (Hqb c' Hc'). lia.
      + by apply Forall_cons in Hqb as [? _].
    - cbn in Hqq. simplify_eq. by apply Forall_cons in Hqa as [? _]. }
  destruct (bfs_step d' st c rest Hb' Hq Hd') as [Hb''|[Hne Hl]].
  - by eapply IH.
  - destruct (loop_cands_stable σ ord E K fuel _ Hne) as [? Heq].
    split; [done|]. by rewrite Heq.
Qed.
End Bfs.

(** ** Ranking *)

Lemma weight_fold (stack : CallStack) (w0 : nat) :
  fold_left
    (λ w e,
       match Call e with
       | Some cs => if negb (CallSite.Resolved cs) then w + 1 else w
       | None => w
       end)
    stack w0
  = w0 + unresolvedCalls stack.
Proof.
  revert w0. unfold unresolvedCalls.
  induction stack as [|e stack IH]; intros w0; cbn [fold_left].
  { cbn. lia. }
  rewrite IH, filter_cons. destruct (decide (unresolved e = true)) as [Hu|Hu];
    unfold unresolved in Hu;
    destruct (Call e) as [cs|]; try destruct (CallSite.Resolved cs);
    cbn in *; try done.
  by rewrite <- Nat.add_assoc.
Qed.

Lemma weight_unresolvedCalls stack : weight stack = unresolvedCalls stack.
Proof. unfold weight. by rewrite weight_fold. Qed.

Lemma weightLess_leb s1 s2 : weightLess s1 s2 = (weight s1 <=? weight s2).
Proof.
  unfold weightLess.
  destruct (Nat.eqb_spec (weight s1) (weight s2)) as [->|Hne]; cbn [negb].
  - symmetry. by apply Nat.leb_le.
  - destruct (Nat.ltb_spec (weight s1) (weight s2)); symmetry.
    + apply Nat.leb_le. lia.
    + apply Nat.leb_gt. lia.
Qed.

Lemma callStack_least σ ord vuln res sink c :
  Vuln.CallSink (vulnAt σ vuln) = Some sink →
  c ∈ candidates (search σ ord vuln res sink) →
  callStack σ ord vuln res ∈ candidates (search σ ord vuln res sink)
  ∧ weight (callStack σ ord vuln res) ≤ weight c.
Proof.
  intros Hs Hc. destruct (callStack_cases σ ord vuln res sink Hs) as [[_ Hnil]|Hin].
  { rewrite Hnil in Hc. by apply elem_of_nil in Hc. }
  split; [done|]. unfold callStack. rewrite Hs.
  destruct (SliceStable weightLess _) as [|s rest] eqn:Heq.
  - cbn. lia.
  - by apply (SliceStable_head_least weight weightLess weightLess_leb _ _ _ _ Heq).
Qed.

(** ** The length of the witness *)

Lemma callStack_length σ ord vuln res sink :
  Vuln.CallSink (vulnAt σ vuln) = Some sink →
  candidates (search σ ord vuln res sink) ≠ [] →
  length (callStack σ ord vuln res) = candDepth (search σ ord vuln res sink).
Proof.
  intros Hs Hne.
  destruct (callStack_cases σ ord vuln res sink Hs) as [[_ ?]|Hin]; [done|].
  pose proof (loop_sound σ ord (entriesOf res) (skipSymbolsOf σ vuln res)
                sink (searchFuel σ)) as [_ Hc _].
  rewrite Forall_forall in Hc. by destruct (Hc _ Hin) as (_ & _ & _ & ?).
Qed.

Lemma search_least σ ord vuln res sink n :
  (∀ f l, ord f l ≡ₚ l) →
  callerFrames σ vuln res sink n →
  candidates (search σ ord vuln res sink) ≠ []
  ∧ least (callerFrames σ vuln res sink)
      (candDepth (search σ ord vuln res sink)).
Proof.
  intros Hord Hn. unfold search.
  eapply (bfs_loop σ ord (entriesOf res) (skipSymbolsOf σ vuln res) sink Hord);
    [apply bfs_init| |exact Hn].
  pose proof (potential_init σ sink). lia.
Qed.

(** ** Functions with one call site: the map order plays no part *)

Lemma Permutation_short {A} (l l' : list A) :
  l ≡ₚ l' → length l' ≤ 1 → l = l'.
Proof.
  intros Hp Hl. destruct l' as [|x [|? ?]]; cbn in Hl; [| |lia].
  - by apply Permutation_nil_r in Hp.
  - by apply Permutation_singleton_r in Hp.
Qed.

Lemma callsites_single σ range sites visited :
  (∀ l, range l ≡ₚ l) → length sites ≤ 1 →
  callsites σ range sites visited = callsites σ (λ l, l) sites visited.
Proof.
  intros Hr Hl. unfold callsites.
  rewrite (Permutation_short _ _ (Hr (snd <$> map_to_list
             (minCallSites sites visited)))); [done|].
  rewrite length_fmap, length_map_to_list, minCallSites_fold.
  etrans; [apply minFold_size|]. rewrite map_size_empty. lia.
Qed.

Lemma step_single σ ord E K st :
  (∀ f l, ord f l ≡ₚ l) →
  (∀ f, length (FuncNode.CallSites (funcAt σ f)) ≤ 1) →
  step σ ord E K st = step σ idOrder E K st.
Proof.
  intros Hord Hone. unfold step. destruct (queue st) as [|c rest]; [done|].
  case_bool_decide; [done|]. by rewrite callsites_single.
Qed.

Lemma loop_single σ ord E K fuel st :
  (∀ f l, ord f l ≡ₚ l) →
  (∀ f, length (FuncNode.CallSites (funcAt σ f)) ≤ 1) →
  loop σ ord E K fuel st = loop σ idOrder E K fuel st.
Proof.
  intros Hord Hone. revert st.
  induction fuel as [|fuel IH]; intros st; cbn [loop]; [done|].
  destruct (queue st); [done|]. by rewrite step_single, IH.
Qed.

Lemma callStack_single σ ord vuln res :
  (∀ f l, ord f l ≡ₚ l) →
  (∀ f, length (FuncNode.CallSites (funcAt σ f)) ≤ 1) →
  callStack σ ord vuln res = callStack σ idOrder vuln res.
Proof.
  intros Hord Hone. unfold callStack, search.
  destruct (Vuln.CallSink (vulnAt σ vuln)); [|done]. by rewrite loop_single.
Qed.

(** ** The mapping *)

Lemma fold_insert_lookup (tasks : list (nat * CallStack))
    (m : gmap nat CallStack) vuln s :
  (∀ t, t ∈ tasks → t.1 = vuln → t.2 = s) →
  m !! vuln = Some s ∨ (∃ t, t ∈ tasks ∧ t.1 = vuln) →
  fold_left (λ (stackPerVuln : gmap nat CallStack) t,
               <[t.1 := t.2]> stackPerVuln) tasks m !! vuln = Some s.
Proof.
  revert m. induction tasks as [|t tasks IH]; intros m Hall Hex; cbn.
  { destruct Hex as [?|(t & Hin & _)]; [done|]. by apply elem_of_nil in Hin. }
  apply IH; [intros t' Ht'; apply Hall; by right|].
  destruct (decide (t.1 = vuln)) as [Ht|Ht].
  - left. rewrite Ht, lookup_insert_eq. f_equal. apply Hall; [by left|done].
  - rewrite lookup_insert_ne by done.
    destruct Hex as [?|(t' & [->|Hin]%elem_of_cons & Ht')]; [by left|done|].
    right. by exists t'.
Qed.

Lemma CallStacks_lookup σ ords sched res vuln s :
  (∀ l, sched l ≡ₚ l) → vuln ∈ Vulns res →
  (∀ i, callStack σ (ords i) vuln res = s) →
  CallStacks σ ords sched res !! vuln = Some s.
Proof.
  intros Hsched Hin Hs. unfold CallStacks.
  set (tasks := imap _ _).
  assert (Ht : ∀ t, t ∈ sched tasks ↔
             ∃ i v, Vulns res !! i = Some v
                    ∧ t = (v, callStack σ (ords i) v res)).
  { intros t. rewrite Hsched. unfold tasks.
    rewrite list_elem_of_lookup. split.
    - intros (i & Hi). apply list_lookup_imap_Some in Hi as (v & ? & ->). eauto.
    - intros (i & v & Hi & ->). exists i. by rewrite list_lookup_imap, Hi. }
  apply fold_insert_lookup.
  - intros t (i & v & Hi & ->)%Ht. cbn. intros ->. apply Hs.
  - right. apply list_elem_of_lookup in Hin as (i & Hi).
    exists (vuln, callStack σ (ords i) vuln res). split; [|done].
    apply Ht. eauto.
Qed.

(** ** The frontier *)

Lemma good_chain_frontier σ K sink c :
  good_chain σ K sink c → c = mkChain None sink None ∨ chain_f c ∉ K.
Proof.
  intros [Hl Hu]. destruct c as [call f [child|]]; cbn [chainStack chain_f] in *.
  - right. destruct (chainStack_head child) as [s Hs]. rewrite Hs in Hu.
    rewrite upper_cons in Hu by done. by apply Forall_cons in Hu as [? _].
  - left. apply linked_single in Hl. by simplify_eq.
Qed.

Lemma searchTurns_sound σ ord vuln res sink n :
  sound σ (entriesOf res) (skipSymbolsOf σ vuln res) sink
    (searchTurns σ ord vuln res sink n).
Proof. apply iter_sound, sound_init. Qed.

Lemma search_turns σ ord vuln res sink :
  search σ ord vuln res sink = searchTurns σ ord vuln res sink (searchFuel σ).
Proof. apply loop_iter. Qed.

(** ** The comparators are orders where positions are known *)

Lemma Ascii_compare_refl c : Ascii.compare c c = Eq.
Proof. unfold Ascii.compare. apply N.compare_refl. Qed.

Lemma Ascii_compare_lt_trans c1 c2 c3 :
  Ascii.compare c1 c2 = Lt → Ascii.compare c2 c3 = Lt →
  Ascii.compare c1 c3 = Lt.
Proof.
  unfold Ascii.compare. rewrite !N.compare_lt_iff. apply N.lt_trans.
Qed.

Lemma String_compare_refl s : String.compare s s = Eq.
Proof.
  induction s as [|c s IH]; cbn; [done|]. by rewrite Ascii_compare_refl.
Qed.

Lemma String_compare_lt_trans s1 s2 s3 :
  String.compare s1 s2 = Lt → String.compare s2 s3 = Lt →
  String.compare s1 s3 = Lt.
Proof.
  revert s2 s3. induction s1 as [|c1 s1 IH]; intros [|c2 s2] [|c3 s3];
    cbn; try done.
  destruct (Ascii.compare c1 c2) eqn:H12; try done;
    destruct (Ascii.compare c2 c3) eqn:H23; try done.
  - apply Ascii.compare_eq_iff in H12, H23. subst.
    rewrite Ascii_compare_refl. apply IH.
  - apply Ascii.compare_eq_iff in H12. subst. by rewrite H23.
  - apply Ascii.compare_eq_iff in H23. subst. by rewrite H12.
  - by rewrite (Ascii_compare_lt_trans c1 c2 c3).
Qed.

Lemma ltb_irrefl s : String.ltb s s = false.
Proof. unfold String.ltb. by rewrite String_compare_refl. Qed.

Lemma ltb_trans s1 s2 s3 :
  String.ltb s1 s2 = true → String.ltb s2 s3 = true → String.ltb s1 s3 = true.
Proof.
  unfold String.ltb.
  destruct (String.compare s1 s2) eqn:H12; try done.
  destruct (String.compare s2 s3) eqn:H23; try done.
  by rewrite (String_compare_lt_trans s1 s2 s3).
Qed.

Lemma ltb_total s1 s2 :
  String.ltb s1 s2 = false → String.ltb s2 s1 = false → s1 = s2.
Proof.
  unfold String.ltb. rewrite (String.compare_antisym s2 s1).
  destruct (String.compare s1 s2) eqn:H12; try done.
  intros _ _. by apply String.compare_eq_iff.
Qed.

Lemma ltb_asym s1 s2 : String.ltb s1 s2 = true → String.ltb s2 s1 = false.
Proof.
  intros H. destruct (String.ltb s2 s1) eqn:H'; [|done].
  by rewrite <- (ltb_irrefl s1), (ltb_trans s1 s2 s1).
Qed.

Lemma posLess_true p q :
  posLess p q = true ↔
  (Position.Line p < Position.Line q)%Z
  ∨ (Position.Line p = Position.Line q
     ∧ ((Position.Column p < Position.Column q)%Z
        ∨ (Position.Column p = Position.Column q
           ∧ String.ltb (Position.Filename p) (Position.Filename q) = true))).
Proof.
  unfold posLess.
  destruct (Z.ltb_spec (Position.Line p) (Position.Line q));
    [intuition lia|].
  destruct (Z.ltb_spec (Position.Line q) (Position.Line p));
    [intuition (try done; lia)|].
  destruct (Z.ltb_spec (Position.Column p) (Position.Column q));
    [intuition lia|].
  destruct (Z.ltb_spec (Position.Column q) (Position.Column p));
    [intuition (try done; lia)|].
  intuition lia.
Qed.

Lemma posLess_irrefl p : posLess p p = false.
Proof.
  apply not_true_is_false. rewrite posLess_true, ltb_irrefl.
  intuition (try done; lia).
Qed.

Lemma posLess_trans p q r :
  posLess p q = true → posLess q r = true → posLess p r = true.
Proof.
  rewrite !posLess_true.
  intros [?|[? [?|[? H1]]]] [?|[? [?|[? H2]]]];
    try (left; lia); try (right; split; [lia|]; left; lia).
  right. split; [lia|]. right. split; [lia|]. by eapply ltb_trans.
Qed.

Lemma posLess_total p q :
  posLess p q = false → posLess q p = false → p = q.
Proof.
  intros H1%not_true_iff_false H2%not_true_iff_false.
  rewrite posLess_true in H1, H2.
  destruct p as [fp lp cp], q as [fq lq cq]; cbn in *.
  assert (lp = lq) as -> by lia. assert (cp = cq) as -> by lia.
  f_equal. apply ltb_total; apply not_true_is_false; intuition lia.
Qed.

Lemma posLess_asym p q : posLess p q = true → posLess q p = false.
Proof.
  intros H. destruct (posLess q p) eqn:H'; [|done].
  by rewrite <- (posLess_irrefl p), (posLess_trans p q p).
Qed.

(** ** [funcLess] and the order of the callers *)

Lemma funcLess_positioned f1 f2 p1 p2 :
  FuncNode.Pos f1 = Some p1 → FuncNode.Pos f2 = Some p2 →
  funcLess f1 f2
  = if posLess p1 p2 then true
    else if posLess p2 p1 then false
    else String.ltb (FuncNode.String f1) (FuncNode.String f2).
Proof. unfold funcLess. by intros -> ->. Qed.

Lemma funcLess_no_pos f1 f2 : FuncNode.Pos f2 = None → funcLess f1 f2 = true.
Proof. unfold funcLess. intros ->. by destruct (FuncNode.Pos f1). Qed.

Lemma funcLess_no_pos_l f1 f2 p2 :
  FuncNode.Pos f1 = None → FuncNode.Pos f2 = Some p2 → funcLess f1 f2 = false.
Proof. unfold funcLess. by intros -> ->. Qed.

#[local] Instance funcLe_preorder : PreOrder funcLe.
Proof.
  split.
  - intros f. unfold funcLe. destruct (FuncNode.Pos f) as [p|]; [|done].
    right. split; [done|]. apply ltb_irrefl.
  - intros f1 f2 f3. unfold funcLe.
    destruct (FuncNode.Pos f1) as [p1|], (FuncNode.Pos f2) as [p2|],
      (FuncNode.Pos f3) as [p3|]; try done.
    intros [H12|[-> H12]] [H23|[-> H23]].
    + left. by eapply posLess_trans.
    + by left.
    + by left.
    + right. split; [done|].
      destruct (String.ltb (FuncNode.String f3) (FuncNode.String f1)) eqn:H31;
        [|done].
      destruct (String.ltb (FuncNode.String f1) (FuncNode.String f2)) eqn:H;
        [by rewrite (ltb_trans _ _ _ H31 H) in H23|].
      rewrite (ltb_total _ _ H H12) in H31. by rewrite H31 in H23.
Qed.

Lemma funcLess_true_le f1 f2 : funcLess f1 f2 = true → funcLe f1 f2.
Proof.
  unfold funcLess, funcLe.
  destruct (FuncNode.Pos f1) as [p1|], (FuncNode.Pos f2) as [p2|]; try done.
  destruct (posLess p1 p2) eqn:H12; [by left|].
  destruct (posLess p2 p1) eqn:H21; [done|].
  intros H. right. split; [by apply posLess_total|]. by apply ltb_asym.
Qed.

Lemma funcLess_false_le f1 f2 : funcLess f1 f2 = false → funcLe f2 f1.
Proof.
  unfold funcLess, funcLe.
  destruct (FuncNode.Pos f1) as [p1|], (FuncNode.Pos f2) as [p2|]; try done.
  destruct (posLess p1 p2) eqn:H12; [done|].
  destruct (posLess p2 p1) eqn:H21; [by left|].
  intros H. right. split; [by apply posLess_total|done].
Qed.

Lemma funcLe_antisym f1 f2 :
  funcLe f1 f2 → funcLe f2 f1 → funcLess f1 f2 = funcLess f2 f1.
Proof.
  unfold funcLe, funcLess.
  destruct (FuncNode.Pos f1) as [p1|], (FuncNode.Pos f2) as [p2|]; try done.
  intros [H12|[-> H12]] [H21|[? H21]].
  - by rewrite (posLess_asym _ _ H12) in H21.
  - subst. by rewrite posLess_irrefl in H12.
  - by rewrite posLess_irrefl in H21.
  - rewrite posLess_irrefl. by rewrite H12, H21.
Qed.

#[local] Instance funcLe_ptr_preorder (σ : Store) :
  PreOrder (λ f1 f2, funcLe (funcAt σ f1) (funcAt σ f2)).
Proof.
  split; [by intros f|]. intros f1 f2 f3 ? ?. by trans (funcAt σ f2).
Qed.

Lemma SliceStable_funcLe σ (fs : list nat) :
  StronglySorted (λ f1 f2, funcLe (funcAt σ f1) (funcAt σ f2))
    (SliceStable (λ f1 f2, funcLess (funcAt σ f1) (funcAt σ f2)) fs).
Proof.
  apply (SliceStable_sorted (λ f1 f2, funcLe (funcAt σ f1) (funcAt σ f2))
           (λ f1 f2, funcLess (funcAt σ f1) (funcAt σ f2))).
  - intros f1 f2. apply funcLess_true_le.
  - intros f1 f2. apply funcLess_false_le.
Qed.

(** ** [callsites]: one call site for each caller, in the order of
    [funcLess] *)

Section CallsitesOrder.
Context (σ : Store) (range : RangeOrder) (Hrange : ∀ l, range l ≡ₚ l).
Implicit Types (sites : list CallSite.t) (visited : gset nat).

Local Abbreviation lessPtr := (λ f1 f2, funcLess (funcAt σ f1) (funcAt σ f2)).
Local Abbreviation lePtr := (λ f1 f2, funcLe (funcAt σ f1) (funcAt σ f2)).

Lemma minCallSites_keys sites visited :
  CallSite.Parent <$> (snd <$> map_to_list (minCallSites sites visited))
  = (map_to_list (minCallSites sites visited)).*1.
Proof.
  rewrite <- list_fmap_compose. apply Forall_fmap_ext_1.
  apply Forall_forall. intros [p cs] Hin%elem_of_map_to_list. cbn.
  by apply minCallSites_sound in Hin as (_ & ? & _).
Qed.

Lemma omap_lookup_parents (m : gmap nat CallSite.t) (fs : list nat) :
  (∀ p cs, m !! p = Some cs → CallSite.Parent cs = p) →
  (∀ p, p ∈ fs → is_Some (m !! p)) →
  CallSite.Parent <$> omap (λ f, m !! f) fs = fs.
Proof.
  intros Hm. induction fs as [|p fs IH]; intros Hfs; [done|]. cbn.
  destruct (Hfs p) as [cs Hcs]; [by left|]. rewrite Hcs. cbn.
  rewrite (Hm p cs Hcs). f_equal. apply IH. intros q Hq. apply Hfs. by right.
Qed.

(** The callers of the call sites returned are the keys of [minCs], as the
    sort leaves them. *)
Lemma callsites_parents sites visited :
  CallSite.Parent <$> callsites σ range sites visited
  = SliceStable lessPtr
      (CallSite.Parent <$>
         range (snd <$> map_to_list (minCallSites sites visited))).
Proof using Hrange.
  unfold callsites. apply omap_lookup_parents.
  - intros p cs H. by apply minCallSites_sound in H as (_ & ? & _).
  - intros p. rewrite SliceStable_elem_of, Hrange, minCallSites_keys.
    intros ((p' & cs) & -> & Hin%elem_of_map_to_list)%list_elem_of_fmap.
    by exists cs.
Qed.

Lemma callsites_parents_perm sites visited :
  CallSite.Parent <$> callsites σ range sites visited
  ≡ₚ (map_to_list (minCallSites sites visited)).*1.
Proof using Hrange.
  by rewrite callsites_parents, SliceStable_perm, Hrange, minCallSites_keys.
Qed.

Lemma callsites_NoDup sites visited :
  NoDup (CallSite.Parent <$> callsites σ range sites visited).
Proof using Hrange.
  rewrite callsites_parents_perm. apply NoDup_fst_map_to_list.
Qed.

Lemma callsites_parent_iff sites visited p :
  p ∈ (CallSite.Parent <$> callsites σ range sites visited)
  ↔ (p ∉ visited) ∧ ∃ cs, cs ∈ sites ∧ CallSite.Parent cs = p.
Proof using Hrange.
  split.
  - intros (cs & -> & [? ?]%callsites_sound)%list_elem_of_fmap. eauto.
  - intros (Hv & cs & Hcs & <-).
    destruct (callsites_complete σ range Hrange sites visited cs Hcs Hv)
      as (cs' & Hin & <-).
    apply list_elem_of_fmap. eauto.
Qed.

Lemma callsites_sorted_parents sites visited :
  StronglySorted lePtr (CallSite.Parent <$> callsites σ range sites visited).
Proof using Hrange.
  rewrite callsites_parents. apply SliceStable_funcLe.
Qed.
End CallsitesOrder.

(** ** [callsites]: the call site kept for a caller *)

Lemma csLess_true_pos cs cur r :
  csLess cs (Some cur) = true → CallSite.Pos cur = Some r →
  ∃ p, CallSite.Pos cs = Some p
       ∧ (posLess p r = true ∨ p = r).
Proof.
  unfold csLess. intros H Hr. rewrite Hr in H.
  destruct (CallSite.Pos cs) as [p|]; [|done]. exists p. split; [done|].
  destruct (posLess p r) eqn:Hpr; [by left|].
  destruct (posLess r p) eqn:Hrp; [done|]. right. by apply posLess_total.
Qed.

Lemma csLess_false_pos cs cur q :
  csLess cs (Some cur) = false → CallSite.Pos cs = Some q →
  ∃ r, CallSite.Pos cur = Some r ∧ posLess q r = false.
Proof.
  unfold csLess. intros H Hq. rewrite Hq in H.
  destruct (CallSite.Pos cur) as [r|]; [|done]. exists r. split; [done|].
  by destruct (posLess q r).
Qed.

Lemma minCallSites_snoc sites visited cs :
  minCallSites (sites ++ [cs]) visited
  = minStep visited (minCallSites sites visited) cs.
Proof. by rewrite !minCallSites_fold, fold_left_app. Qed.

Lemma minCallSites_complete sites visited cs :
  cs ∈ sites → CallSite.Parent cs ∉ visited →
  is_Some (minCallSites sites visited !! CallSite.Parent cs).
Proof. rewrite minCallSites_fold. apply minFold_complete. Qed.

Lemma minCallSites_least sites visited p cs cs' q :
  minCallSites sites visited !! p = Some cs →
  cs' ∈ sites → CallSite.Parent cs' = p → CallSite.Pos cs' = Some q →
  ∃ r, CallSite.Pos cs = Some r ∧ posLess q r = false.
Proof.
  revert p cs cs' q.
  induction sites as [|c sites IH] using rev_ind; intros p cs cs' q Hm Hin Hp Hq.
  { by apply elem_of_nil in Hin. }
  pose proof (minCallSites_sound _ _ _ _ Hm) as (_ & _ & Hv).
  rewrite minCallSites_snoc in Hm. unfold minStep in Hm.
  apply elem_of_app in Hin as [Hin|Hin%list_elem_of_singleton].
  - (* an earlier call site *)
    case_bool_decide as Hcv; [by eapply IH|].
    destruct (csLess c _) eqn:Hless; [|by eapply IH].
    destruct (decide (CallSite.Parent c = p)) as [Hcp|Hcp].
    + rewrite Hcp, lookup_insert_eq in Hm.
      assert (cs = c) as -> by congruence. clear Hm.
      destruct (minCallSites_complete sites visited cs' Hin) as [cur Hcur];
        [by rewrite Hp|].
      rewrite Hp in Hcur. rewrite Hcp, Hcur in Hless.
      destruct (IH _ _ _ _ Hcur Hin Hp Hq) as (r & Hr & Hqr).
      destruct (csLess_true_pos _ _ _ Hless Hr) as (pc & Hpc & [Hlt| ->]).
      * exists pc. split; [done|].
        destruct (posLess q pc) eqn:Hqpc; [|done].
        by rewrite (posLess_trans _ _ _ Hqpc Hlt) in Hqr.
      * by exists r.
    + rewrite lookup_insert_ne in Hm by done. by eapply IH.
  - (* the call site of this turn *)
    subst cs'. rewrite bool_decide_eq_false_2 in Hm by (by rewrite Hp).
    rewrite Hp in Hm.
    destruct (csLess c _) eqn:Hless.
    + rewrite lookup_insert_eq in Hm.
      assert (cs = c) as -> by congruence.
      exists q. split; [done|]. apply posLess_irrefl.
    + rewrite Hm in Hless. by eapply csLess_false_pos.
Qed.

(** ** Callers that [funcLess] orders one way only *)

Section Ordered.
Context (σ : Store).

Local Abbreviation lessPtr := (λ f1 f2, funcLess (funcAt σ f1) (funcAt σ f2)).
Local Abbreviation lePtr := (λ f1 f2, funcLe (funcAt σ f1) (funcAt σ f2)).

Lemma callsites_ordered range range' sites visited :
  (∀ l, range l ≡ₚ l) → (∀ l, range' l ≡ₚ l) → orderedCallers σ sites →
  callsites σ range sites visited = callsites σ range' sites visited.
Proof.
  intros Hr Hr' Hsites. unfold callsites.
  set (m := minCallSites sites visited).
  set (fs := SliceStable _ (CallSite.Parent <$> range _)).
  set (fs' := SliceStable _ (CallSite.Parent <$> range' _)).
  assert (Hin : ∀ (rg : RangeOrder), (∀ l, rg l ≡ₚ l) → ∀ p,
            p ∈ SliceStable lessPtr (CallSite.Parent <$> rg (snd <$> map_to_list m)) →
            ∃ cs, cs ∈ sites ∧ CallSite.Parent cs = p).
  { intros rg Hrg p. rewrite SliceStable_elem_of, Hrg.
    unfold m. rewrite minCallSites_keys.
    intros ((p' & cs) & -> & Hcs%elem_of_map_to_list)%list_elem_of_fmap.
    apply minCallSites_sound in Hcs as (? & ? & _). eauto. }
  enough (fs = fs') as -> by done.
  apply (StronglySorted_unique_strong lePtr).
  - intros p1 p2 (cs1 & Hcs1 & <-)%(Hin range Hr) (cs2 & Hcs2 & <-)%(Hin range' Hr')
      H12 H21.
    destruct (decide (CallSite.Parent cs1 = CallSite.Parent cs2)) as [|Hne];
      [done|].
    destruct (Hsites cs1 cs2 Hcs1 Hcs2 Hne). by apply funcLe_antisym.
  - apply SliceStable_funcLe.
  - apply SliceStable_funcLe.
  - unfold fs, fs'. by rewrite !SliceStable_perm, Hr, Hr'.
Qed.

Context (Hσ : ∀ f, orderedCallers σ (FuncNode.CallSites (funcAt σ f))).

Lemma step_ordered ord ord' E K st :
  (∀ f l, ord f l ≡ₚ l) → (∀ f l, ord' f l ≡ₚ l) →
  step σ ord E K st = step σ ord' E K st.
Proof.
  intros Hord Hord'. unfold step. destruct (queue st) as [|c rest]; [done|].
  case_bool_decide; [done|].
  by rewrite (callsites_ordered (ord (chain_f c)) (ord' (chain_f c))).
Qed.

Lemma loop_ordered ord ord' E K fuel st :
  (∀ f l, ord f l ≡ₚ l) → (∀ f l, ord' f l ≡ₚ l) →
  loop σ ord E K fuel st = loop σ ord' E K fuel st.
Proof.
  intros Hord Hord'. revert st.
  induction fuel as [|fuel IH]; intros st; cbn [loop]; [done|].
  destruct (queue st); [done|]. by rewrite (step_ordered ord ord'), IH.
Qed.

Lemma callStack_ordered ord ord' vuln res :
  (∀ f l, ord f l ≡ₚ l) → (∀ f l, ord' f l ≡ₚ l) →
  callStack σ ord vuln res = callStack σ ord' vuln res.
Proof.
  intros Hord Hord'. unfold callStack, search.
  destruct (Vuln.CallSink (vulnAt σ vuln)); [|done].
  by rewrite (loop_ordered ord ord').
Qed.
End Ordered.

(** ** The keys of the mapping *)

Lemma fold_insert_lookup_None (tasks : list (nat * CallStack))
    (m : gmap nat CallStack) vuln :
  (∀ t, t ∈ tasks → t.1 ≠ vuln) → m !! vuln = None →
  fold_left (λ (stackPerVuln : gmap nat CallStack) t,
               <[t.1 := t.2]> stackPerVuln) tasks m !! vuln = None.
Proof.
  revert m. induction tasks as [|t tasks IH]; intros m Hall Hm; cbn; [done|].
  apply IH; [intros t' Ht'; apply Hall; by right|].
  rewrite lookup_insert_ne; [done|]. apply Hall. by left.
Qed.

Lemma CallStacks_lookup_None σ ords sched res vuln :
  (∀ l, sched l ≡ₚ l) → vuln ∉ Vulns res →
  CallStacks σ ords sched res !! vuln = None.
Proof.
  intros Hsched Hin. unfold CallStacks. apply fold_insert_lookup_None; [|done].
  intros t. rewrite Hsched, list_elem_of_lookup. intros (i & Hi) <-.
  apply list_lookup_imap_Some in Hi as (v & Hv & ->). cbn in Hin.
  apply Hin. by eapply list_elem_of_lookup_2.
Qed.

Lemma CallStacks_lookup_Some σ ords sched res vuln :
  (∀ l, sched l ≡ₚ l) → vuln ∈ Vulns res →
  ∃ i, Vulns res !! i = Some vuln
       ∧ CallStacks σ ords sched res !! vuln
         = Some (callStack σ (ords i) vuln res).
Proof.
  intros Hsched Hin. unfold CallStacks.
  set (tasks := imap _ _).
  set (ins := λ (stackPerVuln : gmap nat CallStack) (t : nat * CallStack),
                <[t.1 := t.2]> stackPerVuln).
  assert (Hgen : ∀ l (m : gmap nat CallStack),
            (∀ t, t ∈ l → ∃ i, Vulns res !! i = Some t.1
                               ∧ t.2 = callStack σ (ords i) t.1 res) →
            (∃ i, Vulns res !! i = Some vuln
                  ∧ m !! vuln = Some (callStack σ (ords i) vuln res))
            ∨ (∃ t, t ∈ l ∧ t.1 = vuln) →
            ∃ i, Vulns res !! i = Some vuln
                 ∧ fold_left ins l m !! vuln
                   = Some (callStack σ (ords i) vuln res)).
  { induction l as [|t l IH]; intros m Hl Hex; cbn.
    { destruct Hex as [?|(t & Ht & _)]; [done|]. by apply elem_of_nil in Ht. }
    apply IH; [intros t' Ht'; apply Hl; by right|].
    destruct (decide (t.1 = vuln)) as [Ht|Ht].
    - left. destruct (Hl t) as (i & Hi & Hti); [by left|].
      exists i. unfold ins. rewrite <- Ht, lookup_insert_eq. by rewrite Hti.
    - unfold ins. rewrite lookup_insert_ne by done.
      destruct Hex as [?|(t' & [->|Ht']%elem_of_cons & Hv)]; [by left|done|].
      right. eauto. }
  apply Hgen.
  - intros t. rewrite Hsched, list_elem_of_lookup. intros (i & Hi).
    apply list_lookup_imap_Some in Hi as (v & Hv & ->). eauto.
  - right. apply list_elem_of_lookup in Hin as (i & Hi).
    exists (vuln, callStack σ (ords i) vuln res). split; [|done].
    rewrite Hsched. apply list_elem_of_lookup. exists i.
    unfold tasks. by rewrite list_lookup_imap, Hi.
Qed.

(** ** No function comes twice in a candidate *)

Section Distinct.
Context (σ : Store) (ord : FuncPtr → RangeOrder) (E K : gset nat).

Lemma fresh_chain_mono (seen seen' : gset nat) c :
  seen ⊆ seen' → fresh_chain seen c → fresh_chain seen' c.
Proof. intros Hs [Hn Hc]. split; [done|]. intros e He. by apply Hs, Hc. Qed.

Lemma fresh_chain_push (seen : gset nat) c cs :
  NoDup (Function <$> chainStack c) →
  (∀ e, e ∈ chainStack c → Function e ∈ seen) →
  CallSite.Parent cs ∉ seen →
  fresh_chain seen (mkChain (Some cs) (CallSite.Parent cs) (Some c)).
Proof.
  intros Hn Hc Hcs. split; cbn [chainStack]; [|done].
  rewrite fmap_cons. cbn [Function]. constructor; [|done].
  intros (e & Heq & He)%list_elem_of_fmap. apply Hcs. rewrite Heq. by apply Hc.
Qed.

Lemma visit_distinct c st cs :
  distinct st →
  NoDup (Function <$> chainStack c) →
  (∀ e, e ∈ chainStack c → Function e ∈ seen st) →
  CallSite.Parent cs ∉ seen st →
  distinct (visit E K c st cs).
Proof.
  intros [Hq Hc] Hn Hs Hcs.
  pose proof (fresh_chain_push (seen st) c cs Hn Hs Hcs) as [Hfn Hfs].
  assert (Hq1 : Forall (fresh_chain (seen st)) (enqueue K c (queue st) cs)).
  { unfold enqueue. case_bool_decide; [done|].
    apply Forall_app. split; [done|]. constructor; [by split|constructor]. }
  destruct (decide (CallSite.Parent cs ∈ E)) as [HE|HE].
  - rewrite visit_entry by done. destruct (_ || _).
    + split; cbn [queue candidates seen]; [done|].
      apply Forall_app. split; [done|]. constructor; [done|constructor].
    + split; cbn [queue candidates seen]; [constructor|done].
  - rewrite visit_other by done. by split.
Qed.

Lemma fold_visit_distinct c css st :
  distinct st →
  NoDup (Function <$> chainStack c) →
  (∀ e, e ∈ chainStack c → Function e ∈ seen st) →
  (∀ cs, cs ∈ css → CallSite.Parent cs ∉ seen st) →
  distinct (fold_left (visit E K c) css st).
Proof.
  revert st. induction css as [|cs css IH]; intros st Hst Hn Hs Hcss; [done|].
  cbn. apply IH; [|done|by rewrite visit_seen|].
  - apply visit_distinct; [done..|]. apply Hcss. by left.
  - intros cs' Hcs'. rewrite visit_seen. apply Hcss. by right.
Qed.

Lemma step_distinct st : distinct st → distinct (step σ ord E K st).
Proof.
  intros Hst. unfold step. destruct (queue st) as [|c rest] eqn:Hqueue; [done|].
  pose proof (distinct_queue Hst) as Hq. pose proof (distinct_cands Hst) as Hc.
  rewrite Hqueue in Hq. apply Forall_cons in Hq as [[Hn Hs] Hrest].
  case_bool_decide as Hseen; [by split|].
  apply fold_visit_distinct; cbn [seen]; [|done| |].
  - split; cbn [queue candidates seen]; [|done].
    eapply Forall_impl; [exact Hrest|]. intros c'.
    apply fresh_chain_mono. set_solver.
  - intros e He. destruct (chainStack_head c) as [s Hcs]. rewrite Hcs in He, Hs.
    apply elem_of_cons in He as [->|He]; cbn.
    + apply elem_of_union_l. by apply elem_of_singleton.
    + apply elem_of_union_r. by apply Hs.
  - intros cs [_ ?]%callsites_sound. done.
Qed.

Lemma loop_distinct fuel st : distinct st → distinct (loop σ ord E K fuel st).
Proof.
  rewrite loop_iter. intros Hst.
  induction fuel as [|fuel IH]; [done|]. by apply step_distinct.
Qed.

Lemma distinct_init sink : distinct (initState sink).
Proof.
  split; cbn; [|done]. repeat constructor; cbn; [apply not_elem_of_nil|].
  intros e He. by apply elem_of_nil in He.
Qed.
End Distinct.

Lemma callStack_NoDup σ ord vuln res :
  NoDup (Function <$> callStack σ ord vuln res).
Proof.
  destruct (Vuln.CallSink (vulnAt σ vuln)) as [sink|] eqn:Hs.
  - destruct (callStack_cases σ ord vuln res sink Hs) as [[-> _]|Hin];
      [constructor|].
    pose proof (loop_distinct σ ord (entriesOf res) (skipSymbolsOf σ vuln res)
                  (searchFuel σ) _ (distinct_init sink)) as [_ Hc].
    rewrite Forall_forall in Hc. by apply Hc.
  - rewrite callStack_nil_sink by done. constructor.
Qed.

(** ** From a stack of the call graph to the frames it counts *)

Section Frames.
Context (σ : Store) (K : gset nat) (sink : FuncPtr).

Lemma linked_cons_inv e s :
  linked σ sink (e :: s) → s ≠ [] →
  ∃ cs e' s', e = mkEntry (CallSite.Parent cs) (Some cs) ∧ s = e' :: s'
              ∧ cs ∈ FuncNode.CallSites (funcAt σ (Function e'))
              ∧ linked σ sink (e' :: s').
Proof.
  inversion 1 as [|cs e' s' Hl Hcs]; simplify_eq; [done|]. intros _.
  by exists cs, e', s'.
Qed.

Lemma linked_suffix pre s :
  linked σ sink (pre ++ s) → s ≠ [] → linked σ sink s.
Proof.
  intros Hl Hs. induction pre as [|e pre IH]; [done|]. apply IH.
  cbn in Hl. apply linked_cons_inv in Hl as (? & ? & ? & _ & -> & _ & Hl); [done|].
  by destruct pre, s.
Qed.

Lemma linked_climb e s :
  linked σ sink (e :: s) →
  Forall (λ e, Function e ∉ K) (upper (e :: s)) →
  climb σ K sink (length (e :: s)) (Function e).
Proof.
  revert e. induction s as [|e' s IH]; intros e Hl Hu.
  - apply linked_single in Hl as ->. constructor.
  - apply linked_cons_inv in Hl as (cs & e1 & s1 & -> & ? & Hcs & Hl); [|done].
    simplify_eq. rewrite upper_cons in Hu by done.
    apply Forall_cons in Hu as [HK Hu]. cbn [length].
    eapply climb_call; [by apply IH|by exists cs|done].
Qed.

Lemma linked_reachable (E : gset nat) e s :
  linked σ sink (e :: s) → s ≠ [] →
  Function e ∈ E → Function e ≠ sink →
  Forall (λ e, Function e ∉ K) (inner (e :: s)) →
  reachable σ E K sink (length (e :: s)).
Proof.
  intros Hl Hs HE Hne Hin. rewrite inner_cons in Hin by done.
  apply linked_cons_inv in Hl as (cs & e' & s' & -> & -> & Hcs & Hl); [|done].
  exists (CallSite.Parent cs), (Function e'), (length (e' :: s')).
  split; [done|]. split; [done|]. split; [done|].
  split; [by exists cs|]. by apply linked_climb.
Qed.

Lemma upper_app_cons pre (e : StackEntry) post :
  post ≠ [] → upper (pre ++ e :: post) = pre ++ e :: upper post.
Proof.
  intros Hpost. induction pre as [|x pre IH]; cbn [app].
  - by rewrite upper_cons.
  - rewrite upper_cons by (by destruct pre). by rewrite IH.
Qed.

Lemma elem_of_upper (e : StackEntry) s :
  e ∈ upper s → ∃ pre post, s = pre ++ e :: post ∧ post ≠ [].
Proof.
  unfold upper. intros (pre & post & Heq)%list_elem_of_split.
  exists pre, (post ++ drop (length s - 1) s). split.
  - rewrite <- (take_drop (length s - 1) s) at 1. rewrite Heq.
    by rewrite <- (assoc_L (++)).
  - intros [_ Hd]%app_eq_nil. apply (f_equal length) in Hd, Heq.
    rewrite length_drop in Hd. rewrite length_take, length_app in Heq.
    cbn in *. lia.
Qed.
End Frames.

(** ** When there is a witness *)

Lemma callStack_callerFrames σ ord vuln res sink :
  Vuln.CallSink (vulnAt σ vuln) = Some sink →
  callStack σ ord vuln res ≠ [] →
  callerFrames σ vuln res sink (length (callStack σ ord vuln res)).
Proof.
  intros Hs Hne.
  destruct (callStack_good σ ord vuln res sink Hs Hne)
    as (Hl & (e & s' & Heq & Hs' & HE & Hes) & Hin & _).
  rewrite Heq in *. by apply linked_reachable.
Qed.

Lemma candidates_callStack σ ord vuln res sink :
  Vuln.CallSink (vulnAt σ vuln) = Some sink →
  candidates (search σ ord vuln res sink) ≠ [] →
  callStack σ ord vuln res ≠ [].
Proof.
  intros Hs Hne. destruct (callStack_cases σ ord vuln res sink Hs)
    as [[_ ?]|Hin]; [done|].
  pose proof (loop_sound σ ord (entriesOf res) (skipSymbolsOf σ vuln res)
                sink (searchFuel σ)) as [_ Hc _].
  rewrite Forall_forall in Hc.
  destruct (Hc _ Hin) as (_ & (e & s' & -> & _) & _). done.
Qed.

(** ** Only the first frame of a witness is an entry function *)

Lemma last_is_Some {A} (l : list A) : l ≠ [] → is_Some (last l).
Proof.
  destruct l as [|x l]; [done|]. intros _. rewrite last_cons.
  destruct (last l); by eexists.
Qed.

Lemma NoDup_last_upper (s : CallStack) e x :
  NoDup (Function <$> s) → last s = Some x → e ∈ upper s →
  Function e ≠ Function x.
Proof.
  intros Hn Hlast (pre & post & -> & Hpost)%elem_of_upper Heq.
  rewrite fmap_app, fmap_cons in Hn.
  apply NoDup_app in Hn as (_ & _ & Hn). apply NoDup_cons in Hn as [Hn _].
  apply Hn. rewrite Heq. apply list_elem_of_fmap. exists x. split; [done|].
  rewrite last_app_cons, last_cons in Hlast.
  destruct (last_is_Some post Hpost) as [z Hz]. rewrite Hz in Hlast.
  simplify_eq. by apply last_Some_elem_of.
Qed.

(** ** Ties between candidates *)

Section InsertionTies.
Context {A : Type} (key : A → nat) (less : A → A → bool).
Context (Hless : ∀ x y, less x y = (key x <=? key y)).

Lemma sinkLeft_bottom x left :
  (∀ y, y ∈ left → key x ≤ key y) → sinkLeft less x left = left ++ [x].
Proof.
  induction left as [|y left IH]; intros Hl; cbn; [done|].
  rewrite Hless, (proj2 (Nat.leb_le _ _)) by (apply Hl; by left).
  rewrite IH; [done|]. intros z Hz. apply Hl. by right.
Qed.

Lemma sinkLeft_above x left m :
  key m < key x → ∃ left', sinkLeft less x (left ++ [m]) = left' ++ [m].
Proof.
  intros Hm. induction left as [|y left [left' IH]]; cbn.
  - rewrite Hless, (proj2 (Nat.leb_gt _ _)) by done. by exists [x].
  - destruct (less x y).
    + rewrite IH. by exists (y :: left').
    + by exists (x :: y :: left).
Qed.

Lemma fold_sinkLeft_elem_of (data acc : list A) y :
  y ∈ fold_left (λ left x, sinkLeft less x left) data acc → y ∈ data ∨ y ∈ acc.
Proof.
  revert acc. induction data as [|x data IH]; intros acc; cbn; [auto|].
  intros [?|Hy]%IH; [left; by right|].
  rewrite (sinkLeft_perm less x acc) in Hy.
  apply elem_of_cons in Hy as [->|?]; [left; by left|by right].
Qed.

Lemma fold_sinkLeft_above (data left : list A) m :
  (∀ c, c ∈ data → key m < key c) →
  ∃ left', fold_left (λ left x, sinkLeft less x left) data (left ++ [m])
           = left' ++ [m].
Proof.
  revert left. induction data as [|x data IH]; intros left Hd; cbn; [eauto|].
  destruct (sinkLeft_above x left m) as [left' ->]; [apply Hd; by left|].
  apply IH. intros c Hc. apply Hd. by right.
Qed.

(** Insertion sort with this [less] puts first the last of the elements of
    least key. *)
Lemma insertionSort_head l1 s l2 :
  (∀ c, c ∈ l1 → key s ≤ key c) → (∀ c, c ∈ l2 → key s < key c) →
  head (insertionSort less (l1 ++ s :: l2)) = Some s.
Proof.
  intros H1 H2. unfold insertionSort. rewrite fold_left_app. cbn [fold_left].
  rewrite sinkLeft_bottom.
  2: { intros y [Hy|Hy]%fold_sinkLeft_elem_of; [by apply H1|].
       by apply elem_of_nil in Hy. }
  destruct (fold_sinkLeft_above l2
              (fold_left (λ left x, sinkLeft less x left) l1 []) s H2)
    as [left' ->].
  by rewrite rev_app_distr.
Qed.

(** Up to 20 elements, [sort.SliceStable] is one insertion sort. *)
Lemma SliceStable_small (data : list A) :
  length data ≤ 20 → SliceStable less data = insertionSort less data.
Proof.
  intros Hl. unfold SliceStable, stable.
  destruct (decide (length data = 20)) as [H20|Hne].
  - rewrite H20. cbn [sortBlocks]. rewrite H20. cbn [Nat.leb].
    rewrite take_ge, drop_ge by lia. cbn.
    by rewrite app_nil_r.
  - assert (Hb : sortBlocks less (length data) 20 data = [insertionSort less data]).
    { destruct (length data) as [|n] eqn:Hn; cbn [sortBlocks]; [done|].
      rewrite Hn. by rewrite (proj2 (Nat.leb_gt 20 (S n))) by lia. }
    by rewrite Hb.
Qed.
End InsertionTies.

(** ** [funcLess] on functions that have a position *)

Lemma funcLess_positioned_true f1 f2 p1 p2 :
  FuncNode.Pos f1 = Some p1 → FuncNode.Pos f2 = Some p2 →
  funcLess f1 f2 = true
  ↔ posLess p1 p2 = true
    ∨ (p1 = p2 ∧ String.ltb (FuncNode.String f1) (FuncNode.String f2) = true).
Proof.
  intros H1 H2. rewrite (funcLess_positioned f1 f2 p1 p2 H1 H2).
  destruct (posLess p1 p2) eqn:H12; [split; [by left|done]|].
  destruct (posLess p2 p1) eqn:H21.
  - split; [done|]. intros [?|[-> _]]; [done|]. by rewrite posLess_irrefl in H21.
  - split; [|by intros [?|[_ ?]]]. intros H. right. split; [|done].
    by apply posLess_total.
Qed.

Lemma funcLess_positioned_irrefl f p :
  FuncNode.Pos f = Some p → funcLess f f = false.
Proof.
  intros Hp. apply not_true_is_false.
  rewrite (funcLess_positioned_true f f p p Hp Hp).
  rewrite posLess_irrefl, ltb_irrefl. by intros [?|[_ ?]].
Qed.

Lemma funcLess_positioned_trans f1 f2 f3 p1 p2 p3 :
  FuncNode.Pos f1 = Some p1 → FuncNode.Pos f2 = Some p2 →
  FuncNode.Pos f3 = Some p3 →
  funcLess f1 f2 = true → funcLess f2 f3 = true → funcLess f1 f3 = true.
Proof.
  intros H1 H2 H3.
  rewrite (funcLess_positioned_true f1 f2 p1 p2 H1 H2).
  rewrite (funcLess_positioned_true f2 f3 p2 p3 H2 H3).
  rewrite (funcLess_positioned_true f1 f3 p1 p3 H1 H3).
  intros [H12|[-> H12]] [H23|[-> H23]].
  - left. by eapply posLess_trans.
  - by left.
  - by left.
  - right. split; [done|]. by eapply ltb_trans.
Qed.

Lemma funcLess_positioned_total f1 f2 p1 p2 :
  FuncNode.Pos f1 = Some p1 → FuncNode.Pos f2 = Some p2 →
  funcLess f1 f2 = false → funcLess f2 f1 = false →
  p1 = p2 ∧ FuncNode.String f1 = FuncNode.String f2.
Proof.
  intros H1 H2.
  rewrite (funcLess_positioned f1 f2 p1 p2 H1 H2).
  rewrite (funcLess_positioned f2 f1 p2 p1 H2 H1).
  destruct (posLess p1 p2) eqn:H12; [done|].
  destruct (posLess p2 p1) eqn:H21; [done|].
  intros Ha Hb. split; [by apply posLess_total|by apply ltb_total].
Qed.

(** ** Further helpers *)

Lemma StronglySorted_fmap_inv {A B} (f : A → B) (R : relation B) (l : list A) :
  StronglySorted R (f <$> l) → StronglySorted (λ x y, R (f x) (f y)) l.
Proof.
  induction l as [|x l IH]; [constructor|]. rewrite fmap_cons.
  intros [Hx Hl]%StronglySorted_cons. constructor; [by apply IH|].
  by rewrite Forall_fmap in Hx.
Qed.

Lemma potential_initState σ sink :
  potential σ (initState sink)
  = 1 + sum_list (length ∘ FuncNode.CallSites <$> funcNodes σ).
Proof.
  unfold potential. cbn [initState queue seen length].
  by rewrite pendingIn_empty.
Qed.

(** In the example [Dynamic] the two callers of the sink have different
    positions. *)
Lemma Dynamic_ordered f :
  orderedCallers Dynamic.σ (FuncNode.CallSites (funcAt Dynamic.σ f)).
Proof.
  intros cs1 cs2 H1 H2 Hne. destruct f as [|[|[|f]]]; cbn in H1, H2.
  - by apply elem_of_nil in H1.
  - by apply elem_of_nil in H1.
  - apply elem_of_cons in H1 as [->|H1];
      [|apply list_elem_of_singleton in H1 as ->];
      (apply elem_of_cons in H2 as [->|H2];
        [|apply list_elem_of_singleton in H2 as ->]);
      try (by destruct Hne); vm_compute; discriminate.
  - by apply elem_of_nil in H1.
Qed.

(** ** The call site of a frame is the first call in its function *)

Section Chosen.
Context (σ : Store) (ord : FuncPtr → RangeOrder) (E K : gset nat).

Lemma callsites_leastSite range sites visited cs :
  cs ∈ callsites σ range sites visited → leastSite sites cs.
Proof.
  intros Hcs%callsites_parent cs' q Hin Hp Hq. by eapply minCallSites_least.
Qed.

Lemma leastCalls_push c cs :
  leastCalls σ (chainStack c) →
  leastSite (FuncNode.CallSites (funcAt σ (chain_f c))) cs →
  leastCalls σ (mkEntry (CallSite.Parent cs) (Some cs) :: chainStack c).
Proof.
  intros Hc Hcs. destruct (chainStack_head c) as [s Hs]. rewrite Hs in *.
  cbn [leastCalls]. split; [|done]. intros cs0 [= <-]. done.
Qed.

Lemma visit_chosen c st cs :
  chosen σ st → leastCalls σ (chainStack c) →
  leastSite (FuncNode.CallSites (funcAt σ (chain_f c))) cs →
  chosen σ (visit E K c st cs).
Proof.
  intros [Hq Hc] Hl Hcs.
  pose proof (leastCalls_push c cs Hl Hcs) as Hpush.
  assert (Hq1 : Forall (λ c, leastCalls σ (chainStack c))
                  (enqueue K c (queue st) cs)).
  { unfold enqueue. case_bool_decide; [done|].
    apply Forall_app. split; [done|]. constructor; [done|constructor]. }
  destruct (decide (CallSite.Parent cs ∈ E)) as [HE|HE].
  - rewrite visit_entry by done. destruct (_ || _).
    + split; cbn [queue candidates]; [done|].
      apply Forall_app. split; [done|]. constructor; [done|constructor].
    + split; cbn [queue candidates]; [constructor|done].
  - rewrite visit_other by done. by split.
Qed.

Lemma fold_visit_chosen c css st :
  chosen σ st → leastCalls σ (chainStack c) →
  (∀ cs, cs ∈ css →
     leastSite (FuncNode.CallSites (funcAt σ (chain_f c))) cs) →
  chosen σ (fold_left (visit E K c) css st).
Proof.
  revert st. induction css as [|cs css IH]; intros st Hst Hl Hcss; [done|].
  cbn. apply IH; [|done|].
  - apply visit_chosen; [done..|]. apply Hcss. by left.
  - intros cs' Hcs'. apply Hcss. by right.
Qed.

Lemma step_chosen st : chosen σ st → chosen σ (step σ ord E K st).
Proof.
  intros Hst. unfold step. destruct (queue st) as [|c rest] eqn:Hqueue; [done|].
  pose proof (chosen_queue Hst) as Hq. pose proof (chosen_cands Hst) as Hc.
  rewrite Hqueue in Hq. apply Forall_cons in Hq as [Hl Hrest].
  case_bool_decide as Hseen; [by split|].
  apply fold_visit_chosen; [by split|done|].
  intros cs. apply callsites_leastSite.
Qed.

Lemma loop_chosen fuel st : chosen σ st → chosen σ (loop σ ord E K fuel st).
Proof.
  rewrite loop_iter. intros Hst.
  induction fuel as [|fuel IH]; [done|]. by apply step_chosen.
Qed.

Lemma chosen_init sink : chosen σ (initState sink).
Proof. split; cbn; [|done]. by repeat constructor. Qed.
End Chosen.

Lemma leastCalls_lookup σ s i e e' cs :
  leastCalls σ s → s !! i = Some e → s !! S i = Some e' → Call e = Some cs →
  leastSite (FuncNode.CallSites (funcAt σ (Function e'))) cs.
Proof.
  revert i. induction s as [|e0 s IH]; intros i Hl Hi Hi'; [done|].
  destruct s as [|e1 s]; [done|]. destruct Hl as [H0 Hl].
  destruct i as [|i]; cbn in Hi, Hi'.
  - simplify_eq. apply H0.
  - by apply (IH i).
Qed.

Lemma callStack_leastCalls σ ord vuln res :
  leastCalls σ (callStack σ ord vuln res).
Proof.
  destruct (Vuln.CallSink (vulnAt σ vuln)) as [sink|] eqn:Hs.
  - destruct (callStack_cases σ ord vuln res sink Hs) as [[-> _]|Hin]; [done|].
    pose proof (loop_chosen σ ord (entriesOf res) (skipSymbolsOf σ vuln res)
                  (searchFuel σ) _ (chosen_init σ sink)) as [_ Hc].
    rewrite Forall_forall in Hc. by apply Hc.
  - by rewrite callStack_nil_sink.
Qed.

(** ** Whether the sink is an entry function plays no part *)

Section EntrySink.
Context (σ : Store) (ord : FuncPtr → RangeOrder) (E E' K : gset nat).
Context (sink : FuncPtr).
Context (HE : ∀ e, e ≠ sink → e ∈ E ↔ e ∈ E').

Lemma visit_agree c st cs :
  CallSite.Parent cs ≠ sink → visit E K c st cs = visit E' K c st cs.
Proof using HE.
  intros Hne. unfold visit.
  by rewrite (bool_decide_ext _ _ (HE _ Hne)).
Qed.

Lemma fold_visit_agree c css st :
  (∀ cs, cs ∈ css → CallSite.Parent cs ≠ sink) →
  fold_left (visit E K c) css st = fold_left (visit E' K c) css st.
Proof using HE.
  revert st. induction css as [|cs css IH]; intros st Hcss; [done|]. cbn.
  rewrite visit_agree by (apply Hcss; by left).
  apply IH. intros cs' Hcs'. apply Hcss. by right.
Qed.

Lemma step_agree st :
  sink ∈ seen st ∨ queue st = [mkChain None sink None] →
  step σ ord E K st = step σ ord E' K st.
Proof using HE.
  intros Hsink. unfold step. destruct (queue st) as [|c rest]; [done|].
  case_bool_decide as Hseen; [done|].
  apply fold_visit_agree. intros cs [_ Hcs]%callsites_sound Heq.
  apply Hcs. rewrite Heq. destruct Hsink as [?|Hq].
  - by apply elem_of_union_r.
  - simplify_eq. apply elem_of_union_l. by apply elem_of_singleton.
Qed.

Lemma loop_agree fuel st :
  sound σ E K sink st → loop σ ord E K fuel st = loop σ ord E' K fuel st.
Proof using HE.
  revert st. induction fuel as [|fuel IH]; intros st Hst; cbn [loop]; [done|].
  destruct (queue st) eqn:Hq; [done|].
  rewrite <- (step_agree st) by apply (sound_sink Hst).
  apply IH. by apply step_sound.
Qed.
End EntrySink.

(** * The claims *)

(** ** C1: the number of frames of the witness *)

(** C1, as the claim states it, fails: with main calling sink and both of
    them entry functions, the sink is one frame away from an entry function
    (itself), and the witness returned has two frames. *)
Lemma shortest_fails_for_entry_sink :
  ¬ (∀ σ ord vuln res sink n,
       (∀ f l, ord f l ≡ₚ l) →
       Vuln.CallSink (vulnAt σ vuln) = Some sink →
       least (entryFrames σ vuln res sink) n →
       length (callStack σ ord vuln res) = n).
Proof.
  intros H.
  specialize (H EntrySink.σ idOrder 0 EntrySink.res 1 1).
  assert (Hlen : length (callStack EntrySink.σ idOrder 0 EntrySink.res) = 2)
    by (by vm_compute).
  rewrite Hlen in H. enough (2 = 1) by lia. apply H; [done|done|]. split.
  - left. split; [done|]. apply elem_of_entriesOf. cbn. set_solver.
  - intros m [[-> _]|(e & f & m' & -> & _)]; lia.
Qed.

(** C1, amended: when the sink of a Vuln is reached through at least one
    call from an entry function other than the sink itself, no frame in
    between being the sink of a sibling Vuln, the witness returned has as
    many frames as the shortest such path. *)
Theorem callStack_shortest σ ord vuln res sink n :
  (∀ f l, ord f l ≡ₚ l) →
  Vuln.CallSink (vulnAt σ vuln) = Some sink →
  least (callerFrames σ vuln res sink) n →
  length (callStack σ ord vuln res) = n.
Proof.
  intros Hord Hs Hn.
  destruct (search_least σ ord vuln res sink n Hord (proj1 Hn)) as [Hne Hl].
  rewrite (callStack_length σ ord vuln res sink Hs Hne).
  by eapply least_unique.
Qed.

Lemma callStack_shortest_witness :
  least (callerFrames EntrySink.σ 0 EntrySink.res 1) 2
  ∧ length (callStack EntrySink.σ idOrder 0 EntrySink.res) = 2.
Proof.
  assert (H : least (callerFrames EntrySink.σ 0 EntrySink.res 1) 2).
  { split.
    - exists 0, 1, 1. split; [reflexivity|].
      split; [apply elem_of_entriesOf; by left|].
      split; [discriminate|].
      split; [exists EntrySink.cs_sink; split; [by left|reflexivity]|].
      constructor.
    - intros m (e & f & m' & -> & _ & _ & _ & Hc).
      apply climb_pos in Hc. lia. }
  split; [exact H|].
  apply (callStack_shortest EntrySink.σ idOrder 0 EntrySink.res 1 2);
    [reflexivity|reflexivity|exact H].
Defined.

(** ** C2: the weight of the witness *)

(** C2.  The stack returned is one of the candidates the search has
    collected, which all have one number of frames, and none of them has
    fewer frames with an unresolved call site; this count is what [weight]
    computes. *)
Theorem callStack_least_weight σ ord vuln res sink c :
  Vuln.CallSink (vulnAt σ vuln) = Some sink →
  c ∈ candidates (search σ ord vuln res sink) →
  callStack σ ord vuln res ∈ candidates (search σ ord vuln res sink)
  ∧ length (callStack σ ord vuln res) = length c
  ∧ unresolvedCalls (callStack σ ord vuln res) ≤ unresolvedCalls c
  ∧ weight (callStack σ ord vuln res)
    = unresolvedCalls (callStack σ ord vuln res).
Proof.
  intros Hs Hc.
  destruct (callStack_least σ ord vuln res sink c Hs Hc) as [Hin Hw].
  split; [done|].
  pose proof (loop_sound σ ord (entriesOf res) (skipSymbolsOf σ vuln res)
                sink (searchFuel σ)) as [_ Hcands _].
  rewrite Forall_forall in Hcands. fold (search σ ord vuln res sink) in Hcands.
  destruct (Hcands _ Hin) as (_ & _ & _ & Hl1).
  destruct (Hcands _ Hc) as (_ & _ & _ & Hl2).
  split; [congruence|]. rewrite <- !weight_unresolvedCalls. done.
Qed.

Lemma callStack_least_weight_witness :
  let c := [mkEntry 0 (Some Dynamic.cs_dyn); mkEntry 2 None] in
  c ∈ candidates (search Dynamic.σ idOrder 0 Dynamic.res 2)
  ∧ unresolvedCalls (callStack Dynamic.σ idOrder 0 Dynamic.res)
    ≤ unresolvedCalls c.
Proof.
  intros c.
  assert (Hc : c ∈ candidates (search Dynamic.σ idOrder 0 Dynamic.res 2)).
  { apply list_elem_of_In. vm_compute. by left. }
  split; [exact Hc|].
  apply (callStack_least_weight Dynamic.σ idOrder 0 Dynamic.res 2 c);
    [reflexivity|exact Hc].
Defined.

(** ** C3: two runs on one Result *)

(** C3 fails on the code.  The two callers of the sink have no position, so
    [funcLess] calls each of them less than the other, and the order in
    which the map of [callsites] is ranged over decides the witness. *)
Theorem CallStacks_depends_on_map_order :
  (∀ f l, idOrder f l ≡ₚ l) ∧ (∀ f l, revOrder f l ≡ₚ l)
  ∧ CallStacks TwoCallers.σ (λ _, idOrder) (λ l, l) TwoCallers.res !! 0
    = Some [mkEntry 1 (Some TwoCallers.cs_a); mkEntry 2 None]
  ∧ CallStacks TwoCallers.σ (λ _, revOrder) (λ l, l) TwoCallers.res !! 0
    = Some [mkEntry 0 (Some TwoCallers.cs_b); mkEntry 2 None].
Proof.
  split; [done|]. split; [intros f l; symmetry; apply Permutation_rev|].
  split; by vm_compute.
Qed.

(** ** C4: sibling sinks *)

(** C4.  For two Vulns of one database entry and one import sink, no frame
    strictly between the first and the last frame of the witness of the
    first is the sink of the second, and no chain on the queue of the search
    other than the chain it starts from is at that sink. *)
Theorem callStack_avoids_siblings σ ord res v1 v2 sink1 sink2 :
  siblings σ res v1 v2 →
  Vuln.CallSink (vulnAt σ v1) = Some sink1 →
  Vuln.CallSink (vulnAt σ v2) = Some sink2 →
  (∀ e, e ∈ inner (callStack σ ord v1 res) → Function e ≠ sink2)
  ∧ (∀ n c, c ∈ queue (searchTurns σ ord v1 res sink1 n) →
       c = mkChain None sink1 None ∨ chain_f c ≠ sink2).
Proof.
  intros Hsib Hs1 Hs2.
  assert (HK : sink2 ∈ skipSymbolsOf σ v1 res).
  { apply elem_of_skipSymbolsOf. by exists v2. }
  split.
  - intros e He Heq.
    destruct (decide (callStack σ ord v1 res = [])) as [Hnil|Hne].
    { rewrite Hnil in He. by apply elem_of_nil in He. }
    destruct (callStack_good σ ord v1 res sink1 Hs1 Hne) as (_ & _ & Hin & _).
    rewrite Forall_forall in Hin. apply (Hin e He). by rewrite Heq.
  - intros n c Hc.
    pose proof (sound_queue (searchTurns_sound σ ord v1 res sink1 n)) as Hq.
    rewrite Forall_forall in Hq.
    destruct (good_chain_frontier _ _ _ _ (Hq c Hc)) as [?|Hf]; [by left|].
    right. intros Heq. by rewrite Heq in Hf.
Qed.

Lemma callStack_avoids_siblings_witness :
  siblings Siblings.σ Siblings.res 1 0
  ∧ ∀ e, e ∈ inner (callStack Siblings.σ idOrder 1 Siblings.res) →
         Function e ≠ 1.
Proof.
  assert (H : siblings Siblings.σ Siblings.res 1 0).
  { split; [by left|]. split; [discriminate|]. split; reflexivity. }
  split; [exact H|].
  apply (callStack_avoids_siblings Siblings.σ idOrder Siblings.res 1 0 2 1);
    [exact H|reflexivity|reflexivity].
Defined.

(** ** C5: the shape of the witness *)

(** C5.  A witness that is not nil starts at an entry function of the
    Result and ends at the call sink of the Vuln with no call site; every
    frame before the last holds a call site that lies in its own function
    and at which the function of the next frame is called. *)
Theorem callStack_well_formed σ ord vuln res :
  callStack σ ord vuln res ≠ [] →
  ∃ sink,
    Vuln.CallSink (vulnAt σ vuln) = Some sink
    ∧ (∃ e, head (callStack σ ord vuln res) = Some e
            ∧ Function e ∈ EntryFunctions res)
    ∧ last (callStack σ ord vuln res) = Some (mkEntry sink None)
    ∧ ∀ i e e',
        callStack σ ord vuln res !! i = Some e →
        callStack σ ord vuln res !! S i = Some e' →
        ∃ cs, Call e = Some cs
              ∧ CallSite.Parent cs = Function e
              ∧ cs ∈ FuncNode.CallSites (funcAt σ (Function e')).
Proof.
  intros Hne. destruct (callStack_sink σ ord vuln res Hne) as [sink Hs].
  exists sink. split; [done|].
  destruct (callStack_good σ ord vuln res sink Hs Hne)
    as (Hl & (e & s' & Heq & _ & HE & _) & _).
  split; [|split].
  - exists e. rewrite Heq. split; [done|]. by apply elem_of_entriesOf.
  - by eapply linked_last.
  - intros i e1 e2. by eapply linked_step.
Qed.

Lemma callStack_well_formed_witness :
  callStack Chain4.σ idOrder 0 Chain4.res ≠ []
  ∧ last (callStack Chain4.σ idOrder 0 Chain4.res) = Some (mkEntry 3 None).
Proof.
  assert (H : callStack Chain4.σ idOrder 0 Chain4.res ≠ [])
    by (vm_compute; discriminate).
  split; [exact H|].
  destruct (callStack_well_formed Chain4.σ idOrder 0 Chain4.res H)
    as (sink & Hs & _ & Hlast & _).
  vm_compute in Hs. injection Hs as <-. exact Hlast.
Defined.

(** ** C6: a sink out of reach *)

(** C6.  When no entry function reaches the call sink of a Vuln of the
    Result through calls, the mapping holds the Vuln with a nil stack,
    whatever the order in which the tasks finish. *)
Theorem CallStacks_unreachable σ ords sched res vuln sink :
  (∀ l, sched l ≡ₚ l) →
  vuln ∈ Vulns res →
  Vuln.CallSink (vulnAt σ vuln) = Some sink →
  (∀ e, e ∈ EntryFunctions res → ¬ tc (calls σ) e sink) →
  CallStacks σ ords sched res !! vuln = Some [].
Proof.
  intros Hsched Hin Hs Hno. apply CallStacks_lookup; [done..|].
  intros i. destruct (decide (callStack σ (ords i) vuln res = [])) as [?|Hne];
    [done|].
  destruct (callStack_reached σ (ords i) vuln res sink Hs Hne)
    as (e & He & _ & Htc).
  by destruct (Hno e He).
Qed.

Lemma Isolated_no_caller f : ¬ calls Isolated.σ 0 f.
Proof.
  intros (cs & Hcs & Hp). destruct f as [|[|[|f]]]; cbn in Hcs.
  - by apply elem_of_nil in Hcs.
  - by apply elem_of_nil in Hcs.
  - apply list_elem_of_singleton in Hcs. by subst cs.
  - by apply elem_of_nil in Hcs.
Qed.

Lemma CallStacks_unreachable_witness :
  CallStacks Isolated.σ (λ _, idOrder) (λ l, l) Isolated.res !! 0 = Some [].
Proof.
  apply (CallStacks_unreachable Isolated.σ (λ _, idOrder) (λ l, l)
           Isolated.res 0 2); [reflexivity|by left|reflexivity|].
  intros e ->%list_elem_of_singleton Htc.
  inversion Htc as [? ? Hcalls|? ? ? Hcalls _];
    by apply Isolated_no_caller in Hcalls.
Defined.

(** ** C7: one expansion for each function *)

(** C7.  A function is expanded at most once in a search.  A turn whose
    front chain is at a function recorded in the seen set takes the chain
    off the queue and does nothing else.  A turn whose front chain is at a
    function not yet seen records the function, and the chains it puts on
    the queue and the candidates it collects all start at a caller that is
    neither that function nor seen before: call sites with a visited caller
    are left out.  And once a chain at a function has been at the front of
    the queue, every later turn with a chain at that function at the front
    only takes it off. *)
Theorem search_expands_once σ ord vuln res sink :
  (∀ n c rest,
     queue (searchTurns σ ord vuln res sink n) = c :: rest →
     chain_f c ∈ seen (searchTurns σ ord vuln res sink n) →
     searchTurns σ ord vuln res sink (S n)
     = dropFront (searchTurns σ ord vuln res sink n))
  ∧ (∀ n c rest,
       queue (searchTurns σ ord vuln res sink n) = c :: rest →
       chain_f c ∉ seen (searchTurns σ ord vuln res sink n) →
       seen (searchTurns σ ord vuln res sink (S n))
       = {[chain_f c]} ∪ seen (searchTurns σ ord vuln res sink n)
       ∧ (∀ c', c' ∈ queue (searchTurns σ ord vuln res sink (S n)) →
            c' ∈ rest
            ∨ ∃ cs, c' = mkChain (Some cs) (CallSite.Parent cs) (Some c)
                    ∧ cs ∈ FuncNode.CallSites (funcAt σ (chain_f c))
                    ∧ CallSite.Parent cs
                      ∉ {[chain_f c]} ∪ seen (searchTurns σ ord vuln res sink n))
       ∧ (∀ s, s ∈ candidates (searchTurns σ ord vuln res sink (S n)) →
            s ∈ candidates (searchTurns σ ord vuln res sink n)
            ∨ ∃ cs, s = mkEntry (CallSite.Parent cs) (Some cs) :: chainStack c
                    ∧ cs ∈ FuncNode.CallSites (funcAt σ (chain_f c))
                    ∧ CallSite.Parent cs
                      ∉ {[chain_f c]} ∪ seen (searchTurns σ ord vuln res sink n)))
  ∧ (∀ i j ci resti cj restj,
       i < j →
       queue (searchTurns σ ord vuln res sink i) = ci :: resti →
       queue (searchTurns σ ord vuln res sink j) = cj :: restj →
       chain_f cj = chain_f ci →
       searchTurns σ ord vuln res sink (S j)
       = dropFront (searchTurns σ ord vuln res sink j)).
Proof.
  split; [|split].
  - intros n c rest Hq Hseen. by eapply step_drop.
  - intros n c rest Hq Hseen. by apply step_expand.
  - intros i j ci resti cj restj Hij Hi Hj Hf.
    eapply step_drop; [exact Hj|]. rewrite Hf.
    by eapply iter_front_seen.
Qed.

Lemma search_expands_once_witness :
  chain_f <$> queue (searchTurns Diamond.σ idOrder 0 Diamond.res 4 3) = [1; 1]
  ∧ chain_f <$> queue (searchTurns Diamond.σ idOrder 0 Diamond.res 4 4) = [1; 0]
  ∧ searchTurns Diamond.σ idOrder 0 Diamond.res 4 5
    = dropFront (searchTurns Diamond.σ idOrder 0 Diamond.res 4 4).
Proof.
  split; [by vm_compute|]. split; [by vm_compute|].
  destruct (search_expands_once Diamond.σ idOrder 0 Diamond.res 4)
    as (_ & _ & Honce).
  eapply (Honce 3 4); [lia|by vm_compute..].
Defined.

(** ** C8: the comparators without positions *)

(** C8 fails on the code.  When neither argument has a position, [funcLess]
    and [csLess] answer true before they look at a name: the function named
    p.b is less than the one named p.a, and the call site named b is less
    than the one named a. *)
Theorem fallback_ignores_names :
  (∀ n1 r1 p1 s1 n2 r2 p2 s2,
     funcLess (FuncNode.mk n1 r1 p1 None s1) (FuncNode.mk n2 r2 p2 None s2)
     = true)
  ∧ (∀ f1 n1 r1 b1 f2 n2 r2 b2,
       csLess (CallSite.mk f1 n1 r1 None b1)
              (Some (CallSite.mk f2 n2 r2 None b2)) = true)
  ∧ funcLess TwoCallers.f_b TwoCallers.f_a = true
  ∧ String.ltb (FuncNode.String TwoCallers.f_b)
               (FuncNode.String TwoCallers.f_a) = false
  ∧ csLess (site 0 "b" None true) (Some (site 0 "a" None true)) = true
  ∧ String.ltb (sprintf_dot "" "b") (sprintf_dot "" "a") = false.
Proof. repeat split; reflexivity. Qed.

(** ** C9: the chain entry, a, b, sink *)

(** C9, as the claim states it, fails: on the chain the witness has four
    frames, the last of them the sink, and is not the stack of the three
    frames entry, a and b. *)
Lemma chain_stack_has_four_frames :
  length (callStack Chain4.σ idOrder 0 Chain4.res) ≠ 3
  ∧ callStack Chain4.σ idOrder 0 Chain4.res
    ≠ [mkEntry 0 (Some Chain4.cs_a); mkEntry 1 (Some Chain4.cs_b);
       mkEntry 2 (Some Chain4.cs_sink)].
Proof. split; vm_compute; discriminate. Qed.

Lemma chainStore_single e a b s v f :
  length (FuncNode.CallSites e) ≤ 1 → length (FuncNode.CallSites a) ≤ 1 →
  length (FuncNode.CallSites b) ≤ 1 → length (FuncNode.CallSites s) ≤ 1 →
  length (FuncNode.CallSites (funcAt (chainStore e a b s v) f)) ≤ 1.
Proof.
  intros. unfold funcAt, chainStore.
  destruct f as [|[|[|[|f]]]]; cbn [funcNodes lookup list_lookup default];
    cbn; try lia.
  destruct f; cbn; lia.
Qed.

(** C9, amended: on the chain, with every call site resolved, the witness
    is the stack of the four frames entry, a, b and sink, each but the last
    with the call site of the next, and its weight is 0. *)
Theorem chain_witness_stack e a b s v ca cb cs ord :
  (∀ f l, ord f l ≡ₚ l) →
  FuncNode.CallSites e = [] → FuncNode.CallSites a = [ca] →
  FuncNode.CallSites b = [cb] → FuncNode.CallSites s = [cs] →
  CallSite.Parent ca = 0 → CallSite.Parent cb = 1 → CallSite.Parent cs = 2 →
  CallSite.Resolved ca = true → CallSite.Resolved cb = true →
  CallSite.Resolved cs = true →
  Vuln.CallSink v = Some 3 →
  callStack (chainStore e a b s v) ord 0 (mkResult [0] [0])
  = [mkEntry 0 (Some ca); mkEntry 1 (Some cb); mkEntry 2 (Some cs);
     mkEntry 3 None]
  ∧ weight (callStack (chainStore e a b s v) ord 0 (mkResult [0] [0])) = 0.
Proof.
  intros Hord He Ha Hb Hs Hpa Hpb Hps Hra Hrb Hrs Hv.
  rewrite callStack_single; [|done|].
  2: { intros f. apply chainStore_single; rewrite ?He, ?Ha, ?Hb, ?Hs; cbn; lia. }
  destruct e as [ne re pe qe se], a as [na ra pa qa sa],
    b as [nb rb pb qb sb], s as [ns rs ps qs ss], v as [osv sink imp],
    ca as [fa ma ta oa ba], cb as [fb mb tb ob bb], cs as [fs ms ts os bs].
  cbn in *. subst. split; by vm_compute.
Qed.

Lemma chain_witness_stack_witness :
  callStack Chain4.σ idOrder 0 Chain4.res
  = [mkEntry 0 (Some Chain4.cs_a); mkEntry 1 (Some Chain4.cs_b);
     mkEntry 2 (Some Chain4.cs_sink); mkEntry 3 None]
  ∧ weight (callStack Chain4.σ idOrder 0 Chain4.res) = 0.
Proof.
  apply (chain_witness_stack (func "entry" (posAt 1) []) (func "a" (posAt 11) [Chain4.cs_a])
           (func "b" (posAt 21) [Chain4.cs_b])
           (func "sink" (posAt 31) [Chain4.cs_sink])
           (Vuln.mk 0 (Some 3) (Some 0)) Chain4.cs_a Chain4.cs_b
           Chain4.cs_sink idOrder); reflexivity.
Defined.

(** ** C10: at least two frames *)

(** C10.  A witness is nil or has at least two frames; and when the call
    sink is itself an entry function that no other entry function reaches
    through calls, the witness is nil. *)
Theorem callStack_two_frames σ ord vuln res :
  (callStack σ ord vuln res = [] ∨ 2 ≤ length (callStack σ ord vuln res))
  ∧ ∀ sink,
      Vuln.CallSink (vulnAt σ vuln) = Some sink →
      sink ∈ EntryFunctions res →
      (∀ e, e ∈ EntryFunctions res → e ≠ sink → ¬ tc (calls σ) e sink) →
      callStack σ ord vuln res = [].
Proof.
  split.
  - destruct (decide (callStack σ ord vuln res = [])) as [?|Hne]; [by left|].
    right. destruct (callStack_sink σ ord vuln res Hne) as [sink Hs].
    destruct (callStack_good σ ord vuln res sink Hs Hne)
      as (_ & (e & s' & -> & Hs' & _) & _).
    destruct s'; [done|cbn; lia].
  - intros sink Hs _ Hno.
    destruct (decide (callStack σ ord vuln res = [])) as [?|Hne]; [done|].
    destruct (callStack_reached σ ord vuln res sink Hs Hne)
      as (e & He & Hes & Htc).
    by destruct (Hno e He Hes).
Qed.

Lemma callStack_two_frames_witness :
  callStack LoneSink.σ idOrder 0 LoneSink.res = []
  ∧ 2 ≤ length (callStack EntrySink.σ idOrder 0 EntrySink.res).
Proof.
  split.
  - apply (proj2 (callStack_two_frames LoneSink.σ idOrder 0 LoneSink.res) 0);
      [reflexivity|by left|].
    intros e ->%list_elem_of_singleton Hne. by destruct Hne.
  - destruct (proj1 (callStack_two_frames EntrySink.σ idOrder 0 EntrySink.res))
      as [Hnil|H]; [|exact H].
    vm_compute in Hnil. discriminate.
Defined.

(** * Further properties of the code *)

(** ** The comparators *)

(** X1.  [posLess] is a strict total order on positions: no position is
    less than itself, the comparison is transitive, and two positions
    neither of which is less than the other have the same line, column and
    file name. *)
Theorem posLess_strict_total_order :
  (∀ p, posLess p p = false)
  ∧ (∀ p q r, posLess p q = true → posLess q r = true → posLess p r = true)
  ∧ (∀ p q, posLess p q = false → posLess q p = false → p = q).
Proof.
  split; [exact posLess_irrefl|]. split; [exact posLess_trans|].
  exact posLess_total.
Qed.

(** X2.  On functions that have a position, [funcLess] is a strict order by
    position and then by display name: it is irreflexive, asymmetric and
    transitive, and two such functions neither of which is less than the
    other have the same position and the same display name. *)
Theorem funcLess_strict_on_positions f1 f2 f3 :
  is_Some (FuncNode.Pos f1) → is_Some (FuncNode.Pos f2) →
  is_Some (FuncNode.Pos f3) →
  funcLess f1 f1 = false
  ∧ (funcLess f1 f2 = true → funcLess f2 f1 = false)
  ∧ (funcLess f1 f2 = true → funcLess f2 f3 = true → funcLess f1 f3 = true)
  ∧ (funcLess f1 f2 = false → funcLess f2 f1 = false →
     FuncNode.Pos f1 = FuncNode.Pos f2
     ∧ FuncNode.String f1 = FuncNode.String f2).
Proof.
  intros [p1 H1] [p2 H2] [p3 H3].
  split; [by eapply funcLess_positioned_irrefl|]. split; [|split].
  - intros H12. destruct (funcLess f2 f1) eqn:H21; [|done].
    rewrite <- (funcLess_positioned_irrefl f1 p1 H1).
    by rewrite (funcLess_positioned_trans f1 f2 f1 p1 p2 p1).
  - by apply (funcLess_positioned_trans f1 f2 f3 p1 p2 p3).
  - intros Ha Hb.
    destruct (funcLess_positioned_total f1 f2 p1 p2 H1 H2 Ha Hb) as [-> ?].
    split; [congruence|done].
Qed.

Lemma funcLess_strict_on_positions_witness :
  funcLess (func "a" (posAt 1) []) (func "b" (posAt 2) []) = true
  ∧ funcLess (func "b" (posAt 2) []) (func "c" (posAt 2) []) = true
  ∧ funcLess (func "a" (posAt 1) []) (func "c" (posAt 2) []) = true.
Proof.
  split; [reflexivity|]. split; [reflexivity|].
  apply (funcLess_strict_on_positions (func "a" (posAt 1) [])
           (func "b" (posAt 2) []) (func "c" (posAt 2) []));
    [by eexists..|reflexivity|reflexivity].
Defined.

(** ** [callsites] *)

(** X3.  [callsites] hands back call sites of the list given, one for each
    caller: no two of them have the same caller, and a function is the
    caller of one of them exactly when it has not been visited and is the
    caller of some call site of the list. *)
Theorem callsites_one_per_caller σ range sites visited :
  (∀ l, range l ≡ₚ l) →
  NoDup (CallSite.Parent <$> callsites σ range sites visited)
  ∧ (∀ cs, cs ∈ callsites σ range sites visited → cs ∈ sites)
  ∧ ∀ p, p ∈ (CallSite.Parent <$> callsites σ range sites visited)
         ↔ (p ∉ visited) ∧ ∃ cs, cs ∈ sites ∧ CallSite.Parent cs = p.
Proof.
  intros Hrange. split; [by apply callsites_NoDup|]. split.
  - by intros cs [? _]%callsites_sound.
  - intros p. by apply callsites_parent_iff.
Qed.

Lemma callsites_one_per_caller_witness :
  NoDup (CallSite.Parent <$>
           callsites Repeated.σ (λ l, l)
             [Repeated.cs_late; Repeated.cs_early] {[1]}).
Proof.
  apply (callsites_one_per_caller Repeated.σ (λ l, l)
           [Repeated.cs_late; Repeated.cs_early] {[1]}).
  reflexivity.
Defined.

(** X4.  The call site that [callsites] keeps for a caller has a position
    as soon as some call site of that caller in the list has one, and no
    call site of that caller in the list has a position that is less. *)
Theorem callsites_least_position σ range sites visited cs cs' q :
  cs ∈ callsites σ range sites visited →
  cs' ∈ sites → CallSite.Parent cs' = CallSite.Parent cs →
  CallSite.Pos cs' = Some q →
  ∃ p, CallSite.Pos cs = Some p ∧ posLess q p = false.
Proof.
  intros Hcs%callsites_parent Hin Hp Hq.
  by eapply minCallSites_least.
Qed.

Lemma callsites_least_position_witness :
  Repeated.cs_early
    ∈ callsites Repeated.σ (λ l, l) [Repeated.cs_late; Repeated.cs_early] {[1]}
  ∧ ∃ p, CallSite.Pos Repeated.cs_early = Some p
         ∧ posLess (Position.mk "main.go" 7 1) p = false.
Proof.
  assert (H : Repeated.cs_early
    ∈ callsites Repeated.σ (λ l, l) [Repeated.cs_late; Repeated.cs_early] {[1]}).
  { apply list_elem_of_In. vm_compute. by left. }
  split; [exact H|].
  apply (callsites_least_position Repeated.σ (λ l, l)
           [Repeated.cs_late; Repeated.cs_early] {[1]}
           Repeated.cs_early Repeated.cs_late);
    [exact H|by left|reflexivity|reflexivity].
Defined.

(** X5.  The call sites that [callsites] hands back are sorted by their
    callers, whatever the order in which the map is ranged over: callers
    that have a position come by position and then by display name, and
    callers without a position come last. *)
Theorem callsites_sorted_by_caller σ range sites visited :
  (∀ l, range l ≡ₚ l) →
  StronglySorted
    (λ c1 c2, funcLe (funcAt σ (CallSite.Parent c1))
                     (funcAt σ (CallSite.Parent c2)))
    (callsites σ range sites visited).
Proof.
  intros Hrange.
  apply (StronglySorted_fmap_inv CallSite.Parent
           (λ f1 f2, funcLe (funcAt σ f1) (funcAt σ f2))).
  by apply callsites_sorted_parents.
Qed.

Lemma callsites_sorted_by_caller_witness :
  StronglySorted
    (λ c1 c2, funcLe (funcAt Dynamic.σ (CallSite.Parent c1))
                     (funcAt Dynamic.σ (CallSite.Parent c2)))
    (callsites Dynamic.σ (λ l, rev l) [Dynamic.cs_dyn; Dynamic.cs_static] {[2]}).
Proof.
  apply (callsites_sorted_by_caller Dynamic.σ (λ l, rev l)
           [Dynamic.cs_dyn; Dynamic.cs_static] {[2]}).
  intros l. symmetry. apply Permutation_rev.
Defined.

(** X6.  When [funcLess] orders any two different callers of the call sites
    given one way only, the result of [callsites] does not depend on the
    order in which the map is ranged over. *)
Theorem callsites_range_irrelevant σ range range' sites visited :
  (∀ l, range l ≡ₚ l) → (∀ l, range' l ≡ₚ l) → orderedCallers σ sites →
  callsites σ range sites visited = callsites σ range' sites visited.
Proof. apply callsites_ordered. Qed.

Lemma callsites_range_irrelevant_witness :
  callsites Dynamic.σ (λ l, l) (FuncNode.CallSites (funcAt Dynamic.σ 2)) {[2]}
  = callsites Dynamic.σ (λ l, rev l) (FuncNode.CallSites (funcAt Dynamic.σ 2)) {[2]}.
Proof.
  apply (callsites_range_irrelevant Dynamic.σ (λ l, l) (λ l, rev l)
           (FuncNode.CallSites (funcAt Dynamic.σ 2)) {[2]}).
  - reflexivity.
  - intros l. symmetry. apply Permutation_rev.
  - apply Dynamic_ordered.
Defined.

(** ** [CallStacks] *)

(** X7.  When [funcLess] orders any two different callers of one function
    one way only, [CallStacks] returns the same mapping in every run:
    neither the order in which the maps are ranged over nor the order in
    which the tasks finish changes it. *)
Theorem CallStacks_deterministic σ ords ords' sched sched' res :
  (∀ f, orderedCallers σ (FuncNode.CallSites (funcAt σ f))) →
  (∀ i f l, ords i f l ≡ₚ l) → (∀ i f l, ords' i f l ≡ₚ l) →
  (∀ l, sched l ≡ₚ l) → (∀ l, sched' l ≡ₚ l) →
  CallStacks σ ords sched res = CallStacks σ ords' sched' res.
Proof.
  intros Hσ Hords Hords' Hsched Hsched'. apply map_eq. intros v.
  destruct (decide (v ∈ Vulns res)) as [Hin|Hin].
  - rewrite (CallStacks_lookup σ ords sched res v
               (callStack σ (ords 0) v res)); [|done..|].
    2: { intros i. by apply callStack_ordered. }
    rewrite (CallStacks_lookup σ ords' sched' res v
               (callStack σ (ords 0) v res)); [done..|].
    intros i. by apply callStack_ordered.
  - by rewrite !CallStacks_lookup_None.
Qed.

Lemma CallStacks_deterministic_witness :
  CallStacks Dynamic.σ (λ _, idOrder) (λ l, l) Dynamic.res
  = CallStacks Dynamic.σ (λ _, revOrder) (λ l, rev l) Dynamic.res.
Proof.
  apply (CallStacks_deterministic Dynamic.σ (λ _, idOrder) (λ _, revOrder)
           (λ l, l) (λ l, rev l) Dynamic.res).
  - apply Dynamic_ordered.
  - reflexivity.
  - intros i f l. symmetry. apply Permutation_rev.
  - reflexivity.
  - intros l. symmetry. apply Permutation_rev.
Defined.

(** X8.  The mapping that [CallStacks] returns has an entry for every Vuln
    of the Result and for nothing else; the entry of a Vuln is the stack
    that [callStack] computes for it, and it is nil for a Vuln that has no
    call sink. *)
Theorem CallStacks_keys σ ords sched res :
  (∀ l, sched l ≡ₚ l) →
  (∀ v, is_Some (CallStacks σ ords sched res !! v) ↔ v ∈ Vulns res)
  ∧ (∀ v, v ∈ Vulns res →
       ∃ i, Vulns res !! i = Some v
            ∧ CallStacks σ ords sched res !! v
              = Some (callStack σ (ords i) v res))
  ∧ (∀ v, v ∈ Vulns res → Vuln.CallSink (vulnAt σ v) = None →
       CallStacks σ ords sched res !! v = Some []).
Proof.
  intros Hsched. split; [|split].
  - intros v. split.
    + intros [s Hs]. destruct (decide (v ∈ Vulns res)) as [|Hn]; [done|].
      by rewrite CallStacks_lookup_None in Hs.
    + intros Hv. destruct (CallStacks_lookup_Some σ ords sched res v Hsched Hv)
        as (i & _ & ->). by eexists.
  - intros v Hv. by apply CallStacks_lookup_Some.
  - intros v Hv Hnil. apply CallStacks_lookup; [done..|].
    intros i. by apply callStack_nil_sink.
Qed.

Lemma CallStacks_keys_witness :
  is_Some (CallStacks Siblings.σ (λ _, idOrder) (λ l, rev l) Siblings.res !! 1)
  ↔ 1 ∈ Vulns Siblings.res.
Proof.
  apply (proj1 (CallStacks_keys Siblings.σ (λ _, idOrder) (λ l, rev l)
                  Siblings.res
                  (λ l, symmetry (Permutation_rev l))) 1).
Defined.

(** X9.  When no Vuln comes twice in the Result, the order in which the
    tasks of [CallStacks] finish does not change the mapping it returns. *)
Theorem CallStacks_schedule_irrelevant σ ords sched sched' res :
  NoDup (Vulns res) → (∀ l, sched l ≡ₚ l) → (∀ l, sched' l ≡ₚ l) →
  CallStacks σ ords sched res = CallStacks σ ords sched' res.
Proof.
  intros Hnd Hsched Hsched'. apply map_eq. intros v.
  destruct (decide (v ∈ Vulns res)) as [Hin|Hin].
  - destruct (CallStacks_lookup_Some σ ords sched res v Hsched Hin)
      as (i & Hi & ->).
    destruct (CallStacks_lookup_Some σ ords sched' res v Hsched' Hin)
      as (i' & Hi' & ->).
    by rewrite (NoDup_lookup _ _ _ _ Hnd Hi Hi').
  - by rewrite !CallStacks_lookup_None.
Qed.

Lemma CallStacks_schedule_irrelevant_witness :
  CallStacks Siblings.σ (λ _, idOrder) (λ l, l) Siblings.res
  = CallStacks Siblings.σ (λ _, idOrder) (λ l, rev l) Siblings.res.
Proof.
  apply (CallStacks_schedule_irrelevant Siblings.σ (λ _, idOrder)
           (λ l, l) (λ l, rev l) Siblings.res).
  - cbn. constructor; [|constructor; [apply not_elem_of_nil|constructor]].
    intros H%list_elem_of_singleton. discriminate H.
  - reflexivity.
  - intros l. symmetry. apply Permutation_rev.
Defined.

(** ** [callStack] *)

(** X10.  There is a witness for a Vuln exactly when the Vuln has a call
    sink that some entry function other than the sink reaches through
    calls, with no sink of a sibling Vuln strictly between the two. *)
Theorem callStack_exists_iff σ ord vuln res :
  (∀ f l, ord f l ≡ₚ l) →
  callStack σ ord vuln res ≠ []
  ↔ ∃ sink n, Vuln.CallSink (vulnAt σ vuln) = Some sink
               ∧ callerFrames σ vuln res sink n.
Proof.
  intros Hord. split.
  - intros Hne. destruct (callStack_sink σ ord vuln res Hne) as [sink Hs].
    exists sink, (length (callStack σ ord vuln res)). split; [done|].
    by apply callStack_callerFrames.
  - intros (sink & n & Hs & Hn).
    destruct (search_least σ ord vuln res sink n Hord Hn) as [Hc _].
    by eapply candidates_callStack.
Qed.

Lemma callStack_exists_iff_witness :
  callStack Chain4.σ idOrder 0 Chain4.res ≠ []
  ↔ ∃ sink n, Vuln.CallSink (vulnAt Chain4.σ 0) = Some sink
               ∧ callerFrames Chain4.σ 0 Chain4.res sink n.
Proof.
  apply (callStack_exists_iff Chain4.σ idOrder 0 Chain4.res). reflexivity.
Defined.

(** X11.  No function has two frames in a witness. *)
Theorem callStack_no_repeated_function σ ord vuln res :
  NoDup (Function <$> callStack σ ord vuln res).
Proof. apply callStack_NoDup. Qed.

(** X12.  No frame strictly between the first and the last frame of a
    witness is the frame of an entry function: the witness starts at the
    entry function nearest to the sink on its path. *)
Theorem callStack_entry_only_first σ ord vuln res e :
  (∀ f l, ord f l ≡ₚ l) →
  e ∈ inner (callStack σ ord vuln res) → Function e ∉ EntryFunctions res.
Proof.
  intros Hord He HE.
  destruct (decide (callStack σ ord vuln res = [])) as [Hnil|Hne].
  { rewrite Hnil in He. by apply elem_of_nil in He. }
  destruct (callStack_sink σ ord vuln res Hne) as [sink Hs].
  pose proof (callStack_callerFrames σ ord vuln res sink Hs Hne) as Hfr.
  destruct (search_least σ ord vuln res sink _ Hord Hfr) as [Hc [_ Hleast]].
  rewrite <- (callStack_length σ ord vuln res sink Hs Hc) in Hleast.
  pose proof (callStack_NoDup σ ord vuln res) as Hnd.
  destruct (callStack_good σ ord vuln res sink Hs Hne)
    as (Hl & (e0 & s' & Heq & Hs' & _ & _) & Hin & _).
  rewrite Heq in *. rewrite inner_cons in He, Hin by done.
  pose proof (linked_last σ sink _ Hl) as Hlast.
  rewrite last_cons in Hlast.
  destruct (last_is_Some s' Hs') as [x Hx]. rewrite Hx in Hlast.
  simplify_eq.
  assert (Hes : Function e ≠ sink).
  { rewrite fmap_cons in Hnd. apply NoDup_cons in Hnd as [_ Hnd].
    apply (NoDup_last_upper s' e (mkEntry sink None) Hnd Hx He). }
  destruct (elem_of_upper e s' He) as (pre & post & -> & Hpost).
  rewrite upper_app_cons in Hin by done.
  apply Forall_app in Hin as [_ [_ Hin]%Forall_cons].
  assert (Hlsuf : linked σ sink (e :: post)).
  { apply (linked_suffix σ sink (e0 :: pre)); [exact Hl|done]. }
  assert (Hshort : callerFrames σ vuln res sink (length (e :: post))).
  { apply linked_reachable; [done..|by apply elem_of_entriesOf|done|].
    by rewrite inner_cons. }
  apply Hleast in Hshort. cbn in Hshort. rewrite length_app in Hshort.
  cbn in Hshort. lia.
Qed.

Lemma callStack_entry_only_first_witness :
  mkEntry 1 (Some Chain4.cs_b) ∈ inner (callStack Chain4.σ idOrder 0 Chain4.res)
  ∧ 1 ∉ EntryFunctions Chain4.res.
Proof.
  assert (H : mkEntry 1 (Some Chain4.cs_b)
              ∈ inner (callStack Chain4.σ idOrder 0 Chain4.res)).
  { apply list_elem_of_In. vm_compute. by left. }
  split; [exact H|].
  apply (callStack_entry_only_first Chain4.σ idOrder 0 Chain4.res
           (mkEntry 1 (Some Chain4.cs_b))); [reflexivity|exact H].
Defined.

(** X13.  The loop of [callStack] ends: after one turn more than there are
    call sites in the graph the queue is empty, whatever the order in which
    the maps are ranged over, and the state is the one the search ends
    in. *)
Theorem search_terminates σ ord vuln res sink n :
  (∀ f l, ord f l ≡ₚ l) →
  1 + sum_list (length ∘ FuncNode.CallSites <$> funcNodes σ) ≤ n →
  queue (searchTurns σ ord vuln res sink n) = []
  ∧ searchTurns σ ord vuln res sink n = search σ ord vuln res sink.
Proof.
  intros Hord Hn. rewrite <- potential_initState with (sink := sink) in Hn.
  unfold searchTurns, search. rewrite <- loop_iter. split.
  - by apply loop_done.
  - rewrite (loop_more σ ord _ _ Hord _ n _ (Nat.le_refl _) Hn).
    rewrite (loop_more σ ord _ _ Hord _ (searchFuel σ) _ (Nat.le_refl _)); [done|].
    pose proof (potential_init σ sink). lia.
Qed.

Lemma search_terminates_witness :
  queue (searchTurns Chain4.σ idOrder 0 Chain4.res 3 4) = [].
Proof.
  apply (search_terminates Chain4.σ idOrder 0 Chain4.res 3 4);
    [reflexivity|vm_compute; lia].
Defined.

(** X14.  Among up to 20 candidates, [callStack] returns the last one found
    of those of least weight: the candidate after which every candidate
    weighs more and before which none weighs less. *)
Theorem callStack_tie_last_found σ ord vuln res sink l1 s l2 :
  Vuln.CallSink (vulnAt σ vuln) = Some sink →
  candidates (search σ ord vuln res sink) = l1 ++ s :: l2 →
  length (l1 ++ s :: l2) ≤ 20 →
  (∀ c, c ∈ l1 → weight s ≤ weight c) →
  (∀ c, c ∈ l2 → weight s < weight c) →
  callStack σ ord vuln res = s.
Proof.
  intros Hs Hc Hlen H1 H2. unfold callStack. rewrite Hs, Hc.
  rewrite (SliceStable_small weightLess) by done.
  pose proof (insertionSort_head weight weightLess weightLess_leb l1 s l2 H1 H2)
    as Hh.
  destruct (insertionSort weightLess (l1 ++ s :: l2)) as [|x rest]; [done|].
  cbn in Hh. by simplify_eq.
Qed.

Lemma callStack_tie_last_found_witness :
  callStack TwoCallers.σ idOrder 0 TwoCallers.res
  = [mkEntry 1 (Some TwoCallers.cs_a); mkEntry 2 None].
Proof.
  apply (callStack_tie_last_found TwoCallers.σ idOrder 0 TwoCallers.res 2
           [[mkEntry 0 (Some TwoCallers.cs_b); mkEntry 2 None]]
           [mkEntry 1 (Some TwoCallers.cs_a); mkEntry 2 None] []).
  - reflexivity.
  - by vm_compute.
  - cbn. lia.
  - intros c ->%list_elem_of_singleton. by vm_compute.
  - intros c Hc. by apply elem_of_nil in Hc.
Defined.

(** X15.  The call site that a frame of a witness holds is a call of least
    position: among the places at which the function of the frame calls
    the function of the next frame, it has a position as soon as one of
    them has, and none of them has a position that is less. *)
Theorem callStack_call_sites_least σ ord vuln res i e e' cs cs' q :
  callStack σ ord vuln res !! i = Some e →
  callStack σ ord vuln res !! S i = Some e' →
  Call e = Some cs →
  cs' ∈ FuncNode.CallSites (funcAt σ (Function e')) →
  CallSite.Parent cs' = CallSite.Parent cs →
  CallSite.Pos cs' = Some q →
  ∃ p, CallSite.Pos cs = Some p ∧ posLess q p = false.
Proof.
  intros Hi Hi' Hcs Hin Hp Hq.
  by apply (leastCalls_lookup σ _ i e e' cs (callStack_leastCalls σ ord vuln res)
              Hi Hi' Hcs cs' q).
Qed.

Lemma callStack_call_sites_least_witness :
  callStack Repeated.σ idOrder 0 Repeated.res !! 0
  = Some (mkEntry 0 (Some Repeated.cs_early))
  ∧ ∃ p, CallSite.Pos Repeated.cs_early = Some p
         ∧ posLess (Position.mk "main.go" 7 1) p = false.
Proof.
  assert (H : callStack Repeated.σ idOrder 0 Repeated.res !! 0
              = Some (mkEntry 0 (Some Repeated.cs_early))) by reflexivity.
  split; [exact H|].
  apply (callStack_call_sites_least Repeated.σ idOrder 0 Repeated.res 0
           (mkEntry 0 (Some Repeated.cs_early)) (mkEntry 1 None)
           Repeated.cs_early Repeated.cs_late);
    [exact H|reflexivity|reflexivity|by left|reflexivity|reflexivity].
Defined.

(** X16.  Whether the call sink of a Vuln is itself an entry function plays
    no part in its witness: two Results with the same Vulns whose entry
    functions differ at most in the sink give the same stack. *)
Theorem callStack_ignores_entry_sink σ ord vuln res res' sink :
  Vuln.CallSink (vulnAt σ vuln) = Some sink →
  Vulns res' = Vulns res →
  (∀ e, e ≠ sink → e ∈ EntryFunctions res ↔ e ∈ EntryFunctions res') →
  callStack σ ord vuln res' = callStack σ ord vuln res.
Proof.
  intros Hs Hv HE. unfold callStack, search. rewrite Hs.
  assert (HK : skipSymbolsOf σ vuln res' = skipSymbolsOf σ vuln res).
  { unfold skipSymbolsOf. by rewrite Hv. }
  rewrite HK.
  rewrite (loop_agree σ ord (entriesOf res) (entriesOf res')
             (skipSymbolsOf σ vuln res) sink); [done| |apply sound_init].
  intros e He. rewrite !elem_of_entriesOf. by apply HE.
Qed.

Lemma callStack_ignores_entry_sink_witness :
  callStack EntrySink.σ idOrder 0 (mkResult [0] [0])
  = callStack EntrySink.σ idOrder 0 EntrySink.res.
Proof.
  apply (callStack_ignores_entry_sink EntrySink.σ idOrder 0 EntrySink.res
           (mkResult [0] [0]) 1); [reflexivity|reflexivity|].
  intros e He. rewrite !list_elem_of_In. cbn. intuition.
Defined.
